(** * ksapp: label / manifest reconciliation (src/main.py)

    A shallow embedding of the matching and pagination policy of
    [main.py]: candidate extraction, match resolution, safe-area
    detection, row capacity, manifest loading, chunking and page
    composition, followed by the properties of the specification.

    Modelling conventions.
    - Text is a [string] of bytes and is taken to be ASCII: [str.upper],
      [str.strip], [\d], [\b] and [re.IGNORECASE] are modelled on the ASCII
      range, where they agree with Python.
    - Page coordinates are Python floats: finite binary64 values, carried
      as the rationals [Q] they denote. The row capacity is the one place
      where float arithmetic decides an integer; there every operation is
      rounded to the nearest double ([Double.round]) and a result beyond
      the doubles is the infinity on which [int()] raises. The positions
      handed on to the drawing library (start of the clear region, place of
      a table) are kept as the exact sums.
    - A Python [set] has no fixed iteration order: a set that is iterated is
      a [gset] together with a function [set_iter] listing its members in
      some order.
    - The PDF and spreadsheet libraries are outside the program: a page is
      the data the program reads from it, and the output document is the
      list of pages the program inserts, each recorded with the drawing
      operations applied to it. Their calls sit inside the [try] of the
      handler and may raise: an upload is either what the library read from
      it or the exception raised on it, and whether a page can be drawn or
      the document saved is asked of a [library]. [print] is taken to
      return. *)

From Stdlib Require Import ZArith QArith Qround Qabs Qpower Ascii String DecimalString.
From Stdlib Require Import Sorted Permutation Lqa.
From stdpp Require Import gmap strings list fin_maps.

Local Open Scope Z_scope.

(** ** Python text primitives (ASCII) *)

Module Py.

Definition code (c : ascii) : N := N_of_ascii c.

Definition between (lo hi : N) (c : ascii) : bool :=
  ((lo <=? code c) && (code c <=? hi))%N.

Definition is_digit (c : ascii) : bool := between 48 57 c.
Definition is_upper (c : ascii) : bool := between 65 90 c.
Definition is_lower (c : ascii) : bool := between 97 122 c.
Definition is_alpha (c : ascii) : bool := is_upper c || is_lower c.

(** [\w]: letters, digits and the underscore. *)
Definition is_word (c : ascii) : bool :=
  is_alpha c || is_digit c || (code c =? 95)%N.

(** [str.isspace] on ASCII: tab, newline, VT, FF, CR, FS..US and space. *)
Definition is_space (c : ascii) : bool :=
  between 9 13 c || between 28 31 c || (code c =? 32)%N.

Definition upper_char (c : ascii) : ascii :=
  if is_lower c then ascii_of_N (code c - 32) else c.

(** [s.upper()] *)
Fixpoint upper (s : string) : string :=
  match s with
  | EmptyString => EmptyString
  | String c s' => String (upper_char c) (upper s')
  end.

Fixpoint lstrip (s : string) : string :=
  match s with
  | EmptyString => EmptyString
  | String c s' => if is_space c then lstrip s' else s
  end.

Fixpoint rstrip (s : string) : string :=
  match s with
  | EmptyString => EmptyString
  | String c s' =>
      match rstrip s' with
      | EmptyString => if is_space c then EmptyString else String c EmptyString
      | r => String c r
      end
  end.

(** [s.strip()] *)
Definition strip (s : string) : string := rstrip (lstrip s).

(** [needle in hay] on two strings: substring test. *)
Fixpoint contains (needle hay : string) : bool :=
  String.prefix needle hay ||
  match hay with
  | EmptyString => false
  | String _ hay' => contains needle hay'
  end.

(** [str(n)] for an int. *)
Definition str_of_int (n : Z) : string := NilZero.string_of_int (Z.to_int n).

(** [repr(s)] for a string without quotes, backslashes or control
    characters (the only strings the program formats this way are the
    three canonical column names). *)
Definition repr_str (s : string) : string := ("'" ++ s ++ "'")%string.

Fixpoint join (sep : string) (l : list string) : string :=
  match l with
  | [] => EmptyString
  | [s] => s
  | s :: l' => (s ++ sep ++ join sep l')%string
  end.

(** [str(l)] for a list of such strings. *)
Definition repr_list (l : list string) : string :=
  ("[" ++ join ", " (map repr_str l) ++ "]")%string.

(** [int(x)] for a float: truncation toward zero. *)
Definition int_of_float (x : Q) : Z := Z.quot (Qnum x) (Z.pos (Qden x)).

(** Digits of an [int(...)] literal: decimal digits, single underscores
    allowed between digits only. [after_digit] tells whether the previous
    character was a digit. *)
Fixpoint int_digits (after_digit : bool) (acc : Z) (s : string) : option Z :=
  match s with
  | EmptyString => if after_digit then Some acc else None
  | String c s' =>
      if is_digit c then
        int_digits true (10 * acc + Z.of_N (code c - 48)) s'
      else if (code c =? 95)%N && after_digit then
        int_digits false acc s'
      else None
  end.

(** The whitespace [int(s)] skips at both ends of an ASCII string: tab,
    newline, VT, FF, CR and space (not FS..US, which [str.strip] removes). *)
Definition is_int_space (c : ascii) : bool :=
  between 9 13 c || (code c =? 32)%N.

Fixpoint int_lstrip (s : string) : string :=
  match s with
  | EmptyString => EmptyString
  | String c s' => if is_int_space c then int_lstrip s' else s
  end.

Fixpoint int_rstrip (s : string) : string :=
  match s with
  | EmptyString => EmptyString
  | String c s' =>
      match int_rstrip s' with
      | EmptyString => if is_int_space c then EmptyString else String c EmptyString
      | r => String c r
      end
  end.

Fixpoint count_digits (s : string) : nat :=
  match s with
  | EmptyString => 0
  | String c s' => if is_digit c then S (count_digits s') else count_digits s'
  end.

(** [sys.int_info.default_max_str_digits] *)
Definition max_str_digits : nat := 4300.

(** [int(s)] for a string; [None] is ValueError: the text is no integer
    literal, or it has more than 4300 digits. *)
Definition int_of_str (s : string) : option Z :=
  let literal (r : string) : option Z :=
    if (max_str_digits <? count_digits r)%nat then None else int_digits false 0 r in
  match int_rstrip (int_lstrip s) with
  | String "+" r => literal r
  | String "-" r => Z.opp <$> literal r
  | t => literal t
  end.

End Py.

(** ** Binary64 floats (round to nearest, ties to even)

    A finite double is the rational it denotes. An operation of Python on
    two doubles is the exact operation followed by [round]. *)

Module Double.

Definition pow2 (k : Z) : Q := (2 ^ k)%Q.

(** floor(log2 a) for a positive [a]. *)
Definition ilog2 (a : Q) : Z :=
  let k := Z.log2 (Qnum a) - Z.log2 (Z.pos (Qden a)) in
  if Qle_bool (pow2 k) a then k else k - 1.

(** The nearest integer, a tie going to the even one. *)
Definition round_even (m : Q) : Z :=
  let f := Qfloor m in
  match (m - inject_Z f ?= 1 # 2)%Q with
  | Lt => f
  | Gt => f + 1
  | Eq => if Z.even f then f else f + 1
  end.

(** The exponent of the unit in the last place of a positive [a]: 53
    significant bits, and no unit below 2^-1074. *)
Definition ulp_exp (a : Q) : Z := Z.max (ilog2 a - 52) (-1074).

(** The multiple of the unit in the last place nearest to a positive [a]. *)
Definition nearest (a : Q) : Q :=
  (inject_Z (round_even (a / pow2 (ulp_exp a))) * pow2 (ulp_exp a))%Q.

(** The double nearest to [x]; [None] is an infinity. *)
Definition round (x : Q) : option Q :=
  match (x ?= 0)%Q with
  | Eq => Some 0%Q
  | Gt => let y := nearest x in
          if Qle_bool (pow2 1024) y then None else Some y
  | Lt => let y := nearest (- x) in
          if Qle_bool (pow2 1024) y then None else Some (- y)%Q
  end.

End Double.

(** ** Regular expressions of the shape used by the program

    Every pattern of [extract_all_awb_candidates] is a sequence of word
    boundaries, literal letters and bounded repetitions of a character
    class. Matching is Python's: greedy repetitions, backtracking, and
    (with [re.IGNORECASE]) letters matched without regard to case. *)

Module Re.

Inductive char_class :=
| Digit        (* \d *)
| Letter       (* [A-Z] *)
| LetterDigit. (* [A-Z0-9] *)

Inductive item :=
| WordB                                               (* \b *)
| Lit (c : ascii)                                     (* a literal letter *)
| Rep (cls : char_class) (lo : nat) (hi : option nat). (* cls{lo,hi}, cls{lo,} *)

Definition pattern := list item.

(** Membership of a class under IGNORECASE. *)
Definition in_class (cls : char_class) (c : ascii) : bool :=
  match cls with
  | Digit => Py.is_digit c
  | Letter => Py.is_alpha c
  | LetterDigit => Py.is_alpha c || Py.is_digit c
  end.

Definition lit_match (c d : ascii) : bool :=
  Ascii.eqb (Py.upper_char c) (Py.upper_char d).

Definition word_before (prev : option ascii) : bool :=
  match prev with Some c => Py.is_word c | None => false end.

Definition word_after (s : string) : bool :=
  match s with String c _ => Py.is_word c | EmptyString => false end.

(** [\b] holds between [prev] and the head of [s]. *)
Definition at_boundary (prev : option ascii) (s : string) : bool :=
  xorb (word_before prev) (word_after s).

Definition may_take (hi : option nat) : bool :=
  match hi with Some 0%nat => false | _ => true end.

Definition one_less (hi : option nat) : option nat :=
  match hi with Some n => Some (Nat.pred n) | None => None end.

(** Greedy repetition followed by the continuation [k]: take one more
    character when allowed and the rest then matches; otherwise stop here,
    provided the lower bound is reached. The result is the number of
    characters consumed by the whole match. *)
Fixpoint rep (cls : char_class) (lo : nat) (hi : option nat)
    (k : option ascii → string → nat → option nat)
    (prev : option ascii) (s : string) (n : nat) : option nat :=
  let stop := if (lo =? 0)%nat then k prev s n else None in
  match s with
  | String c s' =>
      if in_class cls c && may_take hi then
        match rep cls (Nat.pred lo) (one_less hi) k (Some c) s' (S n) with
        | Some r => Some r
        | None => stop
        end
      else stop
  | EmptyString => stop
  end.

(** Match [p] at the start of [s], [prev] being the character before it;
    [n] characters were consumed so far. *)
Fixpoint match_here (p : pattern) (prev : option ascii) (s : string) (n : nat)
    : option nat :=
  match p with
  | [] => Some n
  | WordB :: p' => if at_boundary prev s then match_here p' prev s n else None
  | Lit c :: p' =>
      match s with
      | String d s' => if lit_match c d then match_here p' (Some d) s' (S n) else None
      | EmptyString => None
      end
  | Rep cls lo hi :: p' => rep cls lo hi (match_here p') prev s n
  end.

(** [re.findall]: leftmost matches, non-overlapping, scanning left to
    right. [skip] counts the characters of the previous match still to be
    passed over. *)
Fixpoint findall_from (p : pattern) (prev : option ascii) (s : string) (skip : nat)
    : list string :=
  match s with
  | EmptyString =>
      match skip, match_here p prev s 0 with
      | 0%nat, Some _ => [EmptyString]
      | _, _ => []
      end
  | String c s' =>
      match skip with
      | S k => findall_from p (Some c) s' k
      | 0%nat =>
          match match_here p prev s 0 with
          | Some (S n) => String.substring 0 (S n) s :: findall_from p (Some c) s' n
          | Some 0%nat => EmptyString :: findall_from p (Some c) s' 0
          | None => findall_from p (Some c) s' 0
          end
      end
  end.

Definition findall (p : pattern) (s : string) : list string :=
  findall_from p None s 0.

Definition lits (s : string) : pattern := map Lit (list_ascii_of_string s).

End Re.

(** ** Candidate extraction (main.py, lines 22-47) *)

Definition patterns : list Re.pattern :=
  [ [Re.WordB] ++ Re.lits "SPXID" ++ [Re.Rep Re.Digit 12 (Some 15%nat); Re.WordB];
    [Re.WordB] ++ Re.lits "SPX" ++
      [Re.Rep Re.Letter 2 (Some 2%nat); Re.Rep Re.Digit 12 None; Re.WordB];
    [Re.WordB; Re.Rep Re.Digit 6 (Some 6%nat);
      Re.Rep Re.LetterDigit 6 (Some 10%nat); Re.WordB];
    [Re.WordB] ++ Re.lits "JT" ++ [Re.Rep Re.Digit 12 (Some 15%nat); Re.WordB];
    [Re.WordB] ++ Re.lits "JX" ++ [Re.Rep Re.Digit 12 (Some 15%nat); Re.WordB];
    [Re.WordB] ++ Re.lits "TKP" ++ [Re.Rep Re.Digit 10 (Some 15%nat); Re.WordB];
    [Re.WordB] ++ Re.lits "ID" ++ [Re.Rep Re.Digit 12 (Some 18%nat); Re.WordB];
    [Re.WordB] ++ Re.lits "LEX" ++ [Re.Rep Re.Digit 10 (Some 15%nat); Re.WordB];
    [Re.WordB; Re.Rep Re.Letter 2 (Some 4%nat);
      Re.Rep Re.Digit 12 (Some 18%nat); Re.WordB] ].

(** The first loop: [candidates.extend([m.upper() for m in matches])]. *)
Definition collect_candidates (text : string) : list string :=
  foldl (λ candidates pattern,
           candidates ++ map Py.upper (Re.findall pattern text))
        [] patterns.

(** One turn of the second loop, on the state [(seen, unique)]. *)
Definition unique_step (st : gset string * list string) (c : string)
    : gset string * list string :=
  if decide (c ∈ st.1) then st else ({[c]} ∪ st.1, st.2 ++ [c]).

Definition extract_all_awb_candidates (text : string) : list string :=
  (foldl unique_step (∅, []) (collect_candidates text)).2.

(** ** Match resolution (main.py, lines 50-58)

    [known_awbs] is the known set in its iteration order. *)

Definition first_related (candidate : string) (known_awbs : list string)
    : option string :=
  List.find (λ known, Py.contains candidate known || Py.contains known candidate)
            known_awbs.

Fixpoint find_matching_awb (candidates known_awbs : list string) : option string :=
  match candidates with
  | [] => None
  | candidate :: rest =>
      if decide (candidate ∈ known_awbs) then Some candidate
      else match first_related candidate known_awbs with
           | Some known => Some known
           | None => find_matching_awb rest known_awbs
           end
  end.

(** ** Exceptions and results *)

Inductive py_error :=
| ValueError (literal : string)  (* int() of a text it does not accept *)
| ValueErrorNaN                  (* int() of a float NaN *)
| TypeError                      (* int() of None *)
| KeyError (key : string)        (* row[...] of an absent column *)
| ZeroDivisionError
| OverflowError                  (* int() of a float infinity *)
| LibraryError (message : string). (* raised inside a call of a library *)

Inductive detail :=
| Message (s : string)
| StrOf (e : py_error).          (* str(e) *)

Inductive exn :=
| HTTPException (status_code : Z) (d : detail)
| Builtin (e : py_error).

Inductive result (A : Type) :=
| Ok (a : A)
| Raise (e : exn).
Arguments Ok {A} a.
Arguments Raise {A} e.

#[global] Instance result_bind : MBind result := λ A B k r,
  match r with
  | Ok a => k a
  | Raise e => Raise e
  end.

(** ** Safe-area detection (main.py, lines 61-112)

    A page's [get_text("dict")]: blocks of lines of spans, each span with
    its text and the bottom edge [bbox[3]] of its box. *)

Record span := { span_text : string; span_bottom : Q }.

Record block := { block_type : Z; block_lines : list (list span) }.

(** [max(a, b)] of Python: [b] only when it is greater. *)
Definition py_max (a b : Q) : Q := if Qle_bool b a then a else b.

Definition line_text (l : list span) : string :=
  foldl (λ t sp, (t ++ span_text sp)%string) EmptyString l.

Definition line_bottom (l : list span) : Q :=
  foldl (λ b sp, py_max b (span_bottom sp)) 0%Q l.

(** One line of the scan, on the state [(unboxing_y, catatan_y)]. *)
Definition scan_line (st : option Q * option Q) (l : list span)
    : option Q * option Q :=
  let text := Py.upper (line_text l) in
  let unboxing_y :=
    if Py.contains "TANPA VIDEO UNBOXING" text then Some (line_bottom l) else st.1 in
  let catatan_y :=
    if Py.contains "CATATAN PEMBELI" text && bool_decide (unboxing_y ≠ None)
    then Some (line_bottom l) else st.2 in
  (unboxing_y, catatan_y).

Definition scan_block (st : option Q * option Q) (b : block) : option Q * option Q :=
  if block_type b =? 0 then foldl scan_line st (block_lines b) else st.

Definition find_clear_start_position (blocks : list block) : Q :=
  match foldl scan_block (None, None) blocks with
  | (_, Some catatan_y) => (catatan_y + 5)%Q
  | (Some unboxing_y, None) => (unboxing_y + 5)%Q
  | (None, None) => 300%Q
  end.

(** ** Row capacity (main.py, lines 115-122) *)

(** [int(x)] for the float [x]; an infinity raises OverflowError. *)
Definition int_of_double (x : option Q) : result Z :=
  match x with
  | Some q => Ok (Py.int_of_float q)
  | None => Raise (Builtin OverflowError)
  end.

(** The float [x - y], [x / y]; an infinity stays one under both, the
    right operand being finite and, for the division, not zero. *)
Definition float_sub (x : option Q) (y : Q) : option Q :=
  match x with
  | Some q => Double.round (q - y)
  | None => None
  end.

Definition float_div (x : option Q) (y : Q) : option Q :=
  match x with
  | Some q => Double.round (q / y)
  | None => None
  end.

Definition calculate_available_rows
    (page_height clear_start_y row_height margin_bottom : Q) : result Z :=
  let available_height :=
    float_sub (float_sub (Some page_height) clear_start_y) margin_bottom in
  if Qeq_bool row_height 0 then Raise (Builtin ZeroDivisionError)
  else
    n ← int_of_double (float_div available_height row_height);
    let max_rows := n - 1 in
    Ok (Z.max 1 max_rows).

(** The defaults [row_height=18, margin_bottom=30]. *)
Definition default_row_height : Q := 18%Q.
Definition default_margin_bottom : Q := 30%Q.

(** ** The manifest (main.py, lines 150-191) *)

(** A cell of the data frame as a row hands it to the program. A float
    carries the text [str] gives for it. *)
Inductive cell :=
| CNaN                                (* blank cell *)
| CNone
| CInt (n : Z)
| CFloat (value : Q) (text : string)
| CStr (s : string).

Record DataFrame := { columns : list string; rows : list (list cell) }.

(** [str(x)] *)
Definition str_of_cell (x : cell) : string :=
  match x with
  | CNaN => "nan"
  | CNone => "None"
  | CInt n => Py.str_of_int n
  | CFloat _ text => text
  | CStr s => s
  end.

(** [pd.notna(x)] *)
Definition notna (x : cell) : bool :=
  match x with
  | CNaN | CNone => false
  | _ => true
  end.

(** [int(x)] *)
Definition int_of_cell (x : cell) : result Z :=
  match x with
  | CNaN => Raise (Builtin ValueErrorNaN)
  | CNone => Raise (Builtin TypeError)
  | CInt n => Ok n
  | CFloat value _ => Ok (Py.int_of_float value)
  | CStr s =>
      match Py.int_of_str s with
      | Some n => Ok n
      | None => Raise (Builtin (ValueError s))
      end
  end.

Definition col_mapping : list (string * list string) :=
  [ ("AWB/No. Tracking",
     ["AWB/No. Tracking"; "AWB"; "No. Tracking"; "Tracking Number"; "Resi"; "No Resi"]);
    ("MSKU", ["MSKU"; "SKU"; "Nama SKU"; "Product SKU"; "Master SKU"]);
    ("Jumlah", ["Jumlah"; "Qty"; "Quantity"; "QTY"]) ].

Definition required_cols : list string := ["AWB/No. Tracking"; "MSKU"; "Jumlah"].

(** [df.rename(columns={alt: target_col})] on the column labels. *)
Definition rename (alt target_col : string) (cols : list string) : list string :=
  map (λ c, if decide (c = alt) then target_col else c) cols.

(** The body of the loop over [col_mapping.items()]. *)
Definition resolve_column (cols : list string) (entry : string * list string)
    : list string :=
  let (target_col, alternatives) := entry in
  if decide (target_col ∈ cols) then cols
  else match List.find (λ alt, bool_decide (alt ∈ cols)) alternatives with
       | Some alt => rename alt target_col cols
       | None => cols
       end.

Definition normalize_columns (cols : list string) : list string :=
  foldl resolve_column cols col_mapping.

Definition missing_columns (cols : list string) : list string :=
  List.filter (λ col, bool_decide (col ∉ cols)) required_cols.

Fixpoint column_index (name : string) (cols : list string) : option nat :=
  match cols with
  | [] => None
  | c :: cols' => if decide (c = name) then Some 0%nat else S <$> column_index name cols'
  end.

(** [row[name]], the labels being distinct as [read_excel] delivers them. *)
Definition row_get (cols : list string) (row : list cell) (name : string)
    : result cell :=
  match column_index name cols with
  | Some i => Ok (nth i row CNaN)
  | None => Raise (Builtin (KeyError name))
  end.

Record item := { msku : string; jumlah : Z }.

Definition null_sentinels : list string := ["NAN"; "NONE"; "NULL"; ""].

(** The state of the row loop: [(awb_to_items, all_awbs)]. *)
Abbreviation index_state := (gmap string (list item) * gset string)%type.

(** [str(row['AWB/No. Tracking']).strip().upper()] *)
Definition row_awb (cols : list string) (row : list cell) : result string :=
  tracking ← row_get cols row "AWB/No. Tracking";
  Ok (Py.upper (Py.strip (str_of_cell tracking))).

(** [awb and awb not in ['NAN', 'NONE', 'NULL', '']] *)
Definition kept (awb : string) : bool :=
  bool_decide (awb ≠ EmptyString) && bool_decide (awb ∉ null_sentinels).

(** The dict appended for a row. *)
Definition row_entry (cols : list string) (row : list cell) : result item :=
  sku ← row_get cols row "MSKU";
  quantity ← row_get cols row "Jumlah";
  n ← (if notna quantity then int_of_cell quantity else Ok 1);
  Ok {| msku := str_of_cell sku; jumlah := n |}.

(** The body of [for _, row in df.iterrows()]. *)
Definition index_row (cols : list string) (st : index_state) (row : list cell)
    : result index_state :=
  awb ← row_awb cols row;
  if kept awb then
    let all_awbs := {[awb]} ∪ st.2 in
    let awb_to_items :=
      match st.1 !! awb with
      | None => <[awb := []]> st.1
      | Some _ => st.1
      end in
    entry ← row_entry cols row;
    Ok (<[awb := default [] (awb_to_items !! awb) ++ [entry]]> awb_to_items, all_awbs)
  else Ok st.

Definition index_rows (cols : list string) (rows : list (list cell))
    : result index_state :=
  foldl (λ acc row, st ← acc; index_row cols st row) (Ok (∅, ∅)) rows.

(** [list.sort(key=lambda x: x['msku'])]: a stable sort on the SKU text,
    compared as Python compares strings. Insertion of [x] before the first
    element with a key not below its own keeps equal keys in their
    original order, as every stable sort does. *)
Fixpoint insert_by_msku (x : item) (l : list item) : list item :=
  match l with
  | [] => [x]
  | y :: l' =>
      if String.leb (msku x) (msku y) then x :: y :: l'
      else y :: insert_by_msku x l'
  end.

Definition sort_by_msku (l : list item) : list item :=
  foldr insert_by_msku [] l.

(** Lines 176-191: the index with every item list sorted, and the known set. *)
Definition build_index (cols : list string) (rows : list (list cell))
    : result index_state :=
  st ← index_rows cols rows;
  Ok (sort_by_msku <$> (st.1 : gmap string (list item)), (st.2 : gset string)).

(** ** Chunking (main.py, lines 249-257) *)

Definition limit_extra : nat := 25.

(** [l[:n]] and [l[n:]] for an int [n] (a negative [n] counts from the end). *)
Definition slice_to {A} (l : list A) (n : Z) : list A :=
  if 0 <=? n then take (Z.to_nat n) l
  else take (length l - Z.to_nat (- n)) l.

Definition slice_from {A} (l : list A) (n : Z) : list A :=
  if 0 <=? n then drop (Z.to_nat n) l
  else drop (length l - Z.to_nat (- n)) l.

(** [range(0, n, step)] *)
Definition range_step (n step : nat) : list nat :=
  map (λ k, (k * step)%nat) (seq 0 ((n + step - 1) / step)).

Definition paginate {A} (items : list A) (available_rows : Z) : list (list A) :=
  if Z.of_nat (length items) <=? available_rows then [items]
  else
    let remaining := slice_from items available_rows in
    slice_to items available_rows ::
      map (λ i, take limit_extra (drop i remaining))
          (range_step (length remaining) limit_extra).

(** ** Scanning and composing pages (main.py, lines 195-312) *)

(** What the program reads from a page of an uploaded PDF. *)
Record pdf_page := {
  page_text : string;          (* page.get_text() *)
  page_blocks : list block;    (* page.get_text("dict")["blocks"] *)
  rect_width : Q;
  rect_height : Q
}.

Record page_info := {
  page_num : nat;
  doc : nat;                   (* the upload the page belongs to *)
  width : Q;
  height : Q;
  awb : option string;
  clear_start_y : Q
}.

(** A page of [master_doc], with what was drawn on it. *)
Inductive out_page :=
| Copied (doc page_num : nat)
| Overlay (doc page_num : nat) (rect_clear : Q * Q * Q * Q)
    (table_data : list (list string)) (table_x table_y : Q)
| Continuation (pagesize : Q * Q) (title : string) (title_x title_y : Q)
    (table_data : list (list string)) (table_x table_y : Q).

Definition scan_page (known_awbs : list string) (doc_id num : nat) (page : pdf_page)
    : page_info :=
  let candidates := extract_all_awb_candidates (page_text page) in
  {| page_num := num;
     doc := doc_id;
     width := rect_width page;
     height := rect_height page;
     awb := find_matching_awb candidates known_awbs;
     clear_start_y := find_clear_start_position (page_blocks page) |}.

Definition scan_pages (known_awbs : list string) (pdf_files : list (list pdf_page))
    : list page_info :=
  concat (imap (λ doc_id pages, imap (scan_page known_awbs doc_id) pages) pdf_files).

(** [create_table] (main.py, lines 125-141): the geometry of
    [Table(data, colWidths=[220, 50], rowHeights=18)] with its grid of
    lines 0.5 wide. *)
Definition col_widths : list Q := [220; 50]%Q.
Definition row_heights : Q := 18%Q.
Definition grid_line : Q := (1 # 2)%Q.

Definition table_width : Q := foldr Qplus 0%Q col_widths.

Definition table_height (data : list (list string)) : Q :=
  (inject_Z (Z.of_nat (length data)) * row_heights)%Q.

Definition table_rows (chunk : list item) : list (list string) :=
  ["MSKU"; "Qty"] :: map (λ it, [msku it; Py.str_of_int (jumlah it)]) chunk.

Definition row_count (chunk : list item) : Q :=
  inject_Z (Z.of_nat (length chunk) + 1).

(** The body of [for i, chunk in enumerate(chunks)]. *)
Definition render_chunk (info : page_info) (page_awb : string)
    (i : nat) (chunk : list item) : out_page :=
  let W_pts := width info in
  let H_pts := height info in
  match i with
  | 0%nat =>
      let table_y := (H_pts - clear_start_y info - row_count chunk * 18 - 10)%Q in
      Overlay (doc info) (page_num info) (0%Q, clear_start_y info, W_pts, H_pts)
        (table_rows chunk) 7%Q (py_max 10%Q table_y)
  | S _ =>
      let t_height := (row_count chunk * 18)%Q in
      Continuation (W_pts, H_pts) ("Lanjutan AWB: " ++ page_awb)%string
        10%Q (H_pts - 25)%Q (table_rows chunk) 7%Q (H_pts - t_height - 45)%Q
  end.

(** [not page_awb or page_awb not in awb_to_items] *)
Definition passthrough (awb_to_items : gmap string (list item)) (page_awb : option string)
    : bool :=
  match page_awb with
  | None => true
  | Some a => bool_decide (a = EmptyString) || bool_decide (awb_to_items !! a = None)
  end.

(** The pages one scanned page adds to [master_doc]. *)
Definition render_page (awb_to_items : gmap string (list item)) (info : page_info)
    : result (list out_page) :=
  match awb info with
  | Some page_awb =>
      if passthrough awb_to_items (awb info) then Ok [Copied (doc info) (page_num info)]
      else
        let items := default [] (awb_to_items !! page_awb) in
        available_rows ← calculate_available_rows (height info) (clear_start_y info)
                           default_row_height default_margin_bottom;
        Ok (imap (render_chunk info page_awb) (paginate items available_rows))
  | None => Ok [Copied (doc info) (page_num info)]
  end.

(** What the libraries do with a request is not in the program's hands:
    every call may raise. [new_document] is [fitz.open()] for [master_doc]
    (line 222); [draw_error] tells, for a page about to be added, the
    exception raised by the calls that copy or draw it and insert it
    (lines 235-238 and 263-312); [save_error] the exception raised when the
    document is saved and streamed (lines 319-329). *)
Record library := {
  new_document : option py_error;
  draw_error : out_page → option py_error;
  save_error : list out_page → option py_error
}.

Definition check (failure : option py_error) : result unit :=
  match failure with
  | Some e => Raise (Builtin e)
  | None => Ok ()
  end.

(** The pages of one scanned page are drawn and inserted one after the
    other. *)
Fixpoint draw_all (lib : library) (pages : list out_page) : result unit :=
  match pages with
  | [] => Ok ()
  | p :: rest => _ ← check (draw_error lib p); draw_all lib rest
  end.

(** The body of [for page_info in all_pages]. *)
Definition add_page (lib : library) (awb_to_items : gmap string (list item))
    (acc : result (list out_page)) (info : page_info) : result (list out_page) :=
  master_doc ← acc;
  pages ← render_page awb_to_items info;
  _ ← draw_all lib pages;
  Ok (master_doc ++ pages).

Definition compose (lib : library) (awb_to_items : gmap string (list item))
    (all_pages : list page_info) : result (list out_page) :=
  foldl (add_page lib awb_to_items) (Ok []) all_pages.

(** ** The request handler (main.py, lines 144-335) *)

(** An uploaded file as the library reads it: [pd.read_excel] on the
    spreadsheet (line 152); [fitz.open] and the reading of the pages on a
    PDF (lines 198-219). *)
Inductive upload (A : Type) :=
| Parsed (a : A)
| Failed (e : py_error).
Arguments Parsed {A} a.
Arguments Failed {A} e.

Definition read {A} (file : upload A) : result A :=
  match file with
  | Parsed a => Ok a
  | Failed e => Raise (Builtin e)
  end.

(** The PDFs are opened in upload order. *)
Fixpoint open_all (pdf_files : list (upload (list pdf_page)))
    : result (list (list pdf_page)) :=
  match pdf_files with
  | [] => Ok []
  | pdf :: rest =>
      pages ← read pdf;
      docs ← open_all rest;
      Ok (pages :: docs)
  end.

(** The body of the [try]. *)
Definition process_labels_body (set_iter : gset string → list string)
    (lib : library) (excel_file : upload DataFrame)
    (pdf_files : list (upload (list pdf_page))) : result (list out_page) :=
  df ← read excel_file;
  let cols := normalize_columns (columns df) in
  let missing := missing_columns cols in
  if negb (bool_decide (missing = [])) then
    Raise (HTTPException 400
             (Message ("Kolom tidak ditemukan: " ++ Py.repr_list missing)%string))
  else
    st ← build_index cols (rows df);
    docs ← open_all pdf_files;
    let all_pages := scan_pages (set_iter st.2) docs in
    _ ← check (new_document lib);
    master_doc ← compose lib st.1 all_pages;
    if (length master_doc =? 0)%nat then
      Raise (HTTPException 404 (Message "Tidak ada halaman yang diproses."))
    else
      _ ← check (save_error lib master_doc);
      Ok master_doc.

(** The handlers: an [HTTPException] passes, anything else becomes a 500.
    [Ok] is the streamed PDF. *)
Definition process_labels (set_iter : gset string → list string)
    (lib : library) (excel_file : upload DataFrame)
    (pdf_files : list (upload (list pdf_page))) : result (list out_page) :=
  match process_labels_body set_iter lib excel_file pdf_files with
  | Ok master_doc => Ok master_doc
  | Raise (HTTPException status_code d) => Raise (HTTPException status_code d)
  | Raise (Builtin e) => Raise (HTTPException 500 (StrOf e))
  end.

(** ** Definitions used to state the properties *)

(** The matcher as the specification words it: a first pass for exact
    membership over all candidates, and only then a second pass for the
    substring relation. *)
Definition find_matching_awb_two_pass (candidates known_awbs : list string)
    : option string :=
  match List.find (λ c, bool_decide (c ∈ known_awbs)) candidates with
  | Some c => Some c
  | None =>
      List.find (λ known, true)
        (omap (λ c, first_related c known_awbs) candidates)
  end.

(** The elements of [l] that are not in [seen], each at its first
    occurrence only. *)
Fixpoint first_seen (seen : gset string) (l : list string) : list string :=
  match l with
  | [] => []
  | c :: l' =>
      if decide (c ∈ seen) then first_seen seen l'
      else c :: first_seen ({[c]} ∪ seen) l'
  end.

(** [c] has the substring relation with no known number. *)
Definition unrelated (known_awbs : list string) (c : string) : Prop :=
  ∀ known, known ∈ known_awbs →
    Py.contains c known = false ∧ Py.contains known c = false.

(** The items the rows with tracking number [k] contribute, in row order. *)
Definition entries_for (cols : list string) (k : string) (rows : list (list cell))
    : list item :=
  flat_map (λ row,
              match row_awb cols row, row_entry cols row with
              | Ok a, Ok e => if decide (a = k) then [e] else []
              | _, _ => []
              end) rows.

Definition msku_le (a b : item) : Prop := String.leb (msku a) (msku b) = true.

(** What the row loop has built once it has passed over [rows]. *)
Record index_of (cols : list string) (rows : list (list cell)) (st : index_state)
    : Prop := {
  index_known : ∀ k, k ∈ st.2 ↔
    ∃ row, row ∈ rows ∧ row_awb cols row = Ok k ∧ kept k = true;
  index_dom : ∀ k, is_Some (st.1 !! k) ↔ k ∈ st.2;
  index_items : ∀ k l, st.1 !! k = Some l → l = entries_for cols k rows;
  index_rows_read : ∀ row, row ∈ rows →
    ∃ a, row_awb cols row = Ok a ∧ (kept a = true → ∃ e, row_entry cols row = Ok e)
}.

(** The pages a scanned page contributes. *)
Definition pages_of (awb_to_items : gmap string (list item)) (info : page_info)
    : list out_page :=
  match render_page awb_to_items info with
  | Ok pages => pages
  | Raise _ => []
  end.

(** The scanned page is laid out and its pages are drawn. *)
Definition page_added (lib : library) (awb_to_items : gmap string (list item))
    (info : page_info) : Prop :=
  ∃ pages, render_page awb_to_items info = Ok pages ∧ draw_all lib pages = Ok ().

(** The first step of a request that raises, with its exception: reading
    the spreadsheet, the row loop, opening a PDF, creating the output
    document, laying out and drawing a page, or saving. The steps before
    it have returned. *)
Inductive fails_with (set_iter : gset string → list string) (lib : library)
    (excel_file : upload DataFrame) (pdf_files : list (upload (list pdf_page)))
    : py_error → Prop :=
| excel_fails b :
    excel_file = Failed b →
    fails_with set_iter lib excel_file pdf_files b
| rows_fail df b :
    excel_file = Parsed df →
    missing_columns (normalize_columns (columns df)) = [] →
    build_index (normalize_columns (columns df)) (rows df) = Raise (Builtin b) →
    fails_with set_iter lib excel_file pdf_files b
| pdf_fails df st b :
    excel_file = Parsed df →
    missing_columns (normalize_columns (columns df)) = [] →
    build_index (normalize_columns (columns df)) (rows df) = Ok st →
    open_all pdf_files = Raise (Builtin b) →
    fails_with set_iter lib excel_file pdf_files b
| new_document_fails df st docs b :
    excel_file = Parsed df →
    missing_columns (normalize_columns (columns df)) = [] →
    build_index (normalize_columns (columns df)) (rows df) = Ok st →
    open_all pdf_files = Ok docs →
    new_document lib = Some b →
    fails_with set_iter lib excel_file pdf_files b
| page_fails df st docs b :
    excel_file = Parsed df →
    missing_columns (normalize_columns (columns df)) = [] →
    build_index (normalize_columns (columns df)) (rows df) = Ok st →
    open_all pdf_files = Ok docs →
    new_document lib = None →
    compose lib st.1 (scan_pages (set_iter st.2) docs) = Raise (Builtin b) →
    fails_with set_iter lib excel_file pdf_files b
| save_fails df st docs master_doc b :
    excel_file = Parsed df →
    missing_columns (normalize_columns (columns df)) = [] →
    build_index (normalize_columns (columns df)) (rows df) = Ok st →
    open_all pdf_files = Ok docs →
    new_document lib = None →
    compose lib st.1 (scan_pages (set_iter st.2) docs) = Ok master_doc →
    master_doc ≠ [] →
    save_error lib master_doc = Some b →
    fails_with set_iter lib excel_file pdf_files b.

(** A listing of a set: its members and nothing else. *)
Definition lists_members (set_iter : gset string → list string) : Prop :=
  ∀ (X : gset string) (x : string), x ∈ set_iter X ↔ x ∈ X.

(** The row capacity as the specification words it, in exact arithmetic. *)
Definition available_rows_exact (page_height clear_start_y : Q) : Z :=
  Z.max 1 (Qfloor ((page_height - clear_start_y - 30) / 18) - 1).

(** A coordinate far inside the range of the doubles. *)
Definition in_range (x : Q) : Prop := (Qabs x <= Double.pow2 1021)%Q.

(** A coordinate of a page: at most 2^20 points. *)
Definition page_sized (x : Q) : Prop := (Qabs x <= Double.pow2 20)%Q.

(** The table painted with its lower left corner at [(x, y)], half a grid
    line around it included, lies in the rectangle [rect] of a page
    [page_height] high. The canvas measures [y] upwards from the bottom of
    the page, the rectangle downwards from its top. *)
Definition table_inside (page_height : Q) (rect : Q * Q * Q * Q)
    (data : list (list string)) (x y : Q) : Prop :=
  let '(x0, y0, x1, y1) := rect in
  (x0 <= x - grid_line / 2)%Q ∧
  (x + table_width + grid_line / 2 <= x1)%Q ∧
  (y0 <= page_height - (y + table_height data + grid_line / 2))%Q ∧
  (page_height - (y - grid_line / 2) <= y1)%Q.

(** A coordinate with at most [s] binary places and a numerator of
    magnitude at most 2^45. *)
Definition on_grid (s : Z) (x : Q) : Prop :=
  ∃ m : Z, Z.abs m ≤ 2 ^ 45 ∧ (x == inject_Z m * Double.pow2 (- s))%Q.

(** ** Example data: the scenario of a label with two items *)

Definition example_df : DataFrame :=
  {| columns := ["AWB"; "SKU"; "Qty"];
     rows := [ [CStr "SPXID123456789012"; CStr "SKU-B"; CInt 1];
               [CStr " spxid123456789012"; CStr "SKU-A"; CFloat 2 "2.0"];
               [CNaN; CStr "SKU-X"; CInt 4] ] |}.

Definition example_items : list item :=
  [ {| msku := "SKU-A"; jumlah := 2 |}; {| msku := "SKU-B"; jumlah := 1 |} ].

Definition example_label : pdf_page :=
  {| page_text := "No. Resi: SPXID123456789012";
     page_blocks :=
       [ {| block_type := 0;
            block_lines :=
              [ [ {| span_text := "Tanpa video unboxing, ";
                     span_bottom := 113 |};
                  {| span_text := "komplain tidak diterima";
                     span_bottom := 115 |} ] ] |} ];
     rect_width := 595;
     rect_height := 842 |}.

Definition example_plain : pdf_page :=
  {| page_text := "Invoice 0042";
     page_blocks := [];
     rect_width := 595;
     rect_height := 842 |}.

(** Libraries that raise nothing. *)
Definition no_faults : library :=
  {| new_document := None; draw_error := λ _, None; save_error := λ _, None |}.

(** ** Definitions used to state further properties *)

(** The lines of the text blocks, in scan order. *)
Definition text_lines (blocks : list block) : list (list span) :=
  flat_map (λ b, if block_type b =? 0 then block_lines b else []) blocks.

Definition is_disclaimer (l : list span) : bool :=
  Py.contains "TANPA VIDEO UNBOXING" (Py.upper (line_text l)).

Definition is_note (l : list span) : bool :=
  Py.contains "CATATAN PEMBELI" (Py.upper (line_text l)).

(** Every character of [s] satisfies [P]. *)
Fixpoint all_chars (P : ascii → bool) (s : string) : bool :=
  match s with
  | EmptyString => true
  | String c s' => P c && all_chars P s'
  end.

Definition is_alnum (c : ascii) : bool := Py.is_alpha c || Py.is_digit c.

Definition is_upper_alnum (c : ascii) : bool := Py.is_upper c || Py.is_digit c.

(** The least number of characters a match of the pattern consumes. *)
Definition min_len (p : Re.pattern) : nat :=
  foldr (λ it n,
           match it with
           | Re.WordB => n
           | Re.Lit _ => S n
           | Re.Rep _ lo _ => (lo + n)%nat
           end) 0%nat p.

(** The literals of the pattern are letters. *)
Definition lits_alpha (p : Re.pattern) : bool :=
  forallb (λ it, match it with Re.Lit c => Py.is_alpha c | _ => true end) p.

(** A match takes [j] characters of [s], all letters or digits, and at
    least [least] of them. *)
Definition takes (least : nat) (s : string) (n m : nat) : Prop :=
  ∃ j, m = (n + j)%nat ∧ (least ≤ j)%nat ∧ (j ≤ String.length s)%nat ∧
       all_chars is_alnum (String.substring 0 j s) = true.

(** A match in [s]: long enough, of letters and digits, and a part of [s]. *)
Definition match_in (least : nat) (s x : string) : Prop :=
  (least ≤ String.length x)%nat ∧ all_chars is_alnum x = true ∧
  Py.contains x s = true.

Definition is_continuation (p : out_page) : bool :=
  match p with
  | Continuation _ _ _ _ _ _ _ => true
  | _ => false
  end.

(** The pages of the uploads, each by its upload and its page number, in
    upload and page order. *)
Definition page_ids (pdf_files : list (list pdf_page)) : list (nat * nat) :=
  concat (imap (λ d pages, imap (λ n _, (d, n)) pages) pdf_files).

(** The pages one scanned page gives: a copy, or an overlay followed by
    continuation pages only. *)
Definition page_group (id : nat * nat) (group : list out_page) : Prop :=
  group = [Copied id.1 id.2] ∨
  ∃ rect table_data x y rest,
    group = Overlay id.1 id.2 rect table_data x y :: rest ∧
    Forall (λ p, is_continuation p = true) rest.



(** The row takes part in the index, or fails the load. *)
Definition row_counts (cols : list string) (row : list cell) : bool :=
  match row_awb cols row with
  | Ok a => kept a
  | Raise _ => true
  end.

(** * Properties *)

(** Closed decidable goals, by evaluation. *)
Ltac by_eval := apply (bool_decide_eq_true_1 _); vm_compute; reflexivity.

(** ** Text *)

Lemma upper_char_idemp (c : ascii) : Py.upper_char (Py.upper_char c) = Py.upper_char c.
Proof. destruct c as [[] [] [] [] [] [] [] []]; reflexivity. Qed.

Lemma upper_idemp (s : string) : Py.upper (Py.upper s) = Py.upper s.
Proof.
  induction s as [|c s IH]; simpl; [reflexivity|].
  by rewrite upper_char_idemp, IH.
Qed.

Lemma prefix_refl (s : string) : String.prefix s s = true.
Proof.
  induction s as [|c s IH]; simpl; [reflexivity|].
  destruct (ascii_dec c c); [exact IH | congruence].
Qed.

Lemma contains_refl (s : string) : Py.contains s s = true.
Proof.
  destruct s as [|c s]; [reflexivity|].
  cbn [Py.contains]. by rewrite prefix_refl.
Qed.


(** ** Match resolution *)

Lemma first_related_in (c : string) (known_awbs : list string) (k : string) :
  first_related c known_awbs = Some k → k ∈ known_awbs.
Proof.
  unfold first_related. intros H. apply find_some in H as [H _].
  by apply list_elem_of_In.
Qed.

Lemma first_related_unrelated (c : string) (known_awbs : list string) :
  unrelated known_awbs c → first_related c known_awbs = None.
Proof.
  intros H. unfold first_related.
  destruct (List.find _ known_awbs) as [k|] eqn:E; [|reflexivity].
  apply find_some in E as [Hin Hrel].
  apply list_elem_of_In, H in Hin as [H1 H2].
  rewrite H1, H2 in Hrel. discriminate.
Qed.

Lemma unrelated_not_known (c : string) (known_awbs : list string) :
  unrelated known_awbs c → c ∉ known_awbs.
Proof.
  intros H Hin. apply H in Hin as [Hc _].
  rewrite contains_refl in Hc. discriminate.
Qed.

Lemma find_matching_awb_skip (pre rest known_awbs : list string) :
  Forall (unrelated known_awbs) pre →
  find_matching_awb (pre ++ rest) known_awbs = find_matching_awb rest known_awbs.
Proof.
  induction 1 as [|c pre Hc _ IH]; [reflexivity|].
  cbn [app find_matching_awb].
  rewrite decide_False by by apply unrelated_not_known.
  by rewrite first_related_unrelated.
Qed.

Lemma find_matching_awb_in_known (candidates known_awbs : list string) (r : string) :
  find_matching_awb candidates known_awbs = Some r → r ∈ known_awbs.
Proof.
  induction candidates as [|c rest IH]; cbn [find_matching_awb]; [discriminate|].
  destruct (decide (c ∈ known_awbs)) as [Hin|_].
  - intros [= <-]. exact Hin.
  - destruct (first_related c known_awbs) as [k|] eqn:E.
    + intros [= <-]. by eapply first_related_in.
    + exact IH.
Qed.

(** C1, as the code has it. The candidates are tried one after the other,
    each first for exact membership and then for the substring relation with
    every known number: when no candidate before [c] has the substring
    relation with a known number, an exact member [c] is returned, and
    otherwise the first known number related to [c]. *)
Theorem find_matching_awb_per_candidate
    (pre post known_awbs : list string) (c : string)
    (Hpre : Forall (unrelated known_awbs) pre) :
  (c ∈ known_awbs → find_matching_awb (pre ++ c :: post) known_awbs = Some c) ∧
  (c ∉ known_awbs → ∀ known, first_related c known_awbs = Some known →
     find_matching_awb (pre ++ c :: post) known_awbs = Some known).
Proof.
  rewrite find_matching_awb_skip by done. cbn [find_matching_awb]. split.
  - intros Hin. by rewrite decide_True.
  - intros Hnin known Hk. rewrite decide_False by done. by rewrite Hk.
Qed.

Lemma find_matching_awb_per_candidate_witness :
  Forall (unrelated ["JT1234567890123"; "SPXID123456789012"]) ["LEX0000000000"] ∧
  find_matching_awb ["LEX0000000000"; "SPXID123456789012"; "JT123456789012"]
    ["JT1234567890123"; "SPXID123456789012"] = Some "SPXID123456789012".
Proof.
  assert (H : Forall (unrelated ["JT1234567890123"; "SPXID123456789012"])
                ["LEX0000000000"]).
  { apply Forall_cons_2; [|apply Forall_nil_2].
    intros k Hk. repeat (apply elem_of_cons in Hk as [->|Hk]);
      [split; reflexivity .. | by apply elem_of_nil in Hk]. }
  split; [exact H|].
  apply (proj1 (find_matching_awb_per_candidate
                  ["LEX0000000000"] ["JT123456789012"] _ "SPXID123456789012" H)).
  by_eval.
Defined.

(** C1, as stated, fails: an exact member later in the list does not keep
    an earlier candidate from matching through the substring relation, in
    either iteration order of the known set. *)
Lemma find_matching_awb_not_two_pass :
  let candidates := ["JT123456789012"; "SPXID123456789012"] in
  let known_awbs := ["JT1234567890123"; "SPXID123456789012"] in
  "SPXID123456789012" ∈ candidates ∧ "SPXID123456789012" ∈ known_awbs ∧
  find_matching_awb candidates known_awbs = Some "JT1234567890123" ∧
  find_matching_awb candidates (reverse known_awbs) = Some "JT1234567890123" ∧
  ("JT1234567890123" ∉ candidates) ∧
  find_matching_awb_two_pass candidates known_awbs = Some "SPXID123456789012".
Proof.
  cbv zeta.
  split_and!; [by_eval | by_eval | reflexivity | reflexivity | by_eval | reflexivity].
Qed.

(** ** Rounding to the nearest double *)

Module DoubleFacts.
Import Double.

Lemma pow2_pos k : (0 < pow2 k)%Q.
Proof. apply Qpower_0_lt. reflexivity. Qed.

Lemma pow2_add a b : (pow2 (a + b) == pow2 a * pow2 b)%Q.
Proof. apply Qpower_plus. discriminate. Qed.

Lemma pow2_le a b : a <= b -> (pow2 a <= pow2 b)%Q.
Proof. intros H. apply Qpower_le_compat_l; [exact H | discriminate]. Qed.

Lemma pow2_lt_inv a b : (pow2 a < pow2 b)%Q -> a < b.
Proof. intros H. apply (Qpower_lt_compat_l_inv 2); [exact H | reflexivity]. Qed.

Lemma pow2_Z n : 0 <= n -> (pow2 n == inject_Z (2 ^ n))%Q.
Proof. intros H. unfold pow2. rewrite Zpower_Qpower by exact H. reflexivity. Qed.

Lemma pow2_div a b : (pow2 a / pow2 b == pow2 (a - b))%Q.
Proof.
  assert (Hb := pow2_pos b).
  replace a with ((a - b) + b) at 1 by lia.
  rewrite pow2_add. field. intros E. rewrite E in Hb. inversion Hb.
Qed.

Lemma ilog2_spec a : (0 < a)%Q ->
  (pow2 (ilog2 a) <= a)%Q /\ (a < pow2 (ilog2 a + 1))%Q.
Proof.
  intros Ha. destruct a as [n d]. unfold ilog2. cbn [Qnum Qden].
  assert (Hn : 0 < n).
  { unfold Qlt in Ha. cbn in Ha. lia. }
  set (ln := Z.log2 n). set (ld := Z.log2 (Z.pos d)).
  assert (Hln : 2 ^ ln <= n < 2 ^ (ln + 1)).
  { replace (ln + 1) with (Z.succ ln) by lia. apply Z.log2_spec. exact Hn. }
  assert (Hld : 2 ^ ld <= Z.pos d < 2 ^ (ld + 1)).
  { replace (ld + 1) with (Z.succ ld) by lia. apply Z.log2_spec. lia. }
  assert (H0n : 0 <= ln) by apply Z.log2_nonneg.
  assert (H0d : 0 <= ld) by apply Z.log2_nonneg.
  assert (Hup : (n # d < pow2 (ln - ld + 1))%Q).
  { replace (ln - ld + 1) with ((ln + 1) - ld) by lia.
    rewrite <- pow2_div, !pow2_Z by lia.
    apply Qlt_shift_div_l.
    - replace 0%Q with (inject_Z 0) by reflexivity. rewrite <- Zlt_Qlt. lia.
    - unfold Qlt, Qmult, inject_Z. cbn [Qnum Qden].
      rewrite Pos.mul_1_r, Z.mul_1_r. nia. }
  assert (Hlo : (pow2 (ln - ld - 1) <= n # d)%Q).
  { replace (ln - ld - 1) with (ln - (ld + 1)) by lia.
    rewrite <- pow2_div, !pow2_Z by lia.
    apply Qle_shift_div_r.
    - replace 0%Q with (inject_Z 0) by reflexivity. rewrite <- Zlt_Qlt. lia.
    - unfold Qle, Qmult, inject_Z. cbn [Qnum Qden].
      rewrite Pos.mul_1_r, Z.mul_1_r. nia. }
  destruct (Qle_bool (pow2 (ln - ld)) (n # d)) eqn:E.
  - apply Qle_bool_iff in E. split; assumption.
  - split; [exact Hlo |].
    replace (ln - ld - 1 + 1) with (ln - ld) by lia.
    apply Qnot_le_lt. intros H. apply Qle_bool_iff in H. congruence.
Qed.

Lemma ilog2_mono a b : (0 < a)%Q -> (a <= b)%Q -> ilog2 a <= ilog2 b.
Proof.
  intros Ha Hab.
  assert (Hb : (0 < b)%Q) by (eapply Qlt_le_trans; eassumption).
  destruct (ilog2_spec a Ha) as [H1 _]. destruct (ilog2_spec b Hb) as [_ H2].
  assert (H : (pow2 (ilog2 a) < pow2 (ilog2 b + 1))%Q).
  { eapply Qle_lt_trans; [exact H1 |]. eapply Qle_lt_trans; eassumption. }
  apply pow2_lt_inv in H. lia.
Qed.

Lemma ilog2_below a k : (0 < a)%Q -> (a < pow2 k)%Q -> ilog2 a < k.
Proof.
  intros Ha H. destruct (ilog2_spec a Ha) as [H1 _].
  apply pow2_lt_inv. eapply Qle_lt_trans; eassumption.
Qed.

#[global] Instance round_even_proper : Proper (Qeq ==> eq) round_even.
Proof.
  intros p q H. unfold round_even.
  rewrite (Qfloor_comp p q H).
  assert (E : (p - inject_Z (Qfloor q) == q - inject_Z (Qfloor q))%Q) by lra.
  by rewrite (Qcompare_comp _ _ E (1 # 2)%Q (1 # 2)%Q (Qeq_refl _)).
Qed.

Lemma round_even_Z (n : Z) : round_even (inject_Z n) = n.
Proof.
  unfold round_even. rewrite Qfloor_Z.
  destruct (Qcompare_spec (inject_Z n - inject_Z n) (1 # 2)) as [H|H|H];
    [exfalso; lra | reflexivity | exfalso; lra].
Qed.

Lemma round_even_mono (p q : Q) : (p <= q)%Q -> round_even p <= round_even q.
Proof.
  intros Hpq. unfold round_even.
  pose proof (Qfloor_resp_le _ _ Hpq) as Hf.
  pose proof (Qfloor_le p) as Hp1. pose proof (Qlt_floor p) as Hp2.
  pose proof (Qfloor_le q) as Hq1. pose proof (Qlt_floor q) as Hq2.
  destruct (Z.eq_dec (Qfloor p) (Qfloor q)) as [E|E].
  - rewrite <- E in *.
    destruct (Qcompare_spec (p - inject_Z (Qfloor p)) (1 # 2)) as [H|H|H];
      destruct (Qcompare_spec (q - inject_Z (Qfloor p)) (1 # 2)) as [H'|H'|H'];
      try destruct (Z.even (Qfloor p)); try lia; exfalso; lra.
  - destruct (Qcompare_spec (p - inject_Z (Qfloor p)) (1 # 2)) as [H|H|H];
      destruct (Qcompare_spec (q - inject_Z (Qfloor q)) (1 # 2)) as [H'|H'|H'];
      try destruct (Z.even (Qfloor p)); try destruct (Z.even (Qfloor q)); lia.
Qed.

Lemma ulp_exp_le a : ilog2 a - 52 <= ulp_exp a.
Proof. unfold ulp_exp. lia. Qed.

Lemma ulp_exp_min a : -1074 <= ulp_exp a.
Proof. unfold ulp_exp. lia. Qed.

Lemma ulp_exp_mono a b : (0 < a)%Q -> (a <= b)%Q -> ulp_exp a <= ulp_exp b.
Proof. intros Ha Hab. pose proof (ilog2_mono a b Ha Hab). unfold ulp_exp. lia. Qed.

(** Scaling by the unit in the last place. *)
Lemma scaled_le (a b : Q) (u : Z) : (a <= b)%Q -> (a / pow2 u <= b / pow2 u)%Q.
Proof.
  intros H. unfold Qdiv. apply Qmult_le_compat_r; [exact H|].
  apply Qinv_le_0_compat, Qlt_le_weak, pow2_pos.
Qed.

(** A multiple of [2^k] with at most 53 significant bits is its own
    nearest double. *)
Lemma nearest_exact (m k : Z) :
  0 < m < 2 ^ 53 -> -1074 <= k ->
  (nearest (inject_Z m * pow2 k) == inject_Z m * pow2 k)%Q.
Proof.
  intros Hm Hk. set (a := (inject_Z m * pow2 k)%Q).
  assert (Ha : (0 < a)%Q).
  { apply Qmult_lt_0_compat; [|apply pow2_pos].
    replace 0%Q with (inject_Z 0) by reflexivity. rewrite <- Zlt_Qlt. lia. }
  assert (Hlt : (a < pow2 (53 + k))%Q).
  { rewrite pow2_add, (pow2_Z 53) by lia. unfold a.
    apply Qmult_lt_compat_r; [apply pow2_pos|]. rewrite <- Zlt_Qlt. lia. }
  pose proof (ilog2_below a _ Ha Hlt) as He.
  assert (Hu : ulp_exp a <= k) by (unfold ulp_exp; lia).
  unfold nearest.
  assert (Hs : (a / pow2 (ulp_exp a) == inject_Z (m * 2 ^ (k - ulp_exp a)))%Q).
  { unfold a at 1, Qdiv. rewrite <- Qmult_assoc.
    change (pow2 k * / pow2 (ulp_exp a))%Q with (pow2 k / pow2 (ulp_exp a))%Q.
    rewrite pow2_div, pow2_Z, inject_Z_mult by lia. reflexivity. }
  rewrite Hs, round_even_Z, inject_Z_mult, <- pow2_Z by lia.
  rewrite <- Qmult_assoc, <- pow2_add.
  replace (k - ulp_exp a + ulp_exp a) with k by lia. reflexivity.
Qed.

Lemma nearest_mono (a b : Q) : (0 < a)%Q -> (a <= b)%Q -> (nearest a <= nearest b)%Q.
Proof.
  intros Ha Hab.
  assert (Hb : (0 < b)%Q) by (eapply Qlt_le_trans; eassumption).
  pose proof (ulp_exp_mono a b Ha Hab) as Hu.
  destruct (Z.eq_dec (ulp_exp a) (ulp_exp b)) as [E|E].
  - unfold nearest. rewrite E.
    apply Qmult_le_compat_r; [|apply Qlt_le_weak, pow2_pos].
    rewrite <- Zle_Qle. apply round_even_mono, scaled_le, Hab.
  - (* a binade apart: [2 ^ ilog2 b] lies between the two *)
    assert (Hub : ulp_exp b = ilog2 b - 52).
    { pose proof (ulp_exp_min a). unfold ulp_exp in *. lia. }
    assert (Hea : ilog2 a < ilog2 b).
    { pose proof (ulp_exp_le a). lia. }
    destruct (ilog2_spec a Ha) as [_ Ha2]. destruct (ilog2_spec b Hb) as [Hb1 _].
    apply Qle_trans with (pow2 (ilog2 b)).
    + unfold nearest.
      assert (Hs : (a / pow2 (ulp_exp a)
                    <= inject_Z (2 ^ (ilog2 b - ulp_exp a)))%Q).
      { rewrite <- pow2_Z, <- pow2_div by lia. apply scaled_le.
        apply Qle_trans with (pow2 (ilog2 a + 1)); [lra|]. apply pow2_le. lia. }
      apply round_even_mono in Hs. rewrite round_even_Z in Hs.
      apply Qle_trans with (inject_Z (2 ^ (ilog2 b - ulp_exp a)) * pow2 (ulp_exp a))%Q.
      * apply Qmult_le_compat_r; [|apply Qlt_le_weak, pow2_pos].
        rewrite <- Zle_Qle. exact Hs.
      * rewrite <- pow2_Z, <- pow2_add by lia.
        replace (ilog2 b - ulp_exp a + ulp_exp a) with (ilog2 b) by lia. lra.
    + unfold nearest.
      assert (Hs : (inject_Z (2 ^ 52) <= b / pow2 (ulp_exp b))%Q).
      { rewrite <- pow2_Z by lia.
        replace 52 with (ilog2 b - ulp_exp b) by lia.
        rewrite <- pow2_div. apply scaled_le, Hb1. }
      apply round_even_mono in Hs. rewrite round_even_Z in Hs.
      apply Qle_trans with (inject_Z (2 ^ 52) * pow2 (ulp_exp b))%Q.
      * rewrite <- pow2_Z, <- pow2_add by lia.
        replace (52 + ulp_exp b) with (ilog2 b) by lia. lra.
      * apply Qmult_le_compat_r; [|apply Qlt_le_weak, pow2_pos].
        rewrite <- Zle_Qle. exact Hs.
Qed.

Lemma nearest_nonneg (a : Q) : (0 < a)%Q -> (0 <= nearest a)%Q.
Proof.
  intros Ha. unfold nearest.
  apply Qmult_le_0_compat; [|apply Qlt_le_weak, pow2_pos].
  replace 0%Q with (inject_Z 0) by reflexivity. rewrite <- Zle_Qle.
  rewrite <- (round_even_Z 0). apply round_even_mono.
  apply Qle_shift_div_l; [apply pow2_pos|]. change (inject_Z 0) with 0%Q. lra.
Qed.

Lemma nearest_proper (a b : Q) : (0 < a)%Q -> (a == b)%Q -> (nearest a == nearest b)%Q.
Proof.
  intros Ha Hab.
  assert (Hb : (0 < b)%Q) by lra.
  apply Qle_antisym; apply nearest_mono; lra.
Qed.

Lemma nearest_pow2 (k : Z) : -1074 <= k -> (nearest (pow2 k) == pow2 k)%Q.
Proof.
  intros Hk. pose proof (nearest_exact 1 k ltac:(lia) Hk) as H.
  assert (E : (inject_Z 1 * pow2 k == pow2 k)%Q) by (change (inject_Z 1) with 1%Q; ring).
  rewrite <- E at 2. rewrite <- H.
  apply nearest_proper; [apply pow2_pos | lra].
Qed.

Lemma round_some (x y : Q) :
  round x = Some y ->
  ((x == 0)%Q /\ y = 0%Q) \/
  ((0 < x)%Q /\ y = nearest x /\ (nearest x < pow2 1024)%Q) \/
  ((x < 0)%Q /\ y = (- nearest (- x))%Q /\ (nearest (- x) < pow2 1024)%Q).
Proof.
  unfold round. destruct (Qcompare_spec x 0) as [H|H|H].
  - intros [= <-]. left. done.
  - destruct (Qle_bool _ _) eqn:E; [discriminate|]. intros [= <-]. right. right.
    split_and!; [done | done |].
    apply Qnot_le_lt. intros H'. apply Qle_bool_iff in H'. congruence.
  - destruct (Qle_bool _ _) eqn:E; [discriminate|]. intros [= <-]. right. left.
    split_and!; [done | done |].
    apply Qnot_le_lt. intros H'. apply Qle_bool_iff in H'. congruence.
Qed.

Lemma round_pos (x : Q) :
  (0 < x)%Q -> (nearest x < pow2 1024)%Q -> round x = Some (nearest x).
Proof.
  intros Hx Hn. unfold round.
  destruct (Qcompare_spec x 0) as [H|H|H]; [exfalso; lra.. |].
  destruct (Qle_bool _ _) eqn:E; [|done].
  apply Qle_bool_iff in E. exfalso. lra.
Qed.

Lemma round_neg (x : Q) :
  (x < 0)%Q -> (nearest (- x) < pow2 1024)%Q -> round x = Some (- nearest (- x))%Q.
Proof.
  intros Hx Hn. unfold round.
  destruct (Qcompare_spec x 0) as [H|H|H]; [exfalso; lra | | exfalso; lra].
  destruct (Qle_bool _ _) eqn:E; [|done].
  apply Qle_bool_iff in E. exfalso. lra.
Qed.

Lemma round_zero (x : Q) : (x == 0)%Q -> round x = Some 0%Q.
Proof.
  intros Hx. unfold round.
  destruct (Qcompare_spec x 0) as [H|H|H]; [done | exfalso; lra..].
Qed.

(** Rounding keeps the order. *)
Lemma round_mono (x y x' y' : Q) :
  (x <= y)%Q -> round x = Some x' -> round y = Some y' -> (x' <= y')%Q.
Proof.
  intros Hxy Hx Hy.
  apply round_some in Hx as [[Hx ->]|[(Hx & -> & _)|(Hx & -> & _)]];
    apply round_some in Hy as [[Hy ->]|[(Hy & -> & _)|(Hy & -> & _)]];
    try (exfalso; lra).
  - lra.
  - by apply nearest_nonneg.
  - by apply nearest_mono.
  - pose proof (nearest_nonneg (- x)). lra.
  - pose proof (nearest_nonneg (- x)). pose proof (nearest_nonneg y). lra.
  - pose proof (nearest_mono (- y) (- x)). lra.
Qed.

(** A value that a double holds is not changed. *)
Lemma round_exact (x : Q) (m k : Z) :
  Z.abs m < 2 ^ 53 -> -1074 <= k -> (x == inject_Z m * pow2 k)%Q ->
  (Qabs x < pow2 1024)%Q ->
  exists y, round x = Some y /\ (y == x)%Q.
Proof.
  intros Hm Hk Hx Hlt. pose proof (pow2_pos k) as Hp.
  destruct (Z.lt_trichotomy m 0) as [Hneg|[->|Hpos]].
  - assert (Hx' : (- x == inject_Z (- m) * pow2 k)%Q).
    { rewrite Hx, inject_Z_opp. ring. }
    assert (H0 : (0 < - x)%Q).
    { rewrite Hx'. apply Qmult_lt_0_compat; [|done].
      replace 0%Q with (inject_Z 0) by reflexivity. rewrite <- Zlt_Qlt. lia. }
    assert (Hn : (nearest (- x) == - x)%Q).
    { rewrite (nearest_proper _ _ H0 Hx'), Hx'. apply nearest_exact; lia. }
    exists (- nearest (- x))%Q. split; [|lra].
    apply round_neg; [lra|]. rewrite Hn.
    rewrite <- (Qabs_neg x) by lra. done.
  - exists 0%Q. change (inject_Z 0) with 0%Q in Hx.
    assert (x == 0)%Q by lra. split; [by apply round_zero | lra].
  - assert (H0 : (0 < x)%Q).
    { rewrite Hx. apply Qmult_lt_0_compat; [|done].
      replace 0%Q with (inject_Z 0) by reflexivity. rewrite <- Zlt_Qlt. lia. }
    assert (Hn : (nearest x == x)%Q).
    { rewrite (nearest_proper _ _ H0 Hx), Hx. apply nearest_exact; lia. }
    exists (nearest x). split; [|done].
    apply round_pos; [done|]. rewrite Hn.
    rewrite <- (Qabs_pos x) by lra. done.
Qed.

(** Rounding stays below a power of two that bounds the value. *)
Lemma round_bounded (x : Q) (k : Z) :
  -1074 <= k <= 1023 -> (Qabs x <= pow2 k)%Q ->
  exists y, round x = Some y /\ (Qabs y <= pow2 k)%Q.
Proof.
  intros Hk Hx. pose proof (pow2_pos k) as Hp.
  assert (Hlt : (pow2 k < pow2 1024)%Q).
  { apply Qpower_lt_compat_l; [lia | reflexivity]. }
  destruct (Qlt_le_dec x 0) as [Hneg|Hnn]; [|destruct (Qlt_le_dec 0 x) as [Hpos|Hnp]].
  - rewrite Qabs_neg in Hx by lra.
    assert (Hn : (nearest (- x) <= pow2 k)%Q).
    { rewrite <- (nearest_pow2 k) by lia. apply nearest_mono; lra. }
    pose proof (nearest_nonneg (- x)) as H0.
    exists (- nearest (- x))%Q. split; [apply round_neg; lra|].
    rewrite Qabs_neg by lra. lra.
  - rewrite Qabs_pos in Hx by lra.
    assert (Hn : (nearest x <= pow2 k)%Q).
    { rewrite <- (nearest_pow2 k) by lia. apply nearest_mono; lra. }
    pose proof (nearest_nonneg x) as H0.
    exists (nearest x). split; [apply round_pos; lra|].
    rewrite Qabs_pos by lra. lra.
  - exists 0%Q. split; [apply round_zero; lra|].
    change (Qabs 0) with 0%Q. lra.
Qed.

Lemma round_even_near (m : Q) : (Qabs (inject_Z (round_even m) - m) <= 1 # 2)%Q.
Proof.
  unfold round_even.
  pose proof (Qfloor_le m) as H1. pose proof (Qlt_floor m) as H2.
  rewrite inject_Z_plus in H2. change (inject_Z 1) with 1%Q in H2.
  apply Qabs_Qle_condition.
  destruct (Qcompare_spec (m - inject_Z (Qfloor m)) (1 # 2)) as [H|H|H];
    try destruct (Z.even (Qfloor m));
    rewrite ?inject_Z_plus; change (inject_Z 1) with 1%Q; lra.
Qed.

(** The nearest double is within half a unit in the last place. *)
Lemma nearest_error (a : Q) :
  (0 < a)%Q -> (Qabs (nearest a - a) <= pow2 (ulp_exp a - 1))%Q.
Proof.
  intros Ha. unfold nearest. set (u := ulp_exp a).
  pose proof (pow2_pos u) as Hp.
  assert (E : (inject_Z (round_even (a / pow2 u)) * pow2 u - a
               == (inject_Z (round_even (a / pow2 u)) - a / pow2 u) * pow2 u)%Q).
  { field. intros E. rewrite E in Hp. inversion Hp. }
  rewrite E, Qabs_Qmult, (Qabs_pos (pow2 u)) by lra.
  replace u with (u - 1 + 1) at 3 by lia.
  rewrite pow2_add. change (pow2 1) with 2%Q.
  pose proof (round_even_near (a / pow2 u)) as Hn.
  pose proof (pow2_pos (u - 1)) as Hp1.
  apply Qle_trans with ((1 # 2) * (pow2 (u - 1) * 2))%Q; [|lra].
  apply Qmult_le_compat_r; [exact Hn|]. lra.
Qed.

(** A rounding of a value of magnitude at most [2^k] moves it by at most
    [2^(k-53)]. *)
Lemma round_error (x y : Q) (k : Z) :
  -1022 <= k -> (Qabs x <= pow2 k)%Q -> round x = Some y ->
  (Qabs (y - x) <= pow2 (k - 53))%Q.
Proof.
  intros Hk Hx Hy.
  assert (Hbound : forall a, (0 < a)%Q -> (a <= pow2 k)%Q ->
            (Qabs (nearest a - a) <= pow2 (k - 53))%Q).
  { intros a Ha Hak.
    assert (He : ilog2 a < k + 1).
    { apply ilog2_below; [exact Ha|].
      eapply Qle_lt_trans; [exact Hak|].
      apply Qpower_lt_compat_l; [lia | reflexivity]. }
    eapply Qle_trans; [by apply nearest_error|].
    apply pow2_le. unfold ulp_exp. lia. }
  apply round_some in Hy as [[H0 ->]|[(Hpos & -> & _)|(Hneg & -> & _)]].
  - assert (E : (0 - x == 0)%Q) by lra. rewrite E.
    apply Qlt_le_weak, pow2_pos.
  - apply Hbound; [done|]. by rewrite Qabs_pos in Hx by lra.
  - assert (E : (- nearest (- x) - x == - (nearest (- x) - - x))%Q) by ring.
    rewrite E, Qabs_opp. apply Hbound; [lra|]. by rewrite Qabs_neg in Hx by lra.
Qed.

End DoubleFacts.

(** ** Row capacity *)

Lemma int_of_float_max (x : Q) :
  Z.max 1 (Py.int_of_float x - 1) = Z.max 1 (Qfloor x - 1).
Proof.
  destruct x as [n d]. unfold Py.int_of_float, Qfloor. cbn [Qnum Qden].
  destruct (Z.le_gt_cases 0 n) as [Hn|Hn].
  - by rewrite Z.quot_div_nonneg by lia.
  - assert (n ÷ Z.pos d ≤ 0).
    { rewrite <- (Z.opp_involutive n), Z.quot_opp_l by lia.
      pose proof (Z.quot_pos (- n) (Z.pos d)). lia. }
    assert (n `div` Z.pos d < 0) by (apply Z.div_lt_upper_bound; lia).
    lia.
Qed.

Lemma calculate_available_rows_steps (page_height clear_start_y d1 d2 q : Q) :
  Double.round (page_height - clear_start_y) = Some d1 →
  Double.round (d1 - 30) = Some d2 →
  Double.round (d2 / 18) = Some q →
  calculate_available_rows page_height clear_start_y
    default_row_height default_margin_bottom
  = Ok (Z.max 1 (Qfloor q - 1)).
Proof.
  intros H1 H2 H3.
  unfold calculate_available_rows, default_row_height, default_margin_bottom.
  change (Qeq_bool 18 0) with false. cbv iota.
  unfold float_div, float_sub. rewrite H1, H2, H3.
  cbn [int_of_double mbind result_bind].
  by rewrite int_of_float_max.
Qed.

Lemma calculate_available_rows_default (page_height clear_start_y : Q) (r : Z) :
  calculate_available_rows page_height clear_start_y
    default_row_height default_margin_bottom = Ok r →
  ∃ d1 d2 q : Q,
    Double.round (page_height - clear_start_y) = Some d1 ∧
    Double.round (d1 - 30) = Some d2 ∧
    Double.round (d2 / 18) = Some q ∧
    r = Z.max 1 (Qfloor q - 1).
Proof.
  unfold calculate_available_rows, default_row_height, default_margin_bottom.
  change (Qeq_bool 18 0) with false. cbv iota.
  unfold float_div, float_sub.
  destruct (Double.round (page_height - clear_start_y)) as [d1|] eqn:H1;
    cbn [int_of_double mbind result_bind]; [|discriminate].
  destruct (Double.round (d1 - 30)) as [d2|] eqn:H2;
    cbn [int_of_double mbind result_bind]; [|discriminate].
  destruct (Double.round (d2 / 18)) as [q|] eqn:H3;
    cbn [int_of_double mbind result_bind]; [|discriminate].
  intros [= <-]. exists d1, d2, q. by rewrite int_of_float_max.
Qed.

Lemma calculate_available_rows_min (page_height clear_start_y row_height margin_bottom : Q)
    (r : Z) :
  calculate_available_rows page_height clear_start_y row_height margin_bottom = Ok r →
  1 ≤ r.
Proof.
  unfold calculate_available_rows. destruct (Qeq_bool row_height 0); [discriminate|].
  destruct (int_of_double _) as [n|e]; cbn [mbind result_bind]; [|discriminate].
  intros [= <-]. lia.
Qed.

Lemma in_range_sub (x y : Q) (k : Z) :
  (Qabs x <= Double.pow2 k)%Q → (Qabs y <= Double.pow2 k)%Q →
  (Qabs (x - y) <= Double.pow2 (k + 1))%Q.
Proof.
  intros Hx Hy. rewrite DoubleFacts.pow2_add.
  change (Double.pow2 1) with 2%Q.
  apply Qabs_Qle_condition in Hx, Hy. apply Qabs_Qle_condition. lra.
Qed.

Lemma calculate_available_rows_in_range (page_height clear_start_y : Q) :
  in_range page_height → in_range clear_start_y →
  ∃ r, calculate_available_rows page_height clear_start_y
         default_row_height default_margin_bottom = Ok r.
Proof.
  unfold in_range. intros Hh Hc.
  pose proof (in_range_sub _ _ _ Hh Hc) as H1. change (1021 + 1) with 1022 in H1.
  destruct (DoubleFacts.round_bounded _ 1022 ltac:(lia) H1) as (d1 & Hd1 & Hb1).
  assert (H30 : (Qabs 30 <= Double.pow2 1022)%Q) by (vm_compute; discriminate).
  pose proof (in_range_sub _ _ _ Hb1 H30) as H2. change (1022 + 1) with 1023 in H2.
  destruct (DoubleFacts.round_bounded _ 1023 ltac:(lia) H2) as (d2 & Hd2 & Hb2).
  assert (H3 : (Qabs (d2 / 18) <= Double.pow2 1023)%Q).
  { apply Qabs_Qle_condition in Hb2. apply Qabs_Qle_condition.
    pose proof (DoubleFacts.pow2_pos 1023).
    assert (E : (d2 / 18 == d2 * (1 # 18))%Q) by (field; discriminate).
    rewrite E. lra. }
  destruct (DoubleFacts.round_bounded _ 1023 ltac:(lia) H3) as (q & Hq & _).
  eexists. by eapply calculate_available_rows_steps.
Qed.

Lemma calculate_available_rows_le (h h' c c' : Q) (r r' : Z) :
  (h <= h')%Q → (c' <= c)%Q →
  calculate_available_rows h c default_row_height default_margin_bottom = Ok r →
  calculate_available_rows h' c' default_row_height default_margin_bottom = Ok r' →
  r ≤ r'.
Proof.
  intros Hh Hc (d1 & d2 & q & H1 & H2 & H3 & ->)%calculate_available_rows_default
    (d1' & d2' & q' & H1' & H2' & H3' & ->)%calculate_available_rows_default.
  assert (Hd1 : (d1 <= d1')%Q) by (eapply DoubleFacts.round_mono; [|done..]; lra).
  assert (Hd2 : (d2 <= d2')%Q) by (eapply DoubleFacts.round_mono; [|done..]; lra).
  assert (Hq : (q <= q')%Q).
  { eapply DoubleFacts.round_mono; [|done..].
    unfold Qdiv. apply Qmult_le_compat_r; [done | discriminate]. }
  pose proof (Qfloor_resp_le _ _ Hq). lia.
Qed.

(** The agreement with the exact formula on a grid of coordinates. *)

Lemma pow2_inv (s : Z) : (Double.pow2 s * Double.pow2 (- s) == 1)%Q.
Proof. rewrite <- DoubleFacts.pow2_add. by replace (s + - s) with 0 by lia. Qed.

Lemma on_grid_abs (m k : Z) :
  k ≤ 0 → (Qabs (inject_Z m * Double.pow2 k) <= inject_Z (Z.abs m))%Q.
Proof.
  intros Hk. rewrite Qabs_Qmult.
  pose proof (DoubleFacts.pow2_pos k) as Hp.
  pose proof (DoubleFacts.pow2_le k 0 Hk) as H1. change (Double.pow2 0) with 1%Q in H1.
  rewrite (Qabs_pos (Double.pow2 k)) by lra.
  change (Qabs (inject_Z m)) with (inject_Z (Z.abs m)).
  assert (H0 : (0 <= inject_Z (Z.abs m))%Q).
  { replace 0%Q with (inject_Z 0) by reflexivity. rewrite <- Zle_Qle. lia. }
  rewrite <- (Qmult_1_r (inject_Z (Z.abs m))) at 2.
  rewrite !(Qmult_comm (inject_Z (Z.abs m))).
  by apply Qmult_le_compat_r.
Qed.

Lemma round_on_grid (x : Q) (m k : Z) :
  Z.abs m < 2 ^ 53 → -1074 ≤ k ≤ 0 → (x == inject_Z m * Double.pow2 k)%Q →
  ∃ y, Double.round x = Some y ∧ (y == x)%Q.
Proof.
  intros Hm Hk Hx. apply (DoubleFacts.round_exact x m k); [done | lia | done |].
  rewrite Hx. eapply Qle_lt_trans; [apply on_grid_abs; lia|].
  rewrite (DoubleFacts.pow2_Z 1024), <- Zlt_Qlt by lia. 
  assert (2 ^ 53 < 2 ^ 1024) by (apply Z.pow_lt_mono_r; lia). lia.
Qed.

Lemma round_quotient_floor (D s : Z) (x : Q) :
  0 ≤ s ≤ 40 → Z.abs D < 2 ^ 47 →
  (x == inject_Z D * Double.pow2 (- s) / 18)%Q →
  ∃ q, Double.round x = Some q ∧ Qfloor q = Qfloor x.
Proof.
  intros Hs HD Hx.
  set (P := 2 ^ s). set (n := Qfloor x).
  assert (HP : 1 ≤ P ≤ 2 ^ 40).
  { unfold P. split.
    - change 1 with (2 ^ 0). apply Z.pow_le_mono_r; lia.
    - apply Z.pow_le_mono_r; lia. }
  change (2 ^ 40) with 1099511627776 in HP. change (2 ^ 47) with 140737488355328 in HD.
  pose proof (DoubleFacts.pow2_pos s) as Hpos.
  pose proof (pow2_inv s) as Hinv.
  assert (HPq : (Double.pow2 s == inject_Z P)%Q) by (apply DoubleFacts.pow2_Z; lia).
  assert (Hscaled : (x * (18 * inject_Z P) == inject_Z D)%Q).
  { rewrite Hx, <- HPq.
    transitivity (inject_Z D * (Double.pow2 s * Double.pow2 (- s)))%Q;
      [field | rewrite Hinv; ring]. }
  pose proof (Qfloor_le x) as Hlo. pose proof (Qlt_floor x) as Hhi. fold n in Hlo, Hhi.
  assert (HPpos : (0 < 18 * inject_Z P)%Q).
  { rewrite <- HPq. lra. }
  assert (Hn1 : n * (18 * P) ≤ D).
  { rewrite Zle_Qle, <- Hscaled, !inject_Z_mult.
    change (inject_Z 18) with 18%Q. by apply Qmult_le_compat_r; [|apply Qlt_le_weak]. }
  assert (Hn2 : D < (n + 1) * (18 * P)).
  { rewrite Zlt_Qlt, <- Hscaled, !inject_Z_mult.
    change (inject_Z 18) with 18%Q. by apply Qmult_lt_compat_r. }
  assert (Hnb : - 2 ^ 47 - 1 < n ≤ 2 ^ 47).
  { change (2 ^ 47) with 140737488355328. nia. }
  change (2 ^ 47) with 140737488355328 in Hnb.
  (* the quotient is within the doubles *)
  assert (Hx48 : (Qabs x <= Double.pow2 48)%Q).
  { apply Qabs_Qle_condition.
    rewrite (DoubleFacts.pow2_Z 48) by lia.
    assert (H1 : (inject_Z n <= inject_Z (2 ^ 47))%Q) by (rewrite <- Zle_Qle; lia).
    assert (H2 : (inject_Z (- 2 ^ 47) <= inject_Z n)%Q) by (rewrite <- Zle_Qle; lia).
    assert (H3 : (inject_Z (n + 1) <= inject_Z (2 ^ 48))%Q) by (rewrite <- Zle_Qle; lia).
    assert (H4 : (- inject_Z (2 ^ 48) <= inject_Z (- 2 ^ 47))%Q) by (vm_compute; discriminate).
    lra. }
  destruct (DoubleFacts.round_bounded x 48 ltac:(lia) Hx48) as (q & Hq & _).
  exists q. split; [done|].
  (* [n] is a double not above the quotient *)
  destruct (round_on_grid (inject_Z n) n 0) as (yn & Hyn & Eyn);
    [lia | lia | change (Double.pow2 0) with 1%Q; ring |].
  assert (Hlow : (inject_Z n <= q)%Q).
  { rewrite <- Eyn. by eapply (DoubleFacts.round_mono (inject_Z n) x). }
  (* and there is a double between the quotient and [n + 1] *)
  set (M := (n + 1) * (32 * P) - 1).
  set (t := (inject_Z M * Double.pow2 (- (s + 5)))%Q).
  destruct (round_on_grid t M (- (s + 5))) as (yt & Hyt & Eyt); [nia | lia | done |].
  assert (Ht32 : (t * (32 * inject_Z P) == inject_Z M)%Q).
  { unfold t. rewrite <- HPq.
    assert (E : (32 * Double.pow2 s == Double.pow2 (s + 5))%Q).
    { rewrite DoubleFacts.pow2_add. change (Double.pow2 5) with 32%Q. ring. }
    rewrite E, <- Qmult_assoc, (Qmult_comm (Double.pow2 (- (s + 5)))), pow2_inv. ring. }
  assert (Hxt : (x <= t)%Q).
  { assert (Hw : (0 < 576 * inject_Z P)%Q) by lra.
    apply Qmult_lt_0_le_reg_r with (576 * inject_Z P)%Q; [done|].
    assert (E1 : (x * (576 * inject_Z P) == 32 * inject_Z D)%Q).
    { rewrite <- Hscaled. ring. }
    assert (E2 : (t * (576 * inject_Z P) == 18 * inject_Z M)%Q).
    { rewrite <- Ht32. ring. }
    rewrite E1, E2.
    change 32%Q with (inject_Z 32). change 18%Q with (inject_Z 18).
    rewrite <- !inject_Z_mult, <- Zle_Qle. unfold M. lia. }
  assert (Hup : (q < inject_Z (n + 1))%Q).
  { apply Qle_lt_trans with t.
    - rewrite <- Eyt. by eapply (DoubleFacts.round_mono x t).
    - assert (Hw : (0 < 32 * inject_Z P)%Q) by lra.
      apply Qmult_lt_r with (32 * inject_Z P)%Q; [done|].
      rewrite Ht32. change 32%Q with (inject_Z 32).
      rewrite <- !inject_Z_mult, <- Zlt_Qlt. unfold M. lia. }
  pose proof (Qfloor_resp_le _ _ Hlow) as F1. rewrite Qfloor_Z in F1.
  pose proof (Qfloor_le q) as F2.
  assert (F3 : (inject_Z (Qfloor q) < inject_Z (n + 1))%Q) by lra.
  rewrite <- Zlt_Qlt in F3. lia.
Qed.

Lemma calculate_available_rows_on_grid (page_height clear_start_y : Q) (s : Z) :
  0 ≤ s ≤ 40 → on_grid s page_height → on_grid s clear_start_y →
  calculate_available_rows page_height clear_start_y
    default_row_height default_margin_bottom
  = Ok (available_rows_exact page_height clear_start_y).
Proof.
  intros Hs (mh & Hmh & Eh) (mc & Hmc & Ec).
  assert (HP : 1 ≤ 2 ^ s ≤ 2 ^ 40).
  { split.
    - change 1 with (2 ^ 0). apply Z.pow_le_mono_r; lia.
    - apply Z.pow_le_mono_r; lia. }
  change (2 ^ 40) with 1099511627776 in HP. change (2 ^ 45) with 35184372088832 in *.
  assert (E30 : (30 == inject_Z (30 * 2 ^ s) * Double.pow2 (- s))%Q).
  { rewrite inject_Z_mult, <- DoubleFacts.pow2_Z, <- Qmult_assoc, pow2_inv by lia.
    reflexivity. }
  destruct (round_on_grid (page_height - clear_start_y) (mh - mc) (- s))
    as (d1 & H1 & E1).
  { change (2 ^ 53) with 9007199254740992. lia. }
  { lia. }
  { rewrite Eh, Ec. unfold Z.sub. rewrite inject_Z_plus, inject_Z_opp. ring. }
  set (D := mh - mc - 30 * 2 ^ s).
  assert (E2' : (page_height - clear_start_y - 30 == inject_Z D * Double.pow2 (- s))%Q).
  { rewrite E30 at 1. rewrite Eh, Ec. unfold D, Z.sub.
    rewrite !inject_Z_plus, !inject_Z_opp. ring. }
  destruct (round_on_grid (d1 - 30) D (- s)) as (d2 & H2 & E2).
  { unfold D. change (2 ^ 53) with 9007199254740992. lia. }
  { lia. }
  { by rewrite E1. }
  destruct (round_quotient_floor D s (d2 / 18)) as (q & H3 & Hfloor).
  { done. }
  { unfold D. change (2 ^ 47) with 140737488355328. lia. }
  { by rewrite E2, E1, E2'. }
  rewrite (calculate_available_rows_steps _ _ d1 d2 q) by done.
  unfold available_rows_exact. rewrite Hfloor.
  assert (E : (d2 / 18 == (page_height - clear_start_y - 30) / 18)%Q)
    by by rewrite E2, E1.
  by rewrite (Qfloor_comp _ _ E).
Qed.

Lemma calculate_available_rows_raise (page_height clear_start_y : Q) (e : exn) :
  calculate_available_rows page_height clear_start_y
    default_row_height default_margin_bottom = Raise e →
  e = Builtin OverflowError.
Proof.
  unfold calculate_available_rows, default_row_height.
  change (Qeq_bool 18 0) with false. cbv iota.
  destruct (float_div _ _) as [q|]; cbn [int_of_double mbind result_bind];
    [discriminate | by intros [= <-]].
Qed.

(** C3, as the code computes it. With the default row height 18 and
    bottom margin 30 the capacity is at least 1 whenever the call returns,
    and it returns for every page height and start of the clear region far
    inside the range of the doubles; the only failure is the OverflowError
    of [int()] on an infinity. The two subtractions and the division are
    rounded to doubles, so the capacity is
    floor((page_height - clear_start_y - 30) / 18) - 1, raised to 1 when it
    is smaller, where the rounding does not reach an integer: for one, when
    both coordinates have at most [s <= 40] binary places and numerators
    of magnitude at most 2^45. *)
Theorem available_rows_at_least_one (page_height clear_start_y : Q) :
  let capacity :=
    calculate_available_rows page_height clear_start_y
      default_row_height default_margin_bottom in
  (∀ r, capacity = Ok r → 1 ≤ r) ∧
  (∀ e, capacity = Raise e → e = Builtin OverflowError) ∧
  (in_range page_height → in_range clear_start_y → ∃ r, capacity = Ok r) ∧
  (∀ s, 0 ≤ s ≤ 40 → on_grid s page_height → on_grid s clear_start_y →
     capacity = Ok (available_rows_exact page_height clear_start_y)).
Proof.
  cbv zeta. split_and!.
  - intros r. apply calculate_available_rows_min.
  - intros e. apply calculate_available_rows_raise.
  - apply calculate_available_rows_in_range.
  - intros s. apply calculate_available_rows_on_grid.
Qed.

(** C3, as stated, fails: 89 - (5 + 2^-50) is rounded to 84, so that the
    code finds room for 54 / 18 - 1 = 2 rows where the formula, in exact
    arithmetic, gives 1. *)
Lemma available_rows_above_formula :
  ∃ r : Z,
    calculate_available_rows 89 (5 + Double.pow2 (-50))
      default_row_height default_margin_bottom = Ok r ∧
    r = 2 ∧
    available_rows_exact 89 (5 + Double.pow2 (-50)) = 1 ∧
    r ≠ available_rows_exact 89 (5 + Double.pow2 (-50)).
Proof. exists 2. split_and!; [vm_compute; reflexivity.. | vm_compute; discriminate]. Qed.

(** The same on a page 732 high with the clear region starting at the
    double nearest to 1e-20. *)
Example available_rows_tiny_start :
  let clear_start_y := (6646139978924579 * Double.pow2 (-119))%Q in
  calculate_available_rows 732 clear_start_y
    default_row_height default_margin_bottom = Ok 38 ∧
  available_rows_exact 732 clear_start_y = 37.
Proof. cbv zeta. split; vm_compute; reflexivity. Qed.

Example available_rows_overflow :
  calculate_available_rows (Double.pow2 1023) (- Double.pow2 1023)
    default_row_height default_margin_bottom = Raise (Builtin OverflowError).
Proof. vm_compute. reflexivity. Qed.

Example available_rows_negative_space :
  calculate_available_rows 100 400 default_row_height default_margin_bottom = Ok 1.
Proof. vm_compute. reflexivity. Qed.

Example available_rows_fraction :
  calculate_available_rows 842 (2405 # 10) default_row_height default_margin_bottom
  = Ok 30.
Proof. vm_compute. reflexivity. Qed.

(** ** Chunking *)

Section Chunks.
Context {A : Type}.
Implicit Types (l items : list A) (n m : nat).

Lemma chunks_concat l (step m : nat) :
  concat (map (λ i, take step (drop i l)) (map (λ k, (k * step)%nat) (seq 0 m)))
  = take (m * step) l.
Proof.
  induction m as [|m IH]; [reflexivity|].
  rewrite seq_S, !map_app, concat_app, IH. cbn [map concat Nat.add].
  rewrite app_nil_r, take_take_drop. f_equal. lia.
Qed.

Lemma range_step_covers n (step : nat) :
  (0 < step)%nat → (n ≤ (n + step - 1) / step * step)%nat.
Proof.
  intros Hs.
  pose proof (Nat.div_mod_eq (n + step - 1) step) as E.
  pose proof (Nat.mod_upper_bound (n + step - 1) step). nia.
Qed.

Lemma range_step_tight n (step : nat) :
  (0 < step)%nat → (0 < n)%nat →
  (((n + step - 1) / step - 1) * step < n)%nat ∧ (0 < (n + step - 1) / step)%nat.
Proof.
  intros Hs Hn.
  pose proof (Nat.div_mod_eq (n + step - 1) step) as E.
  pose proof (Nat.mod_upper_bound (n + step - 1) step). nia.
Qed.

Lemma paginate_concat items (available_rows : Z) :
  1 ≤ available_rows → concat (paginate items available_rows) = items.
Proof.
  intros H. unfold paginate.
  destruct (Z.leb_spec (Z.of_nat (length items)) available_rows) as [Hfit|Hover].
  - cbn. apply app_nil_r.
  - unfold slice_to, slice_from, range_step.
    rewrite (proj2 (Z.leb_le 0 available_rows)) by lia.
    cbn [concat]. rewrite chunks_concat.
    rewrite (take_ge (drop _ items))
      by (apply range_step_covers; unfold limit_extra; lia).
    apply take_drop.
Qed.

Lemma paginate_overflow items (available_rows : Z) :
  1 ≤ available_rows → available_rows < Z.of_nat (length items) →
  ∃ (rest : list (list A)) (last : list A),
    paginate items available_rows
      = take (Z.to_nat available_rows) items :: rest ++ [last] ∧
    length (take (Z.to_nat available_rows) items) = Z.to_nat available_rows ∧
    Forall (λ chunk, length chunk = 25%nat) rest ∧
    (1 ≤ length last ≤ 25)%nat.
Proof.
  intros H Hover. unfold paginate.
  rewrite (proj2 (Z.leb_gt _ _)) by lia.
  unfold slice_to, slice_from, range_step.
  rewrite (proj2 (Z.leb_le 0 available_rows)) by lia.
  set (remaining := drop (Z.to_nat available_rows) items).
  assert (Hrem : (0 < length remaining)%nat).
  { unfold remaining. rewrite length_drop. lia. }
  destruct (range_step_tight (length remaining) limit_extra) as [Hlast Hpos];
    [unfold limit_extra; lia | done |].
  set (m := ((length remaining + limit_extra - 1) / limit_extra)%nat) in *.
  pose proof (range_step_covers (length remaining) limit_extra) as Hcov.
  fold m in Hcov. unfold limit_extra in *.
  replace m with (S (m - 1)) by lia. rewrite seq_S, !map_app. cbn [map Nat.add].
  eexists _, _. split; [reflexivity|]. split_and!.
  - rewrite length_take. lia.
  - rewrite !Forall_map. apply Forall_forall. intros k Hk.
    apply elem_of_seq in Hk. rewrite length_take, length_drop. lia.
  - rewrite length_take, length_drop. lia.
  - rewrite length_take. lia.
Qed.

End Chunks.

(** ** Pages of a matched label *)

Lemma passthrough_false (awb_to_items : gmap string (list item))
    (a : string) (items : list item) :
  a ≠ EmptyString → awb_to_items !! a = Some items →
  passthrough awb_to_items (Some a) = false.
Proof.
  intros Ha Hitems. unfold passthrough.
  rewrite bool_decide_eq_false_2 by done.
  rewrite bool_decide_eq_false_2 by (rewrite Hitems; done). done.
Qed.

Lemma render_page_matched (awb_to_items : gmap string (list item))
    (info : page_info) (a : string) (items : list item) (r : Z) :
  awb info = Some a → a ≠ EmptyString → awb_to_items !! a = Some items →
  calculate_available_rows (height info) (clear_start_y info)
    default_row_height default_margin_bottom = Ok r →
  render_page awb_to_items info = Ok (imap (render_chunk info a) (paginate items r)).
Proof.
  intros Hawb Ha Hitems Hr. unfold render_page. rewrite Hawb.
  rewrite (passthrough_false _ _ items) by done.
  rewrite Hr, Hitems. reflexivity.
Qed.

Lemma render_page_copied (awb_to_items : gmap string (list item)) (info : page_info) :
  passthrough awb_to_items (awb info) = true →
  render_page awb_to_items info = Ok [Copied (doc info) (page_num info)].
Proof.
  intros Hp. unfold render_page. destruct (awb info); [|reflexivity].
  by rewrite Hp.
Qed.

Lemma render_page_ok (awb_to_items : gmap string (list item)) (info : page_info)
    (pages : list out_page) :
  render_page awb_to_items info = Ok pages → pages_of awb_to_items info = pages.
Proof. intros H. unfold pages_of. by rewrite H. Qed.

Lemma render_page_cases (awb_to_items : gmap string (list item)) (info : page_info)
    (pages : list out_page) :
  render_page awb_to_items info = Ok pages →
  (passthrough awb_to_items (awb info) = true ∧
   pages = [Copied (doc info) (page_num info)]) ∨
  (∃ a r,
     awb info = Some a ∧ passthrough awb_to_items (awb info) = false ∧
     calculate_available_rows (height info) (clear_start_y info)
       default_row_height default_margin_bottom = Ok r ∧
     pages = imap (render_chunk info a)
               (paginate (default [] (awb_to_items !! a)) r)).
Proof.
  unfold render_page. destruct (awb info) as [a|] eqn:Hawb.
  - destruct (passthrough awb_to_items (Some a)) eqn:Hp.
    + intros [= <-]. by left.
    + destruct (calculate_available_rows _ _ _ _) as [r|e] eqn:Hr;
        cbn [mbind result_bind]; [|discriminate].
      intros [= <-]. right. by exists a, r.
  - intros [= <-]. by left.
Qed.

Lemma paginate_40_10 {A} (items : list A) :
  length items = 40%nat → map length (paginate items 10) = [10; 25; 5]%nat.
Proof.
  intros Hlen. unfold paginate, slice_to, slice_from. rewrite Hlen.
  change (Z.of_nat 40 <=? 10) with false. change (0 <=? 10) with true. cbv iota.
  rewrite length_drop, Hlen.
  change (range_step (40 - Z.to_nat 10) limit_extra) with [0; 25]%nat.
  cbn [map]. rewrite !length_take, !length_drop, Hlen. reflexivity.
Qed.

(** C2. For [available_rows >= 1] the chunks, concatenated, give back the
    item list. A list that fits is one chunk. A list that does not fit
    gives a first chunk of exactly [available_rows] items, then chunks of
    exactly 25 items, then a last chunk of 1 to 25 items. 40 items with
    [available_rows = 10] give chunks of 10, 25 and 5 items, and the label
    then has 3 output pages. *)
Theorem chunking_exhaustive (items : list item) (available_rows : Z)
    (Hrows : 1 ≤ available_rows) :
  concat (paginate items available_rows) = items ∧
  (Z.of_nat (length items) ≤ available_rows →
     paginate items available_rows = [items]) ∧
  (available_rows < Z.of_nat (length items) →
     ∃ (first : list item) (rest : list (list item)) (last : list item),
       paginate items available_rows = first :: rest ++ [last] ∧
       first = take (Z.to_nat available_rows) items ∧
       Z.of_nat (length first) = available_rows ∧
       Forall (λ chunk, length chunk = 25%nat) rest ∧
       (1 ≤ length last ≤ 25)%nat) ∧
  (length items = 40%nat → available_rows = 10 →
     map length (paginate items available_rows) = [10; 25; 5]%nat ∧
     ∀ (awb_to_items : gmap string (list item)) (info : page_info) (a : string),
       awb info = Some a → a ≠ EmptyString → awb_to_items !! a = Some items →
       calculate_available_rows (height info) (clear_start_y info)
         default_row_height default_margin_bottom = Ok available_rows →
       ∃ pages, render_page awb_to_items info = Ok pages ∧ length pages = 3%nat).
Proof.
  split_and!.
  - by apply paginate_concat.
  - intros Hfit. unfold paginate. by rewrite (proj2 (Z.leb_le _ _)).
  - intros Hover.
    destruct (paginate_overflow items available_rows Hrows Hover)
      as (rest & last & Heq & Hfirst & Hrest & Hlast).
    exists (take (Z.to_nat available_rows) items), rest, last.
    split_and!; [done | done | lia | done | lia | lia].
  - intros Hlen ->. split; [by apply paginate_40_10|].
    intros awb_to_items info a Hawb Ha Hitems Hcalc.
    eexists. split; [by eapply render_page_matched|].
    rewrite length_imap, <- (length_map length), paginate_40_10 by done.
    reflexivity.
Qed.

Lemma chunking_exhaustive_witness :
  concat (paginate [ {| msku := "A"; jumlah := 1 |}; {| msku := "B"; jumlah := 2 |};
                     {| msku := "C"; jumlah := 3 |} ] 2)
  = [ {| msku := "A"; jumlah := 1 |}; {| msku := "B"; jumlah := 2 |};
      {| msku := "C"; jumlah := 3 |} ].
Proof.
  apply (chunking_exhaustive
           [ {| msku := "A"; jumlah := 1 |}; {| msku := "B"; jumlah := 2 |};
             {| msku := "C"; jumlah := 3 |} ] 2).
  lia.
Defined.

(** C4, as the code computes it: on a page 842 high with the clear region
    starting at 120 the capacity is floor(692 / 18) - 1 = 37, and a list
    of 2 items is a single chunk, so that the label has exactly one output
    page, an overlay with the header and 2 rows. *)
Theorem scenario_single_page
    (awb_to_items : gmap string (list item)) (info : page_info)
    (a : string) (items : list item)
    (Hheight : height info = 842%Q) (Hclear : clear_start_y info = 120%Q)
    (Hawb : awb info = Some a) (Ha : a ≠ EmptyString)
    (Hitems : awb_to_items !! a = Some items) (Hlen : length items = 2%nat) :
  calculate_available_rows (height info) (clear_start_y info)
    default_row_height default_margin_bottom = Ok 37 ∧
  paginate items 37 = [items] ∧
  render_page awb_to_items info = Ok [render_chunk info a 0 items] ∧
  length (table_rows items) = 3%nat.
Proof.
  assert (Hcalc : calculate_available_rows (height info) (clear_start_y info)
                    default_row_height default_margin_bottom = Ok 37)
    by (rewrite Hheight, Hclear; vm_compute; reflexivity).
  assert (Hone : paginate items 37 = [items]).
  { unfold paginate. by rewrite Hlen. }
  split_and!; [done | done | |].
  - rewrite (render_page_matched _ _ a items 37) by done. by rewrite Hone.
  - unfold table_rows. cbn [length]. by rewrite length_map, Hlen.
Qed.

Lemma scenario_single_page_witness :
  let items := [ {| msku := "SKU-A"; jumlah := 2 |}; {| msku := "SKU-B"; jumlah := 1 |} ] in
  let info := {| page_num := 0; doc := 0; width := 595; height := 842;
                 awb := Some "SPXID123456789012"; clear_start_y := 120 |} in
  render_page {[ "SPXID123456789012" := items ]} info
  = Ok [render_chunk info "SPXID123456789012" 0 items].
Proof.
  intros items info.
  apply (scenario_single_page {[ "SPXID123456789012" := items ]} info
           "SPXID123456789012" items);
    [reflexivity | reflexivity | reflexivity | discriminate
    | apply lookup_singleton_eq | reflexivity].
Defined.

(** C4, as stated, fails: the capacity is 37, not 38. *)
Lemma scenario_rows_not_38 :
  ∃ r : Z,
    calculate_available_rows 842 120 default_row_height default_margin_bottom = Ok r ∧
    r = 37 ∧ r ≠ 38.
Proof. exists 37. split_and!; [reflexivity | reflexivity | discriminate]. Qed.

(** ** Sorting by SKU *)

Lemma insert_by_msku_perm (x : item) (l : list item) : insert_by_msku x l ≡ₚ x :: l.
Proof.
  induction l as [|y l IH]; cbn [insert_by_msku]; [done|].
  destruct (String.leb (msku x) (msku y)); [done|].
  rewrite IH. apply Permutation_swap.
Qed.

Lemma sort_by_msku_perm (l : list item) : sort_by_msku l ≡ₚ l.
Proof.
  induction l as [|x l IH]; [done|].
  cbn. rewrite insert_by_msku_perm. by rewrite IH.
Qed.

Lemma insert_by_msku_hd (x y : item) (l : list item) :
  msku_le y x → HdRel msku_le y l → HdRel msku_le y (insert_by_msku x l).
Proof.
  intros Hyx Hl. destruct l as [|z l]; cbn [insert_by_msku].
  - by constructor.
  - destruct (String.leb (msku x) (msku z)); constructor; [done|].
    by inversion Hl.
Qed.

Lemma insert_by_msku_sorted (x : item) (l : list item) :
  Sorted msku_le l → Sorted msku_le (insert_by_msku x l).
Proof.
  induction 1 as [|y l Hl IH Hhd]; cbn [insert_by_msku].
  - by repeat constructor.
  - destruct (String.leb (msku x) (msku y)) eqn:E.
    + constructor; [by constructor|]. by constructor.
    + constructor; [done|]. apply insert_by_msku_hd; [|done].
      unfold msku_le. destruct (String.leb_total (msku x) (msku y)); congruence.
Qed.

Lemma sort_by_msku_sorted (l : list item) : Sorted msku_le (sort_by_msku l).
Proof.
  induction l as [|x l IH]; [constructor|].
  by apply insert_by_msku_sorted.
Qed.

(** ** The tracking index *)

Lemma bind_ok {A B} (r : result A) (k : A → result B) (b : B) :
  r ≫= k = Ok b → ∃ a, r = Ok a ∧ k a = Ok b.
Proof. destruct r as [a|e]; [by exists a | discriminate]. Qed.

Lemma kept_not_sentinel (a : string) :
  kept a = true → a ≠ EmptyString ∧ a ∉ null_sentinels.
Proof.
  unfold kept. intros [H1 H2]%andb_true_iff.
  by apply bool_decide_eq_true_1 in H1, H2.
Qed.

Lemma index_row_ok (cols : list string) (st st' : index_state) (row : list cell) :
  index_row cols st row = Ok st' →
  ∃ a, row_awb cols row = Ok a ∧
    ((kept a = false ∧ st' = st) ∨
     (kept a = true ∧ ∃ e, row_entry cols row = Ok e ∧
        st' = (<[a := default [] (st.1 !! a) ++ [e]]> st.1, {[a]} ∪ st.2))).
Proof.
  unfold index_row. intros (a & Ha & H)%bind_ok. exists a. split; [done|].
  destruct (kept a); [right | left; split; congruence].
  split; [done|]. apply bind_ok in H as (e & He & H). exists e. split; [done|].
  injection H as <-. f_equal.
  destruct (st.1 !! a) as [l|] eqn:E.
  - by rewrite E.
  - by rewrite lookup_insert_eq, insert_insert_eq.
Qed.

Lemma index_rows_snoc (cols : list string) (rows : list (list cell)) (row : list cell) :
  index_rows cols (rows ++ [row]) = index_rows cols rows ≫= λ st, index_row cols st row.
Proof. unfold index_rows. by rewrite foldl_app. Qed.

Lemma entries_for_snoc (cols : list string) (k : string)
    (rows : list (list cell)) (row : list cell) :
  entries_for cols k (rows ++ [row]) = entries_for cols k rows ++ entries_for cols k [row].
Proof. unfold entries_for. by rewrite flat_map_app. Qed.

Lemma entries_for_none (cols : list string) (k : string) (rows : list (list cell)) :
  (∀ row, row ∈ rows → row_awb cols row ≠ Ok k) → entries_for cols k rows = [].
Proof.
  induction rows as [|row rows IH]; intros H; [done|].
  unfold entries_for in *. cbn [flat_map].
  rewrite IH by (intros r Hr; apply H; by right). rewrite app_nil_r.
  destruct (row_awb cols row) as [a|] eqn:E; [|done].
  destruct (row_entry cols row); [|done].
  destruct (decide (a = k)) as [->|]; [|done].
  exfalso. by apply (H row); [left|].
Qed.

Lemma index_rows_spec (cols : list string) (rows : list (list cell)) (st : index_state) :
  index_rows cols rows = Ok st → index_of cols rows st.
Proof.
  revert st. induction rows as [|row rows IH] using rev_ind; intros st.
  - intros [= <-]. split; cbn.
    + intros k. split; [set_solver|]. intros (r & Hr & _). by apply elem_of_nil in Hr.
    + intros k. rewrite lookup_empty. split; [by intros [? ?] | set_solver].
    + intros k l. by rewrite lookup_empty.
    + intros r Hr. by apply elem_of_nil in Hr.
  - rewrite index_rows_snoc. intros (st0 & Hst0 & Hrow)%bind_ok.
    specialize (IH st0 Hst0). destruct IH as [Hknown Hdom Hitems Hread].
    apply index_row_ok in Hrow as (a & Ha & [[Hk ->]|(Hk & e & He & ->)]).
    + split.
      * intros k. rewrite Hknown. split.
        -- intros (r & Hr & H). exists r. split; [|done]. apply elem_of_app. by left.
        -- intros (r & [Hr| ->%list_elem_of_singleton]%elem_of_app & Hrk & Hkk).
           ++ by exists r.
           ++ congruence.
      * done.
      * intros k l Hl. rewrite entries_for_snoc, (Hitems k l Hl).
        cbn. rewrite Ha. destruct (row_entry cols row); [|by rewrite app_nil_r].
        destruct (decide (a = k)) as [->|]; [|by rewrite app_nil_r].
        assert (k ∈ st0.2) as Hin by (apply Hdom; eauto).
        apply Hknown in Hin as (_ & _ & _ & ?). congruence.
      * intros r [Hr| ->%list_elem_of_singleton]%elem_of_app; [by apply Hread|].
        exists a. split; [done|]. congruence.
    + split; cbn [fst snd].
      * intros k. rewrite elem_of_union, elem_of_singleton, Hknown. split.
        -- intros [->|(r & Hr & H)].
           ++ exists row. split; [|done]. apply elem_of_app. right. by left.
           ++ exists r. split; [|done]. apply elem_of_app. by left.
        -- intros (r & [Hr| ->%list_elem_of_singleton]%elem_of_app & Hrk & Hkk).
           ++ right. by exists r.
           ++ left. congruence.
      * intros k. rewrite elem_of_union, elem_of_singleton, <- Hdom.
        destruct (decide (a = k)) as [->|Hne].
        -- rewrite lookup_insert_eq. split; eauto.
        -- rewrite lookup_insert_ne by done. split; [eauto|]. by intros [?|?].
      * intros k l. rewrite entries_for_snoc. cbn. rewrite Ha, He, app_nil_r.
        destruct (decide (a = k)) as [->|Hne].
        -- rewrite lookup_insert_eq. intros [= <-]. f_equal.
           destruct (st0.1 !! k) as [l0|] eqn:E; cbn; [by apply Hitems|].
           symmetry. apply entries_for_none. intros r Hr Hrk.
           assert (k ∈ st0.2) as Hin by (apply Hknown; eauto).
           apply Hdom in Hin as [? ?]. congruence.
        -- rewrite lookup_insert_ne, app_nil_r by done. apply Hitems.
      * intros r [Hr| ->%list_elem_of_singleton]%elem_of_app; [by apply Hread|].
        exists a. split; [done|]. eauto.
Qed.

Lemma build_index_ok (cols : list string) (rows : list (list cell))
    (idx : gmap string (list item)) (known : gset string) :
  build_index cols rows = Ok (idx, known) →
  ∃ st, index_rows cols rows = Ok st ∧ idx = sort_by_msku <$> st.1 ∧ known = st.2.
Proof.
  unfold build_index. intros (st & Hst & [= <- <-])%bind_ok. by exists st.
Qed.

Lemma build_index_lookup (cols : list string) (rows : list (list cell))
    (idx : gmap string (list item)) (known : gset string) (k : string) (l : list item) :
  build_index cols rows = Ok (idx, known) → idx !! k = Some l →
  l = sort_by_msku (entries_for cols k rows) ∧ k ∈ known.
Proof.
  intros (st & Hst & -> & ->)%build_index_ok. rewrite lookup_fmap.
  apply index_rows_spec in Hst as [_ Hdom Hitems _].
  destruct (st.1 !! k) as [l0|] eqn:E; [|discriminate]. intros [= <-].
  split; [by rewrite (Hitems k l0 E) | apply Hdom; eauto].
Qed.

Lemma build_index_dom (cols : list string) (rows : list (list cell))
    (idx : gmap string (list item)) (known : gset string) (k : string) :
  build_index cols rows = Ok (idx, known) → k ∈ known ↔ is_Some (idx !! k).
Proof.
  intros (st & Hst & -> & ->)%build_index_ok.
  apply index_rows_spec in Hst as [_ Hdom _ _].
  rewrite <- Hdom, lookup_fmap. apply symmetry, fmap_is_Some.
Qed.

Lemma build_index_known (cols : list string) (rows : list (list cell))
    (idx : gmap string (list item)) (known : gset string) (k : string) :
  build_index cols rows = Ok (idx, known) →
  k ∈ known ↔ ∃ row, row ∈ rows ∧ row_awb cols row = Ok k ∧ kept k = true.
Proof.
  intros (st & Hst & -> & ->)%build_index_ok.
  by apply index_rows_spec in Hst as [Hknown _ _ _].
Qed.

Lemma entries_for_elem (cols : list string) (rows : list (list cell))
    (row : list cell) (a : string) (e : item) :
  row ∈ rows → row_awb cols row = Ok a → row_entry cols row = Ok e →
  e ∈ entries_for cols a rows.
Proof.
  intros Hrow Ha He. apply list_elem_of_In, in_flat_map.
  exists row. split; [by apply list_elem_of_In|].
  rewrite Ha, He, decide_True by done. by left.
Qed.

Lemma not_kept (a : string) :
  a = EmptyString ∨ a ∈ ["NAN"; "NONE"; "NULL"] → kept a = false.
Proof.
  intros [->|H]; [reflexivity|].
  repeat (apply elem_of_cons in H as [->|H]; [reflexivity|]).
  by apply elem_of_nil in H.
Qed.

Section Index.
Context (cols : list string) (rows : list (list cell)).
Context (idx : gmap string (list item)) (known : gset string).
Hypothesis Hidx : build_index cols rows = Ok (idx, known).

Lemma build_index_key (k : string) :
  is_Some (idx !! k) →
  kept k = true ∧ ∃ row, row ∈ rows ∧ row_awb cols row = Ok k.
Proof.
  intros Hk. apply (build_index_dom _ _ _ _ k Hidx) in Hk.
  apply (build_index_known _ _ _ _ k Hidx) in Hk as (row & ? & ? & ?). eauto.
Qed.

Lemma build_index_sorted_perm (k : string) (l : list item) :
  idx !! k = Some l → Sorted msku_le l ∧ l ≡ₚ entries_for cols k rows.
Proof.
  intros Hl. destruct (build_index_lookup _ _ _ _ _ _ Hidx Hl) as [-> _].
  split; [apply sort_by_msku_sorted | apply sort_by_msku_perm].
Qed.

Lemma build_index_row_item (row : list cell) (a : string) :
  row ∈ rows → row_awb cols row = Ok a → kept a = true →
  ∃ l e, idx !! a = Some l ∧ row_entry cols row = Ok e ∧ e ∈ l.
Proof.
  intros Hrow Ha Hkept.
  assert (a ∈ known) as Hin by (apply (build_index_known _ _ _ _ a Hidx); eauto).
  apply (build_index_dom _ _ _ _ a Hidx) in Hin as [l Hl]. exists l.
  destruct (build_index_ok _ _ _ _ Hidx) as (st & Hst & _ & _).
  apply index_rows_spec in Hst as [_ _ _ Hread].
  destruct (Hread row Hrow) as (a' & Ha' & He).
  assert (a' = a) as -> by congruence. destruct (He Hkept) as [e Hentry].
  exists e. split_and!; [done..|].
  destruct (build_index_sorted_perm a l Hl) as [_ ->]. by eapply entries_for_elem.
Qed.

Lemma build_index_row_order (rows' : list (list cell))
    (idx' : gmap string (list item)) (known' : gset string) :
  rows' ≡ₚ rows → build_index cols rows' = Ok (idx', known') →
  known' = known ∧ ∀ k, option_Forall2 (≡ₚ) (idx' !! k) (idx !! k).
Proof.
  intros Hrows Hidx'.
  assert (Hknown : known' = known).
  { apply set_eq. intros k.
    rewrite (build_index_known _ _ _ _ k Hidx), (build_index_known _ _ _ _ k Hidx').
    by setoid_rewrite Hrows. }
  split; [done|]. intros k.
  destruct (idx' !! k) as [l'|] eqn:E'; destruct (idx !! k) as [l|] eqn:E.
  - constructor.
    destruct (build_index_lookup _ _ _ _ _ _ Hidx E) as [-> _].
    destruct (build_index_lookup _ _ _ _ _ _ Hidx' E') as [-> _].
    rewrite !sort_by_msku_perm. unfold entries_for.
    by apply Permutation_flat_map.
  - exfalso.
    assert (k ∈ known') as Hin by (apply (build_index_dom _ _ _ _ k Hidx'); eauto).
    rewrite Hknown in Hin. apply (build_index_dom _ _ _ _ k Hidx) in Hin as [? ?].
    congruence.
  - exfalso.
    assert (k ∈ known) as Hin by (apply (build_index_dom _ _ _ _ k Hidx); eauto).
    rewrite <- Hknown in Hin. apply (build_index_dom _ _ _ _ k Hidx') in Hin as [? ?].
    congruence.
  - constructor.
Qed.

End Index.

(** C7. In the index built from a spreadsheet, a row whose trimmed,
    upper-cased tracking value is empty or one of NAN, NONE, NULL is left
    out: such a value is never a key and every key is another value. The
    item of every other row is under the key of its tracking number; the
    list under a key holds exactly the items of the rows with that tracking
    number and ascends by SKU. In another order of the rows the keys are
    the same, each with the same items. *)
Theorem tracking_index_grouped_sorted
    (cols : list string) (rows : list (list cell))
    (idx : gmap string (list item)) (known : gset string)
    (Hidx : build_index cols rows = Ok (idx, known)) :
  (∀ a, a = EmptyString ∨ a ∈ ["NAN"; "NONE"; "NULL"] → idx !! a = None) ∧
  (∀ k, is_Some (idx !! k) →
     k ≠ EmptyString ∧ (k ∉ ["NAN"; "NONE"; "NULL"]) ∧
     ∃ row, row ∈ rows ∧ row_awb cols row = Ok k) ∧
  (∀ row a, row ∈ rows → row_awb cols row = Ok a → kept a = true →
     ∃ l e, idx !! a = Some l ∧ row_entry cols row = Ok e ∧ e ∈ l) ∧
  (∀ k l, idx !! k = Some l →
     Sorted msku_le l ∧ l ≡ₚ entries_for cols k rows) ∧
  (∀ rows' idx' known', rows' ≡ₚ rows →
     build_index cols rows' = Ok (idx', known') →
     known' = known ∧
     ∀ k, option_Forall2 (≡ₚ) (idx' !! k) (idx !! k)).
Proof.
  split_and!.
  - intros a Ha. destruct (idx !! a) as [l|] eqn:E; [|done].
    destruct (build_index_key _ _ _ _ Hidx a) as [Hk _]; [eauto|].
    by rewrite not_kept in Hk.
  - intros k Hk. destruct (build_index_key _ _ _ _ Hidx k Hk) as [Hkept Hrow].
    apply kept_not_sentinel in Hkept as [Hne Hns].
    split_and!; [done | | done].
    intros Hin. apply Hns. unfold null_sentinels.
    repeat (apply elem_of_cons in Hin as [->|Hin]; [by_eval|]).
    by apply elem_of_nil in Hin.
  - apply (build_index_row_item _ _ _ _ Hidx).
  - apply (build_index_sorted_perm _ _ _ _ Hidx).
  - apply (build_index_row_order _ _ _ _ Hidx).
Qed.

Lemma tracking_index_grouped_sorted_witness :
  let cols := ["AWB/No. Tracking"; "MSKU"; "Jumlah"] in
  let rows := [ [CStr " jt1234567890123"; CStr "SKU-B"; CInt 1];
                [CNaN; CStr "SKU-X"; CInt 4];
                [CStr "JT1234567890123 "; CStr "SKU-A"; CFloat 2 "2.0"] ] in
  let l := [ {| msku := "SKU-A"; jumlah := 2 |}; {| msku := "SKU-B"; jumlah := 1 |} ] in
  build_index cols rows = Ok ({[ "JT1234567890123" := l ]}, {[ "JT1234567890123" ]}) ∧
  Sorted msku_le l ∧ l ≡ₚ entries_for cols "JT1234567890123" rows.
Proof.
  intros cols rows l.
  assert (H : build_index cols rows
              = Ok ({[ "JT1234567890123" := l ]}, {[ "JT1234567890123" ]}))
    by reflexivity.
  split; [exact H|].
  apply (proj1 (proj2 (proj2 (proj2 (tracking_index_grouped_sorted _ _ _ _ H))))
           "JT1234567890123" l).
  apply lookup_singleton_eq.
Defined.

(** ** Quantities *)

Lemma column_index_elem (name : string) (cols : list string) :
  name ∈ cols → ∃ i, column_index name cols = Some i.
Proof.
  induction cols as [|c cols IH]; [by intros ?%elem_of_nil|].
  intros Hin. cbn. destruct (decide (c = name)) as [|Hne]; [eauto|].
  apply elem_of_cons in Hin as [->|Hin]; [done|].
  destruct (IH Hin) as [i ->]. eauto.
Qed.

Lemma row_get_present (cols : list string) (row : list cell) (name : string) :
  name ∈ cols → ∃ x, row_get cols row name = Ok x.
Proof.
  intros [i Hi]%column_index_elem. unfold row_get. rewrite Hi. eauto.
Qed.

Lemma missing_columns_nil (cols : list string) (name : string) :
  missing_columns cols = [] → name ∈ required_cols → name ∈ cols.
Proof.
  intros Hmiss Hreq. destruct (decide (name ∈ cols)) as [|Hnin]; [done|].
  assert (In name (missing_columns cols)) as Hin.
  { apply filter_In. split; [by apply list_elem_of_In|].
    by apply bool_decide_eq_true_2. }
  rewrite Hmiss in Hin. destruct Hin.
Qed.

(** C5, as the code has it. A row whose quantity cell is blank gets the
    quantity 1: on such a row the loop body does not fail, and in the
    index built from the spreadsheet the row's item, with quantity 1, is
    under the row's tracking number. *)
Theorem blank_quantity_defaults_to_one
    (cols : list string) (row : list cell) (quantity : cell)
    (Hcols : missing_columns cols = [])
    (Hquantity : row_get cols row "Jumlah" = Ok quantity)
    (Hblank : notna quantity = false) :
  ∃ sku,
    row_get cols row "MSKU" = Ok sku ∧
    row_entry cols row = Ok {| msku := str_of_cell sku; jumlah := 1 |} ∧
    (∀ st : index_state, ∃ st', index_row cols st row = Ok st') ∧
    (∀ rows idx known a,
       build_index cols rows = Ok (idx, known) →
       row ∈ rows → row_awb cols row = Ok a → kept a = true →
       ∃ l, idx !! a = Some l ∧ {| msku := str_of_cell sku; jumlah := 1 |} ∈ l).
Proof.
  destruct (row_get_present cols row "MSKU") as [sku Hsku].
  { apply missing_columns_nil; [done | by_eval]. }
  destruct (row_get_present cols row "AWB/No. Tracking") as [tracking Htracking].
  { apply missing_columns_nil; [done | by_eval]. }
  assert (Hentry : row_entry cols row = Ok {| msku := str_of_cell sku; jumlah := 1 |}).
  { unfold row_entry. rewrite Hsku, Hquantity. cbn. by rewrite Hblank. }
  exists sku. split_and!; [done | done | |].
  - intros st. unfold index_row, row_awb. rewrite Htracking. cbn.
    destruct (kept _); [|eauto]. rewrite Hentry. cbn. eauto.
  - intros rows idx known a Hidx Hrow Ha Hkept.
    destruct (build_index_row_item _ _ _ _ Hidx row a Hrow Ha Hkept)
      as (l & e & Hl & He & Hin).
    exists l. split; [done|]. congruence.
Qed.

Lemma blank_quantity_defaults_to_one_witness :
  ∃ sku,
    row_get ["AWB/No. Tracking"; "MSKU"; "Jumlah"]
      [CStr "JT1234567890123"; CStr "SKU-A"; CNaN] "MSKU" = Ok sku ∧
    row_entry ["AWB/No. Tracking"; "MSKU"; "Jumlah"]
      [CStr "JT1234567890123"; CStr "SKU-A"; CNaN]
    = Ok {| msku := str_of_cell sku; jumlah := 1 |}.
Proof.
  destruct (blank_quantity_defaults_to_one
              ["AWB/No. Tracking"; "MSKU"; "Jumlah"]
              [CStr "JT1234567890123"; CStr "SKU-A"; CNaN] CNaN
              eq_refl eq_refl eq_refl) as (sku & H1 & H2 & _).
  exists sku. split; assumption.
Defined.

(** C5, as stated, fails: a quantity cell holding a text that is not a
    number does not default to 1, the request fails on it. *)
Lemma non_numeric_quantity_fails :
  let df := {| columns := ["AWB"; "SKU"; "Qty"];
               rows := [ [CStr "JT1234567890123"; CStr "SKU-A"; CStr "two"] ] |} in
  let cols := normalize_columns (columns df) in
  missing_columns cols = [] ∧
  row_get cols [CStr "JT1234567890123"; CStr "SKU-A"; CStr "two"] "Jumlah"
    = Ok (CStr "two") ∧
  Py.int_of_str "two" = None ∧
  row_entry cols [CStr "JT1234567890123"; CStr "SKU-A"; CStr "two"]
    = Raise (Builtin (ValueError "two")) ∧
  build_index cols (rows df) = Raise (Builtin (ValueError "two")) ∧
  process_labels elements no_faults (Parsed df)
    [Parsed [ {| page_text := "JT1234567890123"; page_blocks := [];
                 rect_width := 595; rect_height := 842 |} ]]
  = Raise (HTTPException 500 (StrOf (ValueError "two"))).
Proof. cbv zeta. split_and!; reflexivity. Qed.

(** ** Required columns *)

Lemma rename_elem (alt target_col x : string) (cols : list string) :
  x ∈ rename alt target_col cols → x = target_col ∨ x ∈ cols.
Proof.
  unfold rename. intros (c & -> & Hc)%list_elem_of_fmap.
  destruct (decide (c = alt)); eauto.
Qed.

Lemma resolve_column_elem (cols : list string) (target_col x : string)
    (alternatives : list string) :
  x ∈ resolve_column cols (target_col, alternatives) → x = target_col ∨ x ∈ cols.
Proof.
  cbn. destruct (decide (target_col ∈ cols)); [eauto|].
  destruct (List.find _ alternatives); [apply rename_elem | eauto].
Qed.

Section Absent.
Variables (aliases : list string) (cols : list string).
Hypothesis Habsent : ∀ alias, alias ∈ aliases → alias ∉ cols.

Lemma resolve_other (target_col : string) (alternatives : list string) :
  target_col ∉ aliases →
  ∀ alias, alias ∈ aliases →
    alias ∉ resolve_column cols (target_col, alternatives).
Proof.
  intros Ht alias Halias [->|Hin]%resolve_column_elem; [done|].
  by apply (Habsent alias).
Qed.

Lemma resolve_own (target_col : string) :
  target_col ∈ aliases → resolve_column cols (target_col, aliases) = cols.
Proof.
  intros Ht. cbn. rewrite decide_False by by apply Habsent.
  destruct (List.find _ aliases) as [alt|] eqn:E; [|done].
  apply find_some in E as [Hin Hcols].
  apply bool_decide_eq_true_1 in Hcols.
  by apply list_elem_of_In, Habsent in Hin.
Qed.

End Absent.

Lemma normalize_columns_absent (target_col : string) (aliases cols : list string) :
  (target_col, aliases) ∈ col_mapping →
  (∀ alias, alias ∈ aliases → alias ∉ cols) →
  target_col ∉ normalize_columns cols.
Proof.
  intros Hentry Habsent. unfold normalize_columns, col_mapping in *. cbn [foldl].
  repeat (apply elem_of_cons in Hentry as [[= -> ->]|Hentry]);
    [| | | by apply elem_of_nil in Hentry].
  - rewrite (resolve_own _ cols Habsent) by by_eval.
    pose proof (resolve_other _ cols Habsent "MSKU"
                  ["MSKU"; "SKU"; "Nama SKU"; "Product SKU"; "Master SKU"]
                  ltac:(by_eval)) as H1.
    pose proof (resolve_other _ _ H1 "Jumlah" ["Jumlah"; "Qty"; "Quantity"; "QTY"]
                  ltac:(by_eval)) as H2.
    apply H2. by_eval.
  - pose proof (resolve_other _ cols Habsent "AWB/No. Tracking"
                  ["AWB/No. Tracking"; "AWB"; "No. Tracking"; "Tracking Number";
                   "Resi"; "No Resi"] ltac:(by_eval)) as H1.
    rewrite (resolve_own _ _ H1) by by_eval.
    pose proof (resolve_other _ _ H1 "Jumlah" ["Jumlah"; "Qty"; "Quantity"; "QTY"]
                  ltac:(by_eval)) as H2.
    apply H2. by_eval.
  - pose proof (resolve_other _ cols Habsent "AWB/No. Tracking"
                  ["AWB/No. Tracking"; "AWB"; "No. Tracking"; "Tracking Number";
                   "Resi"; "No Resi"] ltac:(by_eval)) as H1.
    pose proof (resolve_other _ _ H1 "MSKU"
                  ["MSKU"; "SKU"; "Nama SKU"; "Product SKU"; "Master SKU"]
                  ltac:(by_eval)) as H2.
    rewrite (resolve_own _ _ H2) by by_eval.
    apply H2. by_eval.
Qed.

Lemma missing_columns_named (cols : list string) (c : string) :
  c ∈ missing_columns cols →
  Py.contains c ("Kolom tidak ditemukan: " ++ Py.repr_list (missing_columns cols))
  = true.
Proof.
  unfold missing_columns, required_cols. cbn [List.filter].
  repeat (destruct (bool_decide _));
    intros H; repeat (apply elem_of_cons in H as [->|H]; [vm_compute; reflexivity|]);
    by apply elem_of_nil in H.
Qed.

(** C9. When some required column is in the spreadsheet under none of
    its aliases, the request fails with status 400; the detail lists the
    canonical names that are missing after the aliases were resolved, the
    name of that column among them, and no PDF is returned. *)
Theorem missing_column_rejected
    (set_iter : gset string → list string) (lib : library)
    (df : DataFrame) (pdf_files : list (upload (list pdf_page)))
    (target_col : string) (aliases : list string)
    (Hentry : (target_col, aliases) ∈ col_mapping)
    (Habsent : ∀ alias, alias ∈ aliases → alias ∉ columns df) :
  ∃ (missing : list string) (message : string),
    process_labels set_iter lib (Parsed df) pdf_files
      = Raise (HTTPException 400 (Message message)) ∧
    message = ("Kolom tidak ditemukan: " ++ Py.repr_list missing)%string ∧
    missing = missing_columns (normalize_columns (columns df)) ∧
    target_col ∈ missing ∧
    (∀ c, c ∈ missing →
       c ∈ required_cols ∧ (c ∉ normalize_columns (columns df)) ∧
       Py.contains c message = true) ∧
    (∀ master_doc, process_labels set_iter lib (Parsed df) pdf_files ≠ Ok master_doc).
Proof.
  pose proof (normalize_columns_absent _ _ _ Hentry Habsent) as Hnot.
  assert (Hreq : target_col ∈ required_cols).
  { unfold col_mapping in Hentry.
    repeat (apply elem_of_cons in Hentry as [[= -> ->]|Hentry]);
      [by_eval.. | by apply elem_of_nil in Hentry]. }
  assert (Hin : target_col ∈ missing_columns (normalize_columns (columns df))).
  { apply list_elem_of_In, filter_In. split; [by apply list_elem_of_In|].
    by apply bool_decide_eq_true_2. }
  assert (Hrun : process_labels set_iter lib (Parsed df) pdf_files
            = Raise (HTTPException 400
                (Message ("Kolom tidak ditemukan: " ++
                   Py.repr_list (missing_columns (normalize_columns (columns df))))))).
  { unfold process_labels, process_labels_body. cbn [read mbind result_bind].
    rewrite bool_decide_eq_false_2; [done|].
    intros Hnil. rewrite Hnil in Hin. by apply elem_of_nil in Hin. }
  eexists _, _. split_and!; [exact Hrun | done | done | done | | ].
  - intros c Hc. split_and!; [| |by apply missing_columns_named].
    + apply list_elem_of_In, filter_In in Hc as [Hc _]. by apply list_elem_of_In.
    + apply list_elem_of_In, filter_In in Hc as [_ Hc].
      by apply bool_decide_eq_true_1 in Hc.
  - intros master_doc. by rewrite Hrun.
Qed.

Lemma missing_column_rejected_witness :
  ∃ (missing : list string) (message : string),
    process_labels elements no_faults
      (Parsed {| columns := ["Nomor"; "SKU"; "Qty"];
                 rows := [ [CStr "JT1234567890123"; CStr "SKU-A"; CInt 1] ] |}) []
      = Raise (HTTPException 400 (Message message)) ∧
    message = ("Kolom tidak ditemukan: " ++ Py.repr_list missing)%string ∧
    missing = missing_columns (normalize_columns ["Nomor"; "SKU"; "Qty"]) ∧
    "AWB/No. Tracking" ∈ missing.
Proof.
  destruct (missing_column_rejected elements no_faults
              {| columns := ["Nomor"; "SKU"; "Qty"];
                 rows := [ [CStr "JT1234567890123"; CStr "SKU-A"; CInt 1] ] |} []
              "AWB/No. Tracking"
              ["AWB/No. Tracking"; "AWB"; "No. Tracking"; "Tracking Number";
               "Resi"; "No Resi"])
    as (missing & message & H1 & H2 & H3 & H4 & _).
  - by_eval.
  - intros alias Halias.
    repeat (apply elem_of_cons in Halias as [->|Halias]; [by_eval|]).
    by apply elem_of_nil in Halias.
  - exists missing, message. repeat split; assumption.
Defined.

Example missing_column_message :
  process_labels elements no_faults
    (Parsed {| columns := ["Nomor"; "SKU"; "Qty"];
               rows := [ [CStr "JT1234567890123"; CStr "SKU-A"; CInt 1] ] |}) []
  = Raise (HTTPException 400 (Message "Kolom tidak ditemukan: ['AWB/No. Tracking']")).
Proof. reflexivity. Qed.

(** The column check comes before the PDFs are opened: with a column
    missing the answer is 400 also when a PDF cannot be read. *)
Example missing_column_before_pdf :
  process_labels elements no_faults
    (Parsed {| columns := ["Nomor"; "SKU"; "Qty"]; rows := [] |})
    [Failed (LibraryError "cannot open broken document")]
  = Raise (HTTPException 400 (Message "Kolom tidak ditemukan: ['AWB/No. Tracking']")).
Proof. reflexivity. Qed.

(** ** Candidate extraction *)

Lemma collect_candidates_concat (text : string) :
  collect_candidates text
  = concat (map (λ p, map Py.upper (Re.findall p text)) patterns).
Proof.
  unfold collect_candidates.
  assert (H : ∀ (ps : list Re.pattern) (acc : list string),
            foldl (λ candidates pattern,
                     candidates ++ map Py.upper (Re.findall pattern text)) acc ps
            = acc ++ concat (map (λ p, map Py.upper (Re.findall p text)) ps)).
  { induction ps as [|p ps IH]; intros acc; cbn [foldl map concat].
    - by rewrite app_nil_r.
    - by rewrite IH, app_assoc. }
  apply (H patterns []).
Qed.

Lemma unique_loop (l : list string) (seen : gset string) (unique : list string) :
  (foldl unique_step (seen, unique) l).2 = unique ++ first_seen seen l.
Proof.
  revert seen unique. induction l as [|c l IH]; intros seen unique; cbn [foldl first_seen].
  - by rewrite app_nil_r.
  - unfold unique_step at 2. cbn [fst snd].
    destruct (decide (c ∈ seen)); [apply IH|].
    by rewrite IH, <- app_assoc.
Qed.

Lemma first_seen_elem (l : list string) (seen : gset string) (x : string) :
  x ∈ first_seen seen l ↔ x ∈ l ∧ x ∉ seen.
Proof.
  revert seen. induction l as [|c l IH]; intros seen; cbn [first_seen].
  - split; [by intros ?%elem_of_nil | by intros [?%elem_of_nil _]].
  - destruct (decide (c ∈ seen)) as [Hc|Hc].
    + rewrite IH, elem_of_cons. split; [tauto|].
      intros [[->|?] ?]; [done | eauto].
    + rewrite !elem_of_cons, IH, elem_of_union, elem_of_singleton.
      destruct (decide (x = c)) as [->|]; tauto.
Qed.

Lemma first_seen_NoDup (l : list string) (seen : gset string) :
  NoDup (first_seen seen l).
Proof.
  revert seen. induction l as [|c l IH]; intros seen; cbn [first_seen].
  - constructor.
  - destruct (decide (c ∈ seen)); [apply IH|].
    constructor; [|apply IH]. rewrite first_seen_elem.
    intros [_ H]. apply H, elem_of_union. left. by apply elem_of_singleton.
Qed.

Lemma first_seen_order (l : list string) (seen : gset string)
    (u1 u2 u3 : list string) (x y : string) :
  first_seen seen l = u1 ++ x :: u2 ++ y :: u3 →
  ∃ l1 l2, l = l1 ++ x :: l2 ∧ (x ∉ l1) ∧ (y ∉ l1) ∧ y ∈ l2.
Proof.
  revert seen u1. induction l as [|c l IH]; intros seen u1; cbn [first_seen].
  - by destruct u1.
  - intros Heq.
    assert (Hx : x ∈ first_seen seen (c :: l) ∧ y ∈ first_seen seen (c :: l)).
    { cbn [first_seen]. rewrite Heq. split.
      - apply elem_of_app. right. by left.
      - apply elem_of_app. right. right. apply elem_of_app. right. by left. }
    destruct Hx as [[_ Hxs]%first_seen_elem [_ Hys]%first_seen_elem].
    destruct (decide (c ∈ seen)) as [Hc|Hc].
    + destruct (IH seen u1 Heq) as (l1 & l2 & -> & Hx1 & Hy1 & Hy2).
      exists (c :: l1), l2. split_and!; [done | | | done].
      * intros [->|?]%elem_of_cons; done.
      * intros [->|?]%elem_of_cons; done.
    + destruct u1 as [|c' u1]; cbn [app] in Heq; injection Heq as -> Heq.
      * exists [], l. split_and!; [done | by intros ?%elem_of_nil.. |].
        assert (y ∈ first_seen ({[x]} ∪ seen) l) as [Hy _]%first_seen_elem; [|done].
        rewrite Heq. apply elem_of_app. right. by left.
      * assert (Hin : x ∈ first_seen ({[c']} ∪ seen) l ∧ y ∈ first_seen ({[c']} ∪ seen) l).
        { rewrite Heq. split.
          - apply elem_of_app. right. by left.
          - apply elem_of_app. right. right. apply elem_of_app. right. by left. }
        destruct Hin as [[_ Hxc]%first_seen_elem [_ Hyc]%first_seen_elem].
        destruct (IH _ u1 Heq) as (l1 & l2 & -> & Hx1 & Hy1 & Hy2).
        exists (c' :: l1), l2. split_and!; [done | | | done].
        -- intros [->|?]%elem_of_cons; [set_solver | done].
        -- intros [->|?]%elem_of_cons; [set_solver | done].
Qed.

Lemma first_seen_fixed (u : list string) (seen : gset string) :
  NoDup u → (∀ x, x ∈ u → x ∉ seen) → first_seen seen u = u.
Proof.
  intros Hnd. revert seen. induction Hnd as [|c u Hc Hnd IH]; intros seen Hseen; [done|].
  cbn [first_seen]. rewrite decide_False by (apply Hseen; by left).
  f_equal. apply IH. intros x Hx. rewrite elem_of_union, elem_of_singleton.
  intros [->|Hs]; [done|]. apply (Hseen x); [by right | done].
Qed.

Lemma extract_all_awb_candidates_first_seen (text : string) :
  extract_all_awb_candidates text = first_seen ∅ (collect_candidates text).
Proof. unfold extract_all_awb_candidates. by rewrite unique_loop. Qed.

(** C8. The extracted sequence is upper-cased and without duplicates; it
    holds exactly the upper-cased matches of the patterns, in the order of
    their first occurrence in the concatenation of the pattern passes: when
    [x] comes before [y] in the result, [x] occurs among the matches
    before any occurrence of [y]. Extraction is a function of the text
    alone, so that running it again on the same text gives the same
    sequence, and de-duplicating its result again changes nothing. *)
Theorem extraction_unique_ordered (text : string) :
  let candidates := concat (map (λ p, map Py.upper (Re.findall p text)) patterns) in
  let unique := extract_all_awb_candidates text in
  Forall (λ c, Py.upper c = c) unique ∧
  NoDup unique ∧
  (∀ c, c ∈ unique ↔ c ∈ candidates) ∧
  (∀ u1 x u2 y u3, unique = u1 ++ x :: u2 ++ y :: u3 →
     ∃ l1 l2, candidates = l1 ++ x :: l2 ∧ (x ∉ l1) ∧ (y ∉ l1) ∧ y ∈ l2) ∧
  (∀ text', text' = text → extract_all_awb_candidates text' = unique) ∧
  (foldl unique_step (∅, []) unique).2 = unique.
Proof.
  cbv zeta. rewrite extract_all_awb_candidates_first_seen, collect_candidates_concat.
  set (candidates := concat _).
  assert (Hmem : ∀ c, c ∈ first_seen ∅ candidates ↔ c ∈ candidates).
  { intros c. rewrite first_seen_elem.
    split; [by intros [? _] | intros ?; split; [done | apply not_elem_of_empty]]. }
  split_and!.
  - apply Forall_forall. intros c [Hc%list_elem_of_In _]%first_seen_elem.
    apply in_concat in Hc as (ms & Hms & Hc).
    apply in_map_iff in Hms as (p & <- & _).
    apply in_map_iff in Hc as (m & <- & _). apply upper_idemp.
  - apply first_seen_NoDup.
  - exact Hmem.
  - intros u1 x u2 y u3. apply first_seen_order.
  - intros text' ->.
    by rewrite extract_all_awb_candidates_first_seen, collect_candidates_concat.
  - rewrite unique_loop. cbn [app]. apply first_seen_fixed.
    + apply first_seen_NoDup.
    + intros x _. apply not_elem_of_empty.
Qed.

Example extract_spx :
  extract_all_awb_candidates
    "Resi: spxid123456789012 / JT1234567890123, order 260108ENX0N8NS SPXID123456789012"
  = ["SPXID123456789012"; "260108ENX0N8NS"; "JT1234567890123"].
Proof. vm_compute. reflexivity. Qed.

Example extract_general_backtracks :
  extract_all_awb_candidates "ab-ABCDE123456789012 lex12345678901 ZZ_JX123456789012345"
  = ["LEX12345678901"].
Proof. vm_compute. reflexivity. Qed.

(** ** The composed document *)

Lemma draw_all_ok (lib : library) (pages : list out_page) :
  draw_all lib pages = Ok () ↔ Forall (λ p, draw_error lib p = None) pages.
Proof.
  induction pages as [|p pages IH]; cbn [draw_all].
  - split; [constructor | done].
  - destruct (draw_error lib p) as [e|] eqn:E; cbn [check mbind result_bind].
    + split; [discriminate|]. intros [H _]%Forall_cons. rewrite E in H. discriminate.
    + rewrite IH. split; [by constructor | by intros [_ H]%Forall_cons].
Qed.

Lemma draw_all_raise (lib : library) (pages : list out_page) (e : exn) :
  draw_all lib pages = Raise e → ∃ b, e = Builtin b.
Proof.
  induction pages as [|p pages IH]; cbn [draw_all]; [discriminate|].
  destruct (draw_error lib p) as [b|]; cbn [check mbind result_bind]; [|exact IH].
  intros [= <-]. eauto.
Qed.

Lemma add_page_raise (lib : library) (awb_to_items : gmap string (list item))
    (e : exn) (all_pages : list page_info) :
  foldl (add_page lib awb_to_items) (Raise e) all_pages = Raise e.
Proof. induction all_pages as [|info l IH]; [done | exact IH]. Qed.

Lemma add_page_inv (lib : library) (awb_to_items : gmap string (list item))
    (acc : list out_page) (info : page_info) :
  (∃ pages, render_page awb_to_items info = Ok pages ∧ draw_all lib pages = Ok () ∧
            add_page lib awb_to_items (Ok acc) info = Ok (acc ++ pages)) ∨
  (¬ page_added lib awb_to_items info ∧
   ∃ b, add_page lib awb_to_items (Ok acc) info = Raise (Builtin b)).
Proof.
  unfold add_page, page_added. cbn [mbind result_bind].
  destruct (render_page awb_to_items info) as [pages|e] eqn:Hr; cbn [mbind result_bind].
  - destruct (draw_all lib pages) as [[]|e] eqn:Hd; cbn [mbind result_bind].
    + left. by exists pages.
    + right. split.
      * intros (pages' & [= <-] & Hd'). rewrite Hd in Hd'. discriminate.
      * destruct (draw_all_raise _ _ _ Hd) as [b ->]. eauto.
  - right. split; [by intros (pages' & [=] & _)|].
    unfold render_page in Hr. destruct (awb info) as [a|]; [|discriminate].
    destruct (passthrough _ _); [discriminate|].
    destruct (calculate_available_rows _ _ _ _) as [r|e'] eqn:Hc;
      cbn [mbind result_bind] in Hr; [discriminate|].
    injection Hr as <-. apply calculate_available_rows_raise in Hc as ->. eauto.
Qed.

Lemma compose_from (lib : library) (awb_to_items : gmap string (list item))
    (all_pages : list page_info) (acc master_doc : list out_page) :
  foldl (add_page lib awb_to_items) (Ok acc) all_pages = Ok master_doc ↔
  Forall (page_added lib awb_to_items) all_pages ∧
  master_doc = acc ++ flat_map (pages_of awb_to_items) all_pages.
Proof.
  revert acc. induction all_pages as [|info l IH]; intros acc; cbn [foldl flat_map].
  - rewrite app_nil_r. split; [by intros [= <-] | by intros [_ ->]].
  - destruct (add_page_inv lib awb_to_items acc info)
      as [(pages & Hr & Hd & ->)|(Hnot & b & ->)].
    + rewrite IH, (render_page_ok _ _ _ Hr), app_assoc. split.
      * intros [Hl ->]. split; [|done]. constructor; [by exists pages | done].
      * intros [[_ Hl]%Forall_cons ->]. done.
    + rewrite add_page_raise. split; [discriminate|].
      by intros [[H _]%Forall_cons _].
Qed.

Lemma compose_pages (lib : library) (awb_to_items : gmap string (list item))
    (all_pages : list page_info) (master_doc : list out_page) :
  compose lib awb_to_items all_pages = Ok master_doc ↔
  Forall (page_added lib awb_to_items) all_pages ∧
  master_doc = flat_map (pages_of awb_to_items) all_pages.
Proof. apply (compose_from lib awb_to_items all_pages []). Qed.

Lemma compose_raise (lib : library) (awb_to_items : gmap string (list item))
    (all_pages : list page_info) (e : exn) :
  compose lib awb_to_items all_pages = Raise e → ∃ b, e = Builtin b.
Proof.
  unfold compose. generalize (@nil out_page).
  induction all_pages as [|info l IH]; intros acc; cbn [foldl]; [discriminate|].
  destruct (add_page_inv lib awb_to_items acc info)
    as [(pages & _ & _ & ->)|(_ & b & ->)]; [apply IH|].
  rewrite add_page_raise. intros [= <-]. eauto.
Qed.

Lemma render_page_nonempty (awb_to_items : gmap string (list item)) (info : page_info)
    (pages : list out_page) :
  render_page awb_to_items info = Ok pages → (1 ≤ length pages)%nat.
Proof.
  intros [[_ ->]|(a & r & _ & _ & _ & ->)]%render_page_cases; [cbn; lia|].
  rewrite length_imap. unfold paginate. destruct (_ <=? _); cbn; lia.
Qed.

Lemma pages_of_copied (awb_to_items : gmap string (list item)) (info : page_info) :
  passthrough awb_to_items (awb info) = true →
  pages_of awb_to_items info = [Copied (doc info) (page_num info)].
Proof. intros H. unfold pages_of. by rewrite render_page_copied. Qed.

Lemma flat_map_pages_length (lib : library) (awb_to_items : gmap string (list item))
    (pages : list page_info) :
  Forall (page_added lib awb_to_items) pages →
  (length pages ≤ length (flat_map (pages_of awb_to_items) pages))%nat ∧
  (Forall (λ info, passthrough awb_to_items (awb info) = true) pages →
   length (flat_map (pages_of awb_to_items) pages) = length pages).
Proof.
  induction pages as [|info pages IH]; [done|].
  intros [(ps & Hr & _) [IH1 IH2]%IH]%Forall_cons.
  cbn [flat_map]. rewrite length_app. cbn [length].
  pose proof (render_page_nonempty _ _ _ Hr) as Hlen.
  rewrite (render_page_ok _ _ _ Hr). split; [lia|].
  intros [Hinfo Hpages]%Forall_cons.
  rewrite <- (render_page_ok _ _ _ Hr), pages_of_copied, IH2 by done. reflexivity.
Qed.

Lemma scan_pages_elem (known_awbs : list string) (pdf_files : list (list pdf_page))
    (info : page_info) :
  info ∈ scan_pages known_awbs pdf_files →
  ∃ pages page,
    pdf_files !! doc info = Some pages ∧ pages !! page_num info = Some page ∧
    info = scan_page known_awbs (doc info) (page_num info) page.
Proof.
  unfold scan_pages. intros Hin%list_elem_of_In.
  apply in_concat in Hin as (l & Hl%list_elem_of_In & Hin%list_elem_of_In).
  apply elem_of_lookup_imap in Hl as (d & pages & -> & Hpages).
  apply elem_of_lookup_imap in Hin as (n & page & -> & Hpage).
  exists pages, page. done.
Qed.

Lemma open_all_parsed (pdf_files : list (list pdf_page)) :
  open_all (map Parsed pdf_files) = Ok pdf_files.
Proof.
  induction pdf_files as [|pages l IH]; [done|].
  cbn [map open_all read mbind result_bind]. by rewrite IH.
Qed.

Lemma open_all_raise (pdf_files : list (upload (list pdf_page))) (e : exn) :
  open_all pdf_files = Raise e → ∃ b, e = Builtin b.
Proof.
  induction pdf_files as [|[pages|b] l IH]; cbn [open_all read mbind result_bind];
    [discriminate | | intros [= <-]; eauto].
  destruct (open_all l) as [docs|e']; cbn [mbind result_bind]; [discriminate|].
  intros [= <-]. by apply IH.
Qed.

(** What a request that returns a document went through. *)
Lemma process_labels_ok (set_iter : gset string → list string) (lib : library)
    (excel_file : upload DataFrame) (pdf_files : list (upload (list pdf_page)))
    (master_doc : list out_page) :
  process_labels set_iter lib excel_file pdf_files = Ok master_doc →
  ∃ df docs idx known,
    excel_file = Parsed df ∧
    missing_columns (normalize_columns (columns df)) = [] ∧
    build_index (normalize_columns (columns df)) (rows df) = Ok (idx, known) ∧
    open_all pdf_files = Ok docs ∧
    new_document lib = None ∧
    compose lib idx (scan_pages (set_iter known) docs) = Ok master_doc ∧
    master_doc ≠ [] ∧
    save_error lib master_doc = None.
Proof.
  unfold process_labels, process_labels_body.
  destruct excel_file as [df|b]; cbn [read mbind result_bind]; [|discriminate].
  remember (normalize_columns (columns df)) as cols eqn:Hcols.
  remember (missing_columns cols) as missing eqn:Hmissing.
  destruct (decide (missing = [])) as [Hm|Hm];
    [rewrite bool_decide_eq_true_2 by done
    |rewrite bool_decide_eq_false_2 by done; discriminate].
  cbn [negb].
  destruct (build_index cols (rows df)) as [[idx known]|e] eqn:Hidx;
    cbn [mbind result_bind fst snd]; [|by destruct e].
  destruct (open_all pdf_files) as [docs|e] eqn:Hopen;
    cbn [mbind result_bind]; [|by destruct e].
  destruct (new_document lib) as [b|] eqn:Hnew;
    cbn [check mbind result_bind]; [discriminate|].
  destruct (compose lib idx (scan_pages (set_iter known) docs)) as [doc'|e] eqn:Hcomp;
    cbn [mbind result_bind]; [|by destruct e].
  destruct (length doc' =? 0)%nat eqn:Hlen; [discriminate|].
  destruct (save_error lib doc') as [b|] eqn:Hsave;
    cbn [check mbind result_bind]; [discriminate|].
  intros [= <-]. subst missing cols. exists df, docs, idx, known.
  split_and!; [done.. | | done].
  intros ->. discriminate.
Qed.

(** C6. A scanned page that has no match, or a match without an entry in
    the index, is copied as it is: in the output it is a single copy of the
    page of the upload, without rectangle or table, after the pages made
    from the scanned pages before it and before those made from the scanned
    pages after it. Its place in the output is at or after its place in the
    scan, and the same place when every page before it is copied too. *)
Theorem unmatched_page_copied
    (set_iter : gset string → list string) (lib : library)
    (df : DataFrame) (pdf_files : list (list pdf_page)) (master_doc : list out_page)
    (idx : gmap string (list item)) (known : gset string)
    (pre post : list page_info) (info : page_info)
    (Hrun : process_labels set_iter lib (Parsed df) (map Parsed pdf_files)
            = Ok master_doc)
    (Hidx : build_index (normalize_columns (columns df)) (rows df) = Ok (idx, known))
    (Hscan : scan_pages (set_iter known) pdf_files = pre ++ info :: post)
    (Hpass : passthrough idx (awb info) = true) :
  ∃ before after,
    compose lib idx pre = Ok before ∧ compose lib idx post = Ok after ∧
    master_doc = before ++ Copied (doc info) (page_num info) :: after ∧
    (∃ pages page,
       pdf_files !! doc info = Some pages ∧ pages !! page_num info = Some page) ∧
    (length pre ≤ length before)%nat ∧
    (Forall (λ p, passthrough idx (awb p) = true) pre → length before = length pre).
Proof.
  apply process_labels_ok in Hrun
    as (df' & docs & idx' & known' & [= <-] & _ & Hidx' & Hopen & _ & Hcomp & _).
  rewrite Hidx in Hidx'. injection Hidx' as <- <-.
  rewrite open_all_parsed in Hopen. injection Hopen as <-.
  rewrite Hscan in Hcomp.
  apply compose_pages in Hcomp as [[Hpre [_ Hpost]%Forall_cons]%Forall_app ->].
  exists (flat_map (pages_of idx) pre), (flat_map (pages_of idx) post).
  split_and!.
  - by apply compose_pages.
  - by apply compose_pages.
  - rewrite flat_map_app. cbn [flat_map]. by rewrite pages_of_copied.
  - destruct (scan_pages_elem (set_iter known) pdf_files info)
      as (pages & page & ? & ? & _); [|eauto].
    rewrite Hscan. apply elem_of_app. right. by left.
  - by apply (flat_map_pages_length lib).
  - by apply (flat_map_pages_length lib).
Qed.

(** C10. The matcher returns nothing or a member of the known set. The
    known set holds exactly the keys of the index, none of them empty, so
    that a page with a match always has its entry: such a page is never
    copied as it is, only a page without a match is. *)
Theorem matched_page_has_entry
    (set_iter : gset string → list string)
    (cols : list string) (rows : list (list cell))
    (idx : gmap string (list item)) (known : gset string)
    (pdf_files : list (list pdf_page)) (info : page_info)
    (Hiter : lists_members set_iter)
    (Hidx : build_index cols rows = Ok (idx, known))
    (Hinfo : info ∈ scan_pages (set_iter known) pdf_files) :
  (∀ candidates known_awbs,
     find_matching_awb candidates known_awbs = None ∨
     ∃ r, find_matching_awb candidates known_awbs = Some r ∧ r ∈ known_awbs) ∧
  (∀ k, k ∈ known ↔ is_Some (idx !! k)) ∧
  (∀ a, awb info = Some a →
     a ∈ known ∧ a ≠ EmptyString ∧ is_Some (idx !! a) ∧
     passthrough idx (awb info) = false) ∧
  (passthrough idx (awb info) = true ↔ awb info = None).
Proof.
  assert (Hmatched : ∀ a, awb info = Some a →
            a ∈ known ∧ a ≠ EmptyString ∧ is_Some (idx !! a) ∧
            passthrough idx (awb info) = false).
  { intros a Ha.
    assert (a ∈ known) as Hin.
    { apply scan_pages_elem in Hinfo as (pages & page & _ & _ & Hscan).
      rewrite Hscan in Ha. cbn in Ha.
      by apply find_matching_awb_in_known, Hiter in Ha. }
    pose proof (proj1 (build_index_dom _ _ _ _ a Hidx) Hin) as [l Hl].
    destruct (build_index_key _ _ _ _ Hidx a) as [[Hne _]%kept_not_sentinel _]; [eauto|].
    split_and!; [done | done | eauto |].
    rewrite Ha. by eapply passthrough_false. }
  split_and!.
  - intros candidates known_awbs.
    destruct (find_matching_awb candidates known_awbs) as [r|] eqn:E; [|by left].
    right. exists r. split; [done|]. by eapply find_matching_awb_in_known.
  - intros k. by apply (build_index_dom _ _ _ _ k Hidx).
  - exact Hmatched.
  - destruct (awb info) as [a|] eqn:E.
    + destruct (Hmatched a eq_refl) as (_ & _ & _ & Hfalse).
      split; [by rewrite Hfalse | discriminate].
    + done.
Qed.

Lemma unmatched_page_copied_witness :
  let info := scan_page ["SPXID123456789012"] 0 1 example_plain in
  let label := scan_page ["SPXID123456789012"] 0 0 example_label in
  ∃ before after,
    compose no_faults {[ "SPXID123456789012" := example_items ]} [label] = Ok before ∧
    [render_chunk label "SPXID123456789012" 0 example_items; Copied 0 1]
    = before ++ Copied (doc info) (page_num info) :: after.
Proof.
  intros info label.
  destruct (unmatched_page_copied elements no_faults example_df
              [[example_label; example_plain]]
              [render_chunk label "SPXID123456789012" 0 example_items; Copied 0 1]
              {[ "SPXID123456789012" := example_items ]} {[ "SPXID123456789012" ]}
              [label] [] info)
    as (before & after & H1 & _ & H2 & _).
  - vm_compute. reflexivity.
  - vm_compute. reflexivity.
  - vm_compute. reflexivity.
  - reflexivity.
  - exists before, after. split; assumption.
Defined.

Lemma matched_page_has_entry_witness :
  let label := scan_page (elements ({[ "SPXID123456789012" ]} : gset string))
                 0 0 example_label in
  awb label = Some "SPXID123456789012" ∧
  passthrough {[ "SPXID123456789012" := example_items ]} (awb label) = false.
Proof.
  intros label.
  assert (Hidx : build_index (normalize_columns (columns example_df)) (rows example_df)
                 = Ok ({[ "SPXID123456789012" := example_items ]},
                       {[ "SPXID123456789012" ]})) by (vm_compute; reflexivity).
  assert (Hinfo : label ∈ scan_pages (elements ({[ "SPXID123456789012" ]} : gset string))
                            [[example_label; example_plain]]).
  { apply list_elem_of_In. vm_compute. left. reflexivity. }
  assert (Hawb : awb label = Some "SPXID123456789012") by (vm_compute; reflexivity).
  split; [exact Hawb|].
  apply (proj1 (proj2 (proj2 (matched_page_has_entry elements _ _ _ _ _ label
                                (λ X x, elem_of_elements X x) Hidx Hinfo)))
           "SPXID123456789012" Hawb).
Defined.

(** The scenario of the specification, run from the upload to the output. *)
Example scenario_run :
  process_labels elements no_faults (Parsed example_df)
    [Parsed [example_label; example_plain]]
  = Ok [ Overlay 0 0 (0%Q, 120%Q, 595%Q, 842%Q)
           [["MSKU"; "Qty"]; ["SKU-A"; "2"]; ["SKU-B"; "1"]] 7%Q 658%Q;
         Copied 0 1 ].
Proof. vm_compute. reflexivity. Qed.

(** The same request when the library fails on the overlay: a 500. *)
Example scenario_run_draw_fails :
  process_labels elements
    {| new_document := None;
       draw_error := λ p, match p with
                          | Overlay _ _ _ _ _ _ => Some (LibraryError "cannot draw")
                          | _ => None
                          end;
       save_error := λ _, None |}
    (Parsed example_df) [Parsed [example_label; example_plain]]
  = Raise (HTTPException 500 (StrOf (LibraryError "cannot draw"))).
Proof. vm_compute. reflexivity. Qed.

(** A spreadsheet or a PDF that cannot be read: a 500. *)
Example scenario_run_unreadable :
  process_labels elements no_faults (Failed (LibraryError "not a spreadsheet"))
    [Parsed [example_label]]
  = Raise (HTTPException 500 (StrOf (LibraryError "not a spreadsheet"))) ∧
  process_labels elements no_faults (Parsed example_df)
    [Parsed [example_label]; Failed (LibraryError "not a PDF")]
  = Raise (HTTPException 500 (StrOf (LibraryError "not a PDF"))).
Proof. split; vm_compute; reflexivity. Qed.

(** * Further properties *)

(** ** The matcher finds nothing *)

Lemma first_related_none (c : string) (known_awbs : list string) :
  first_related c known_awbs = None → unrelated known_awbs c.
Proof.
  unfold first_related. intros H known Hin%list_elem_of_In.
  apply (find_none _ _ H) in Hin. by apply orb_false_elim in Hin.
Qed.

(** X1. The matcher returns no tracking number exactly when no candidate
    has the substring relation, in either direction, with a known number;
    in particular with no candidate or an empty known set. *)
Theorem find_matching_awb_none_iff (candidates known_awbs : list string) :
  find_matching_awb candidates known_awbs = None ↔
  Forall (unrelated known_awbs) candidates.
Proof.
  split.
  - induction candidates as [|c rest IH]; cbn [find_matching_awb]; [constructor|].
    destruct (decide (c ∈ known_awbs)); [discriminate|].
    destruct (first_related c known_awbs) eqn:E; [discriminate|].
    intros H. constructor; [by apply first_related_none | by apply IH].
  - intros H. by rewrite <- (app_nil_r candidates), find_matching_awb_skip.
Qed.

(** ** Row capacity and the space *)

(** X2. The row capacity grows with the space: a higher page or an
    earlier start of the clear region never gives fewer rows, the float
    operations and [int()] keeping the order; and both calls return when
    the coordinates are far inside the range of the doubles. *)
Theorem available_rows_monotone (h h' c c' : Q)
    (Hheight : (h <= h')%Q) (Hclear : (c' <= c)%Q) :
  (∀ r r' : Z,
     calculate_available_rows h c default_row_height default_margin_bottom = Ok r →
     calculate_available_rows h' c' default_row_height default_margin_bottom = Ok r' →
     r ≤ r') ∧
  (in_range h → in_range h' → in_range c → in_range c' →
   ∃ r r' : Z,
     calculate_available_rows h c default_row_height default_margin_bottom = Ok r ∧
     calculate_available_rows h' c' default_row_height default_margin_bottom = Ok r' ∧
     r ≤ r').
Proof.
  split.
  - intros r r'. by apply calculate_available_rows_le.
  - intros Hh Hh' Hc Hc'.
    destruct (calculate_available_rows_in_range h c Hh Hc) as [r Hr].
    destruct (calculate_available_rows_in_range h' c' Hh' Hc') as [r' Hr'].
    exists r, r'. split_and!; [done | done |].
    by apply (calculate_available_rows_le h h' c c').
Qed.

Lemma available_rows_monotone_witness :
  ∃ r r' : Z,
    calculate_available_rows 595 300 default_row_height default_margin_bottom = Ok r ∧
    calculate_available_rows 842 120 default_row_height default_margin_bottom = Ok r' ∧
    r ≤ r'.
Proof.
  apply (proj2 (available_rows_monotone 595 842 300 120
                  ltac:(discriminate) ltac:(discriminate)));
    vm_compute; discriminate.
Defined.

Lemma paginate_first {A} (items : list A) (available_rows : Z) :
  1 ≤ available_rows →
  ∃ first rest,
    paginate items available_rows = first :: rest ∧
    Z.of_nat (length first) ≤ available_rows.
Proof.
  intros H. unfold paginate.
  destruct (Z.leb_spec (Z.of_nat (length items)) available_rows).
  - by exists items, [].
  - eexists _, _. split; [reflexivity|].
    unfold slice_to. rewrite (proj2 (Z.leb_le 0 available_rows)) by lia.
    rewrite length_take. lia.
Qed.

Lemma py_max_above (a b : Q) : (a < b)%Q → py_max a b = b.
Proof.
  intros H. unfold py_max. destruct (Qle_bool b a) eqn:E; [|reflexivity].
  apply Qle_bool_iff in E. lra.
Qed.

Lemma page_sized_in_range (x : Q) : page_sized x → in_range x.
Proof.
  unfold page_sized, in_range. intros H. eapply Qle_trans; [exact H|].
  apply DoubleFacts.pow2_le. lia.
Qed.

(** The rows the capacity allows, header included, take no more than the
    space below the start of the clear region and above the margin, up to
    the rounding of the three float operations. *)
Lemma calculate_available_rows_fits (page_height clear_start_y : Q) (r : Z) :
  page_sized page_height → page_sized clear_start_y →
  (36 <= page_height - clear_start_y - 30)%Q →
  calculate_available_rows page_height clear_start_y
    default_row_height default_margin_bottom = Ok r →
  (inject_Z (r + 1) * 18
   <= page_height - clear_start_y - 30 + Double.pow2 (- 26))%Q.
Proof.
  unfold page_sized.
  intros Hh Hc Hspace (d1 & d2 & q & H1 & H2 & H3 & ->)%calculate_available_rows_default.
  pose proof (in_range_sub _ _ _ Hh Hc) as Hs. change (20 + 1) with 21 in Hs.
  pose proof (DoubleFacts.round_error _ _ 21 ltac:(lia) Hs H1) as E1.
  change (21 - 53) with (-32) in E1.
  change (Double.pow2 (-32)) with (1 # 4294967296)%Q in E1.
  change (Double.pow2 21) with 2097152%Q in Hs.
  apply Qabs_Qle_condition in Hs, E1.
  assert (Hs2 : (Qabs (d1 - 30) <= Double.pow2 22)%Q).
  { change (Double.pow2 22) with 4194304%Q. apply Qabs_Qle_condition. lra. }
  pose proof (DoubleFacts.round_error _ _ 22 ltac:(lia) Hs2 H2) as E2.
  change (22 - 53) with (-31) in E2.
  change (Double.pow2 (-31)) with (1 # 2147483648)%Q in E2.
  change (Double.pow2 22) with 4194304%Q in Hs2.
  apply Qabs_Qle_condition in Hs2, E2.
  assert (Ediv : (d2 / 18 == d2 * (1 # 18))%Q) by (field; discriminate).
  assert (Hs3 : (Qabs (d2 / 18) <= Double.pow2 22)%Q).
  { change (Double.pow2 22) with 4194304%Q. apply Qabs_Qle_condition.
    rewrite Ediv. lra. }
  pose proof (DoubleFacts.round_error _ _ 22 ltac:(lia) Hs3 H3) as E3.
  change (22 - 53) with (-31) in E3.
  change (Double.pow2 (-31)) with (1 # 2147483648)%Q in E3.
  apply Qabs_Qle_condition in E3. rewrite Ediv in E3.
  change (Double.pow2 (-26)) with (1 # 67108864)%Q.
  pose proof (Qfloor_le q) as Hq.
  destruct (Z.le_gt_cases (Qfloor q - 1) 1) as [Hfew|Hmany].
  - rewrite Z.max_l by lia. change (inject_Z (1 + 1)) with 2%Q. lra.
  - rewrite Z.max_r by lia. replace (Qfloor q - 1 + 1) with (Qfloor q) by lia. lra.
Qed.

(** X3. On a matched page of ordinary size whose clear region holds the
    header and at least one row (36 points above the bottom margin) and is
    wide enough for the two columns, the table of the first page lies
    inside the cleared rectangle, grid lines included: from x = 7 over the
    270 points of its columns, its lower edge at least 19 points above the
    page bottom, so that the lower bound of 10 is not what places it, and
    its upper edge at least 9 points below the start of the region. *)
Theorem overlay_table_inside_clear_region
    (awb_to_items : gmap string (list item)) (info : page_info)
    (a : string) (items : list item)
    (Hawb : awb info = Some a) (Ha : a ≠ EmptyString)
    (Hitems : awb_to_items !! a = Some items)
    (Hheight : page_sized (height info)) (Hclear : page_sized (clear_start_y info))
    (Hwidth : (7 + table_width + grid_line / 2 <= width info)%Q)
    (Hspace : (36 <= height info - clear_start_y info - 30)%Q) :
  ∃ (first : list item) (rest : list out_page) (table_y : Q),
    render_page awb_to_items info
      = Ok (Overlay (doc info) (page_num info)
              (0%Q, clear_start_y info, width info, height info)
              (table_rows first) 7%Q table_y :: rest) ∧
    (19 <= table_y)%Q ∧
    (clear_start_y info + 9
     <= height info - (table_y + table_height (table_rows first)))%Q ∧
    table_inside (height info) (0%Q, clear_start_y info, width info, height info)
      (table_rows first) 7%Q table_y.
Proof.
  destruct (calculate_available_rows_in_range (height info) (clear_start_y info))
    as [r Hcalc]; [by apply page_sized_in_range.. |].
  pose proof (calculate_available_rows_min _ _ _ _ _ Hcalc) as Hr.
  pose proof (calculate_available_rows_fits _ _ _ Hheight Hclear Hspace Hcalc) as Hfit.
  change (Double.pow2 (-26)) with (1 # 67108864)%Q in Hfit.
  destruct (paginate_first items r Hr) as (first & chunks & Hp & Hlen).
  assert (Hrows : (row_count first * 18 <= inject_Z (r + 1) * 18)%Q).
  { unfold row_count. apply Qmult_le_compat_r; [|discriminate].
    rewrite <- Zle_Qle. lia. }
  assert (Hheight_eq : (table_height (table_rows first) == row_count first * 18)%Q).
  { unfold table_height, table_rows, row_count, row_heights.
    cbn [length]. rewrite length_map.
    replace (Z.of_nat (S (length first))) with (Z.of_nat (length first) + 1) by lia.
    reflexivity. }
  set (table_y := (height info - clear_start_y info - row_count first * 18 - 10)%Q).
  assert (Hty : (19 <= table_y)%Q) by (unfold table_y; lra).
  exists first, (imap (render_chunk info a ∘ S) chunks), table_y.
  split_and!; [| exact Hty | rewrite Hheight_eq; unfold table_y; lra |].
  - rewrite (render_page_matched _ _ a items _ Hawb Ha Hitems Hcalc), Hp, imap_cons.
    cbn [render_chunk]. fold table_y. by rewrite py_max_above by lra.
  - unfold table_inside. change table_width with (220 + (50 + 0))%Q in *.
    change grid_line with (1 # 2)%Q in *.
    assert (Ehalf : ((1 # 2) / 2 == 1 # 4)%Q) by reflexivity.
    rewrite Ehalf in *. rewrite Hheight_eq. unfold table_y.
    split_and!; lra.
Qed.

Lemma overlay_table_inside_clear_region_witness :
  let info := {| page_num := 0; doc := 0; width := 595; height := 842;
                 awb := Some "SPXID123456789012"; clear_start_y := 120 |} in
  ∃ (first : list item) (rest : list out_page) (table_y : Q),
    render_page {[ "SPXID123456789012" := example_items ]} info
      = Ok (Overlay 0 0 (0%Q, 120%Q, 595%Q, 842%Q)
              (table_rows first) 7%Q table_y :: rest) ∧
    (19 <= table_y)%Q ∧
    table_inside 842 (0%Q, 120%Q, 595%Q, 842%Q) (table_rows first) 7%Q table_y.
Proof.
  intros info.
  destruct (overlay_table_inside_clear_region
              {[ "SPXID123456789012" := example_items ]} info
              "SPXID123456789012" example_items)
    as (first & rest & table_y & H1 & H2 & _ & H3);
    [reflexivity | discriminate | apply lookup_singleton_eq
    | vm_compute; discriminate | vm_compute; discriminate
    | vm_compute; discriminate | vm_compute; discriminate |].
  exists first, rest, table_y. split_and!; assumption.
Defined.

(** A page 100 points wide is too narrow for the table: the hypothesis on
    the width is needed. *)
Example narrow_page_table_outside :
  let info := {| page_num := 0; doc := 0; width := 100; height := 842;
                 awb := Some "SPXID123456789012"; clear_start_y := 120 |} in
  render_page {[ "SPXID123456789012" := example_items ]} info
  = Ok [Overlay 0 0 (0%Q, 120%Q, 100%Q, 842%Q)
          [["MSKU"; "Qty"]; ["SKU-A"; "2"]; ["SKU-B"; "1"]] 7%Q 658%Q] ∧
  ¬ table_inside 842 (0%Q, 120%Q, 100%Q, 842%Q)
      [["MSKU"; "Qty"]; ["SKU-A"; "2"]; ["SKU-B"; "1"]] 7%Q 658%Q.
Proof.
  cbv zeta. split; [vm_compute; reflexivity|].
  intros (_ & H & _). vm_compute in H. by apply H.
Qed.

(** ** The number and the size of the chunks *)

Lemma paginate_length {A} (items : list A) (available_rows : Z) :
  1 ≤ available_rows →
  length (paginate items available_rows)
  = if decide (Z.of_nat (length items) ≤ available_rows) then 1%nat
    else (1 + (length items - Z.to_nat available_rows + 24) / 25)%nat.
Proof.
  intros H. unfold paginate.
  destruct (Z.leb_spec (Z.of_nat (length items)) available_rows);
    destruct (decide _); try lia; [reflexivity|].
  unfold slice_from, range_step, limit_extra.
  rewrite (proj2 (Z.leb_le 0 available_rows)) by lia.
  cbn [length]. rewrite !length_map, length_seq, length_drop.
  do 2 f_equal. lia.
Qed.

(** X4. For [available_rows >= 1], a list that does not fit gives one
    first chunk and ceil((n - available_rows) / 25) further chunks, one
    per continuation page. No chunk of a non-empty list is empty, and no
    chunk is longer than the larger of [available_rows] and 25. *)
Theorem paginate_counts (items : list item) (available_rows : Z)
    (Hrows : 1 ≤ available_rows) :
  length (paginate items available_rows)
    = (if decide (Z.of_nat (length items) ≤ available_rows) then 1%nat
       else (1 + (length items - Z.to_nat available_rows + 24) / 25)%nat) ∧
  (items ≠ [] → Forall (λ chunk, chunk ≠ []) (paginate items available_rows)) ∧
  Forall (λ chunk, Z.of_nat (length chunk) ≤ Z.max available_rows 25)
    (paginate items available_rows).
Proof.
  split; [by apply paginate_length|].
  destruct (Z.le_gt_cases (Z.of_nat (length items)) available_rows) as [Hfit|Hover].
  - unfold paginate. rewrite (proj2 (Z.leb_le _ _)) by done. split.
    + intros Hne. by repeat constructor.
    + repeat constructor. lia.
  - destruct (paginate_overflow items available_rows Hrows) as
      (rest & last & -> & Hfirst & Hrest & Hlast); [lia|].
    split.
    + intros _. constructor.
      * intros E. rewrite E in Hfirst. cbn in Hfirst. lia.
      * apply Forall_app. split.
        -- eapply Forall_impl; [exact Hrest|]. cbn. intros c Hc ->. discriminate.
        -- repeat constructor. intros ->. cbn in Hlast. lia.
    + constructor; [lia|]. apply Forall_app. split.
      * eapply Forall_impl; [exact Hrest|]. cbn. intros c Hc. lia.
      * repeat constructor. lia.
Qed.

Lemma paginate_counts_witness :
  length (paginate (replicate 60 {| msku := "A"; jumlah := 1 |}) 10) = 3%nat.
Proof.
  apply (proj1 (paginate_counts (replicate 60 {| msku := "A"; jumlah := 1 |}) 10
                  ltac:(lia))).
Defined.

(** ** The pages of a label *)






(** ** Safe-area detection *)

Lemma scan_blocks_lines (blocks : list block) (st : option Q * option Q) :
  foldl scan_block st blocks = foldl scan_line st (text_lines blocks).
Proof.
  revert st. induction blocks as [|b blocks IH]; intros st; [done|].
  change (text_lines (b :: blocks))
    with ((if block_type b =? 0 then block_lines b else []) ++ text_lines blocks).
  cbn [foldl]. rewrite foldl_app, IH. unfold scan_block.
  by destruct (block_type b =? 0).
Qed.

Lemma scan_line_eq (st : option Q * option Q) (l : list span) :
  scan_line st l
  = (if is_disclaimer l then Some (line_bottom l) else st.1,
     if is_note l && bool_decide ((if is_disclaimer l then Some (line_bottom l)
                                   else st.1) ≠ None)
     then Some (line_bottom l) else st.2).
Proof. reflexivity. Qed.




Lemma py_max_nonneg (a b : Q) : (0 <= a)%Q → (0 <= py_max a b)%Q.
Proof.
  intros H. unfold py_max. destruct (Qle_bool b a) eqn:E; [done|].
  assert (¬ (b <= a)%Q) by (rewrite <- Qle_bool_iff, E; discriminate). lra.
Qed.

Lemma line_bottom_nonneg (l : list span) : (0 <= line_bottom l)%Q.
Proof.
  unfold line_bottom.
  assert (H : ∀ b, (0 <= b)%Q →
            (0 <= foldl (λ b sp, py_max b (span_bottom sp)) b l)%Q).
  { induction l as [|sp l IH]; intros b Hb; [done|].
    cbn [foldl]. by apply IH, py_max_nonneg. }
  apply H. lra.
Qed.

(** X7. The start of the clear region is never above the page: it is at
    least 5, also when the anchor lines carry no or negative coordinates. *)
Theorem clear_start_at_least_5 (blocks : list block) :
  (5 <= find_clear_start_position blocks)%Q.
Proof.
  unfold find_clear_start_position. rewrite scan_blocks_lines.
  assert (H : ∀ lines st,
            (∀ u, st.1 = Some u → (0 <= u)%Q) → (∀ c, st.2 = Some c → (0 <= c)%Q) →
            let st' := foldl scan_line st lines in
            (∀ u, st'.1 = Some u → (0 <= u)%Q) ∧ (∀ c, st'.2 = Some c → (0 <= c)%Q)).
  { induction lines as [|l lines IH]; intros st H1 H2; [done|].
    cbn [foldl]. apply IH; rewrite scan_line_eq; cbn [fst snd].
    - intros u. destruct (is_disclaimer l); [|apply H1].
      intros [= <-]. apply line_bottom_nonneg.
    - intros c. destruct (_ && _); [|apply H2].
      intros [= <-]. apply line_bottom_nonneg. }
  destruct (H (text_lines blocks) (None, None)) as [H1 H2]; [done..|].
  destruct (foldl scan_line _ _) as [[u|] [c|]]; cbn [fst snd] in *.
  - specialize (H2 c eq_refl). lra.
  - specialize (H1 u eq_refl). lra.
  - specialize (H2 c eq_refl). lra.
  - lra.
Qed.

(** ** The response *)

Lemma concat_imap_length {A B} (f : nat → list A → list B) (l : list (list A)) :
  (∀ i x, length (f i x) = length x) →
  length (concat (imap f l)) = length (concat l).
Proof.
  revert f. induction l as [|x l IH]; intros f Hf; [done|].
  rewrite imap_cons. cbn [concat]. rewrite !length_app, Hf. f_equal.
  apply IH. intros i y. apply Hf.
Qed.

Lemma scan_pages_length (known_awbs : list string) (pdf_files : list (list pdf_page)) :
  length (scan_pages known_awbs pdf_files) = length (concat pdf_files).
Proof.
  unfold scan_pages. apply concat_imap_length. intros i pages. apply length_imap.
Qed.

Lemma index_row_raise (cols : list string) (st : index_state) (row : list cell) (e : exn) :
  index_row cols st row = Raise e → ∃ b, e = Builtin b.
Proof.
  unfold index_row, row_awb, row_entry, row_get, int_of_cell.
  repeat (match goal with
          | |- context [match ?x with _ => _ end] => destruct x eqn:?
          end; cbn);
    intros [= <-]; eauto.
Qed.

Lemma index_rows_raise (cols : list string) (rows : list (list cell)) (e : exn) :
  index_rows cols rows = Raise e → ∃ b, e = Builtin b.
Proof.
  induction rows as [|row rows IH] using rev_ind; [discriminate|].
  rewrite index_rows_snoc. destruct (index_rows cols rows) as [st|e0]; cbn.
  - apply index_row_raise.
  - intros [= <-]. by apply IH.
Qed.

Lemma build_index_raise (cols : list string) (rows : list (list cell)) (e : exn) :
  build_index cols rows = Raise e → ∃ b, e = Builtin b.
Proof.
  unfold build_index. destruct (index_rows cols rows) as [st|e0] eqn:E; [discriminate|].
  intros [= <-]. by eapply index_rows_raise.
Qed.

Lemma pages_drawn (lib : library) (awb_to_items : gmap string (list item))
    (all_pages : list page_info) :
  Forall (page_added lib awb_to_items) all_pages →
  Forall (λ p, draw_error lib p = None) (flat_map (pages_of awb_to_items) all_pages).
Proof.
  induction all_pages as [|info l IH]; [constructor|].
  intros [(pages & Hr & Hd) Hl]%Forall_cons. cbn [flat_map].
  apply Forall_app. split; [|by apply IH].
  rewrite (render_page_ok _ _ _ Hr). by apply draw_all_ok.
Qed.

(** X8. The request has four outcomes and no other: the document, 400,
    404 or 500. It answers 400 exactly when the spreadsheet is read and a
    required column is missing after the aliases were resolved, whatever
    the PDFs are. It answers 500, with the text of the exception, when a
    step raises: reading the spreadsheet, the row loop, opening a PDF,
    creating the output document, laying out or drawing a page, saving.
    It answers 404 when all of these returned and the uploads hold no page
    at all. Otherwise it returns the document, which has at least one page
    for every scanned page, all of them drawn. No other exception leaves
    the handler. *)
Theorem response_cases
    (set_iter : gset string → list string) (lib : library)
    (excel_file : upload DataFrame) (pdf_files : list (upload (list pdf_page))) :
  match process_labels set_iter lib excel_file pdf_files with
  | Ok master_doc =>
      ∃ df st docs,
        excel_file = Parsed df ∧
        missing_columns (normalize_columns (columns df)) = [] ∧
        build_index (normalize_columns (columns df)) (rows df) = Ok st ∧
        open_all pdf_files = Ok docs ∧
        new_document lib = None ∧
        compose lib st.1 (scan_pages (set_iter st.2) docs) = Ok master_doc ∧
        concat docs ≠ [] ∧
        (length (concat docs) ≤ length master_doc)%nat ∧
        Forall (λ p, draw_error lib p = None) master_doc ∧
        save_error lib master_doc = None
  | Raise (HTTPException status_code d) =>
      (status_code = 400 ∧
       ∃ df, excel_file = Parsed df ∧
         missing_columns (normalize_columns (columns df)) ≠ [] ∧
         d = Message ("Kolom tidak ditemukan: " ++
                      Py.repr_list (missing_columns (normalize_columns (columns df))))) ∨
      (status_code = 404 ∧
       d = Message "Tidak ada halaman yang diproses." ∧
       ∃ df st docs,
         excel_file = Parsed df ∧
         missing_columns (normalize_columns (columns df)) = [] ∧
         build_index (normalize_columns (columns df)) (rows df) = Ok st ∧
         open_all pdf_files = Ok docs ∧
         new_document lib = None ∧
         concat docs = []) ∨
      (status_code = 500 ∧
       ∃ b, d = StrOf b ∧ fails_with set_iter lib excel_file pdf_files b)
  | Raise (Builtin _) => False
  end.
Proof.
  unfold process_labels, process_labels_body.
  destruct excel_file as [df|b] eqn:Hexcel; cbn [read mbind result_bind];
    [|right; right; split; [done|]; exists b; split; [done | by constructor]].
  remember (normalize_columns (columns df)) as cols eqn:Hcols_eq.
  remember (missing_columns cols) as missing eqn:Hmissing_eq.
  destruct (decide (missing = [])) as [Hmiss|Hmiss].
  2: { rewrite bool_decide_eq_false_2 by done. cbn [negb]. left.
       split; [done|]. exists df. by subst. }
  rewrite bool_decide_eq_true_2 by done. cbn [negb].
  destruct (build_index cols (rows df)) as [st|e] eqn:Hidx;
    cbn [mbind result_bind].
  2: { destruct (build_index_raise _ _ _ Hidx) as [b ->].
       right. right. split; [done|]. exists b. split; [done|].
       subst. by eapply rows_fail. }
  destruct (open_all pdf_files) as [docs|e] eqn:Hopen; cbn [mbind result_bind].
  2: { destruct (open_all_raise _ _ Hopen) as [b ->].
       right. right. split; [done|]. exists b. split; [done|].
       subst. by eapply pdf_fails. }
  destruct (new_document lib) as [b|] eqn:Hnew; cbn [check mbind result_bind].
  { right. right. split; [done|]. exists b. split; [done|].
    subst. by eapply new_document_fails. }
  destruct (compose lib st.1 (scan_pages (set_iter st.2) docs)) as [master_doc|e]
    eqn:Hcomp; cbn [mbind result_bind].
  2: { destruct (compose_raise _ _ _ _ Hcomp) as [b ->].
       right. right. split; [done|]. exists b. split; [done|].
       subst. by eapply page_fails. }
  pose proof Hcomp as [Hadded Hdoc]%compose_pages.
  pose proof (flat_map_pages_length lib st.1 _ Hadded) as [Hlen _].
  rewrite <- Hdoc, scan_pages_length in Hlen.
  destruct (length master_doc =? 0)%nat eqn:E.
  { apply Nat.eqb_eq in E. right. left. split; [done|]. split; [done|].
    exists df, st, docs. subst cols missing. split_and!; [done.. |].
    apply length_zero_iff_nil. lia. }
  apply Nat.eqb_neq in E.
  destruct (save_error lib master_doc) as [b|] eqn:Hsave; cbn [check mbind result_bind].
  { right. right. split; [done|]. exists b. split; [done|].
    subst cols missing. eapply save_fails; [done.. | | done].
    intros ->. by apply E. }
  exists df, st, docs. subst cols missing. split_and!; [done.. | | done | | done].
  - intros Hnil. rewrite Hdoc in E. apply E.
    assert (Hscan : scan_pages (set_iter st.2) docs = []).
    { apply length_zero_iff_nil. by rewrite scan_pages_length, Hnil. }
    by rewrite Hscan.
  - rewrite Hdoc. by apply pages_drawn.
Qed.

(** ** Rows that are passed over *)

Lemma index_row_skipped (cols : list string) (st : index_state) (row : list cell) :
  row_counts cols row = false → index_row cols st row = Ok st.
Proof.
  unfold row_counts, index_row. destruct (row_awb cols row) as [a|]; [|discriminate].
  cbn. by intros ->.
Qed.

(** X9. A row whose tracking value is empty or a null-sentinel has no
    part in loading: with such rows taken out of the spreadsheet, the row
    loop gives the same index and the same known set, and fails on the same
    spreadsheets with the same error, whatever the other cells of these
    rows hold. *)
Theorem skipped_rows_do_not_count (cols : list string) (rows : list (list cell)) :
  build_index cols rows = build_index cols (List.filter (row_counts cols) rows).
Proof.
  unfold build_index. f_equal. unfold index_rows.
  generalize (Ok (∅, ∅) : result index_state).
  induction rows as [|row rows IH]; intros acc; [done|].
  cbn [foldl List.filter]. destruct (row_counts cols row) eqn:E.
  - cbn [foldl]. apply IH.
  - rewrite <- IH. f_equal. destruct acc as [st|e]; [|done].
    cbn. by apply index_row_skipped.
Qed.

Example skipped_row_with_bad_quantity :
  build_index ["AWB/No. Tracking"; "MSKU"; "Jumlah"]
    [ [CNaN; CStr "SKU-X"; CStr "two"];
      [CStr "JT1234567890123"; CStr "SKU-A"; CInt 3] ]
  = Ok ({[ "JT1234567890123" := [ {| msku := "SKU-A"; jumlah := 3 |} ] ]},
        {[ "JT1234567890123" ]}).
Proof. reflexivity. Qed.

(** X10. Loading succeeds exactly when every row can be read and every
    row that counts has a quantity that is blank or converts with int();
    one row that does not makes the whole load fail. *)
Theorem load_succeeds_iff (cols : list string) (rows : list (list cell)) :
  (∃ st, build_index cols rows = Ok st) ↔
  ∀ row, row ∈ rows →
    ∃ a, row_awb cols row = Ok a ∧
         (kept a = true → ∃ e, row_entry cols row = Ok e).
Proof.
  split.
  - intros [[idx known] H]. apply build_index_ok in H as (st & Hst & _).
    by apply index_rows_spec in Hst as [_ _ _ Hread].
  - intros Hrows.
    assert (H : ∃ st, index_rows cols rows = Ok st).
    { induction rows as [|row rows IH] using rev_ind; [by eexists|].
      rewrite index_rows_snoc.
      destruct IH as [st ->].
      { intros r Hr. apply Hrows, elem_of_app. by left. }
      cbn. destruct (Hrows row) as (a & Ha & He).
      { apply elem_of_app. right. by left. }
      unfold index_row. rewrite Ha. cbn.
      destruct (kept a); [|by eexists].
      destruct (He eq_refl) as [e ->]. cbn. by eexists. }
    destruct H as [st Hst]. unfold build_index. rewrite Hst. cbn. by eexists.
Qed.

(** ** A spreadsheet without usable rows *)

Lemma find_matching_awb_nil (candidates : list string) :
  find_matching_awb candidates [] = None.
Proof.
  induction candidates as [|c rest IH]; [done|].
  cbn [find_matching_awb]. rewrite decide_False by by intros ?%elem_of_nil.
  exact IH.
Qed.

Lemma pages_of_imap (awb_to_items : gmap string (list item))
    (g : nat → pdf_page → page_info) (h : nat → out_page) (pages : list pdf_page) :
  (∀ n p, pages_of awb_to_items (g n p) = [h n]) →
  flat_map (pages_of awb_to_items) (imap g pages) = imap (λ n _, h n) pages.
Proof.
  revert g h. induction pages as [|p pages IH]; intros g h H; [done|].
  rewrite !imap_cons. cbn [flat_map]. rewrite H. cbn [app]. f_equal.
  apply (IH (g ∘ S) (h ∘ S)). intros n q. apply H.
Qed.

Lemma pages_of_scan (awb_to_items : gmap string (list item))
    (G : nat → nat → pdf_page → page_info) (H : nat → nat → out_page)
    (pdf_files : list (list pdf_page)) :
  (∀ d n p, pages_of awb_to_items (G d n p) = [H d n]) →
  flat_map (pages_of awb_to_items) (concat (imap (λ d, imap (G d)) pdf_files))
  = concat (imap (λ d pages, imap (λ n _, H d n) pages) pdf_files).
Proof.
  revert G H. induction pdf_files as [|pages pdf_files IH]; intros G H HG; [done|].
  rewrite !imap_cons. cbn [concat]. rewrite flat_map_app. f_equal.
  - by apply pages_of_imap.
  - apply (IH (G ∘ S) (H ∘ S)). intros d n p. apply HG.
Qed.

Lemma index_rows_all_skipped (cols : list string) (rows : list (list cell)) :
  Forall (λ row, row_counts cols row = false) rows →
  index_rows cols rows = Ok (∅, ∅).
Proof.
  induction rows as [|row rows IH] using rev_ind; [done|].
  intros [Hrows Hrow]%Forall_app. apply Forall_inv in Hrow.
  rewrite index_rows_snoc, IH by done. cbn [mbind result_bind].
  by apply index_row_skipped.
Qed.

Lemma process_labels_run (set_iter : gset string → list string) (lib : library)
    (df : DataFrame) (pdf_files : list (upload (list pdf_page)))
    (docs : list (list pdf_page)) (idx : gmap string (list item)) (known : gset string)
    (master_doc : list out_page) :
  missing_columns (normalize_columns (columns df)) = [] →
  build_index (normalize_columns (columns df)) (rows df) = Ok (idx, known) →
  open_all pdf_files = Ok docs →
  new_document lib = None →
  compose lib idx (scan_pages (set_iter known) docs) = Ok master_doc →
  master_doc ≠ [] →
  save_error lib master_doc = None →
  process_labels set_iter lib (Parsed df) pdf_files = Ok master_doc.
Proof.
  intros Hmiss Hidx Hopen Hnew Hcomp Hne Hsave.
  unfold process_labels, process_labels_body. cbn [read mbind result_bind].
  rewrite bool_decide_eq_true_2 by done. cbn [negb].
  rewrite Hidx. cbn [mbind result_bind fst snd].
  rewrite Hopen. cbn [mbind result_bind].
  rewrite Hnew. cbn [check mbind result_bind].
  rewrite Hcomp. cbn [mbind result_bind].
  destruct master_doc as [|p l]; [done|]. cbn [length Nat.eqb].
  rewrite Hsave. reflexivity.
Qed.

Lemma pages_added (lib : library) (awb_to_items : gmap string (list item))
    (all_pages : list page_info) :
  Forall (λ info, passthrough awb_to_items (awb info) = true) all_pages →
  Forall (λ p, draw_error lib p = None) (flat_map (pages_of awb_to_items) all_pages) →
  Forall (page_added lib awb_to_items) all_pages.
Proof.
  induction all_pages as [|info l IH]; [constructor|].
  intros [Hp Hl]%Forall_cons. cbn [flat_map].
  intros [Hd Hdl]%Forall_app. constructor; [|by apply IH].
  exists (pages_of awb_to_items info). split; [|by apply draw_all_ok].
  by rewrite pages_of_copied, render_page_copied.
Qed.

(** X11. When the required columns are there and no row of the
    spreadsheet counts (no row at all, or tracking values that are all
    empty or null-sentinels), nothing is matched: a document that is
    returned is every page of every upload, copied as it is, in upload and
    page order; and it is returned exactly when the library creates the
    document, copies each of these pages and saves the result. *)
Theorem unusable_manifest_copies_all
    (set_iter : gset string → list string) (lib : library)
    (df : DataFrame) (pdf_files : list (list pdf_page))
    (Hiter : lists_members set_iter)
    (Hcols : missing_columns (normalize_columns (columns df)) = [])
    (Hrows : Forall (λ row, row_counts (normalize_columns (columns df)) row = false)
               (rows df))
    (Hpages : concat pdf_files ≠ []) :
  let copies := concat (imap (λ d pages, imap (λ n _, Copied d n) pages) pdf_files) in
  (∀ master_doc,
     process_labels set_iter lib (Parsed df) (map Parsed pdf_files) = Ok master_doc →
     master_doc = copies) ∧
  (process_labels set_iter lib (Parsed df) (map Parsed pdf_files) = Ok copies ↔
   new_document lib = None ∧
   Forall (λ p, draw_error lib p = None) copies ∧
   save_error lib copies = None).
Proof.
  cbv zeta.
  set (copies := concat (imap (λ d pages, imap (λ n _, Copied d n) pages) pdf_files)).
  assert (Hnil : set_iter ∅ = []).
  { destruct (set_iter ∅) as [|x l] eqn:E; [done|].
    exfalso. apply (not_elem_of_empty (C := gset string) x), Hiter.
    rewrite E. by left. }
  assert (Hidx : build_index (normalize_columns (columns df)) (rows df) = Ok (∅, ∅)).
  { unfold build_index. rewrite index_rows_all_skipped by done.
    cbn [mbind result_bind fst snd]. by rewrite fmap_empty. }
  assert (Hflat : flat_map (pages_of ∅) (scan_pages [] pdf_files) = copies).
  { unfold scan_pages. apply (pages_of_scan ∅ (scan_page []) (λ d n, Copied d n)).
    intros d n p. apply pages_of_copied. cbn. by rewrite find_matching_awb_nil. }
  assert (Hpass : Forall (λ info, passthrough (∅ : gmap string (list item)) (awb info) = true)
                    (scan_pages [] pdf_files)).
  { apply Forall_forall. intros info (pages & page & _ & _ & ->)%scan_pages_elem.
    cbn. by rewrite find_matching_awb_nil. }
  assert (Hcopies : copies ≠ []).
  { intros E. apply Hpages, length_zero_iff_nil.
    rewrite <- (concat_imap_length (λ d pages, imap (λ n _, Copied d n) pages))
      by (intros; apply length_imap).
    fold copies. by rewrite E. }
  assert (Hok : ∀ master_doc,
            process_labels set_iter lib (Parsed df) (map Parsed pdf_files) = Ok master_doc →
            master_doc = copies ∧ new_document lib = None ∧
            Forall (λ p, draw_error lib p = None) master_doc ∧
            save_error lib master_doc = None).
  { intros master_doc
      (df' & docs & idx & known & [= <-] & _ & Hidx' & Hopen & Hnew & Hcomp & _ & Hsave)
        %process_labels_ok.
    rewrite Hidx in Hidx'. injection Hidx' as <- <-.
    rewrite open_all_parsed in Hopen. injection Hopen as <-.
    rewrite Hnil in Hcomp. apply compose_pages in Hcomp as [Hadded ->].
    split_and!; [done | done | by apply pages_drawn | done]. }
  split; [intros master_doc H; by apply Hok|]. split.
  - intros H. apply Hok in H as (_ & ? & ? & ?). done.
  - intros (Hnew & Hdraw & Hsave).
    apply (process_labels_run _ _ _ _ pdf_files ∅ ∅);
      [done | done | apply open_all_parsed | done | | done | done].
    rewrite Hnil. apply compose_pages. split; [|done].
    apply pages_added; [done|]. by rewrite Hflat.
Qed.

Lemma unusable_manifest_copies_all_witness :
  process_labels elements no_faults
    (Parsed {| columns := ["Resi"; "SKU"; "Qty"];
               rows := [ [CNaN; CStr "SKU-X"; CInt 4];
                         [CStr " null "; CStr "SKU-Y"; CNaN] ] |})
    (map Parsed [[example_label; example_plain]; []; [example_plain]])
  = Ok [Copied 0 0; Copied 0 1; Copied 2 0].
Proof.
  apply (proj2 (unusable_manifest_copies_all elements no_faults
           {| columns := ["Resi"; "SKU"; "Qty"];
              rows := [ [CNaN; CStr "SKU-X"; CInt 4];
                        [CStr " null "; CStr "SKU-Y"; CNaN] ] |}
           [[example_label; example_plain]; []; [example_plain]]
           (λ X x, elem_of_elements X x) eq_refl
           ltac:(repeat constructor) ltac:(discriminate))).
  split_and!; [reflexivity | repeat constructor | reflexivity].
Defined.

(** ** What a candidate looks like *)

Lemma in_class_alnum (cls : Re.char_class) (c : ascii) :
  Re.in_class cls c = true → is_alnum c = true.
Proof.
  unfold is_alnum. destruct cls; cbn; intros H; rewrite ?H; try done.
  by rewrite orb_true_r.
Qed.

Lemma upper_char_alpha (c : ascii) :
  Py.is_alpha (Py.upper_char c) = true → Py.is_alpha c = true.
Proof. destruct c as [[] [] [] [] [] [] [] []]; vm_compute; congruence. Qed.

Lemma alpha_upper_char (c : ascii) :
  Py.is_alpha c = true → Py.is_alpha (Py.upper_char c) = true.
Proof. destruct c as [[] [] [] [] [] [] [] []]; vm_compute; congruence. Qed.

Lemma lit_match_alnum (c d : ascii) :
  Py.is_alpha c = true → Re.lit_match c d = true → is_alnum d = true.
Proof.
  intros Hc Hm. unfold Re.lit_match in Hm. apply Ascii.eqb_eq in Hm.
  unfold is_alnum. rewrite (upper_char_alpha d); [done|].
  rewrite <- Hm. by apply alpha_upper_char.
Qed.

Lemma upper_char_alnum (c : ascii) :
  is_alnum c = true → is_upper_alnum (Py.upper_char c) = true.
Proof. destruct c as [[] [] [] [] [] [] [] []]; vm_compute; congruence. Qed.

Lemma takes_cons (least : nat) (c : ascii) (s : string) (n m : nat) :
  is_alnum c = true → takes least s (S n) m → takes (S least) (String c s) n m.
Proof.
  intros Hc (j & -> & Hj & Hlen & Hall). exists (S j).
  split_and!; [lia | lia | cbn; lia |]. cbn. by rewrite Hc, Hall.
Qed.

Lemma takes_weaken (least least' : nat) (s : string) (n m : nat) :
  (least' ≤ least)%nat → takes least s n m → takes least' s n m.
Proof. intros H (j & ? & ? & ? & ?). exists j. split_and!; [done | lia | done..]. Qed.

Lemma rep_takes (cls : Re.char_class)
    (k : option ascii → string → nat → option nat) (least : nat) :
  (∀ prev s n m, k prev s n = Some m → takes least s n m) →
  ∀ s lo hi prev n m,
    Re.rep cls lo hi k prev s n = Some m → takes (lo + least) s n m.
Proof.
  intros Hk.
  assert (Hstop : ∀ s lo prev n m,
            (if (lo =? 0)%nat then k prev s n else None) = Some m →
            takes (lo + least) s n m).
  { intros s lo prev n m. destruct (Nat.eqb_spec lo 0) as [->|]; [|discriminate].
    apply Hk. }
  induction s as [|c s IH]; intros lo hi prev n m; cbn [Re.rep]; [apply Hstop|].
  destruct (Re.in_class cls c && Re.may_take hi) eqn:E; [|apply Hstop].
  destruct (Re.rep cls (Nat.pred lo) (Re.one_less hi) k (Some c) s (S n)) as [r|] eqn:Er;
    [|apply Hstop].
  intros [= <-]. apply IH in Er. apply andb_true_iff in E as [Hc _].
  apply in_class_alnum in Hc.
  eapply takes_weaken; [|by apply takes_cons]. lia.
Qed.

Lemma match_here_takes (p : Re.pattern) :
  lits_alpha p = true →
  ∀ prev s n m, Re.match_here p prev s n = Some m → takes (min_len p) s n m.
Proof.
  induction p as [|it p IH]; intros Hp prev s n m.
  - intros [= <-]. exists 0%nat. split_and!; [lia | done | lia | by destruct s].
  - cbn in Hp. apply andb_true_iff in Hp as [Hit Hp]. specialize (IH Hp).
    destruct it as [|c|cls lo hi]; cbn [Re.match_here min_len foldr].
    + destruct (Re.at_boundary prev s); [apply IH | discriminate].
    + destruct s as [|d s]; [discriminate|].
      destruct (Re.lit_match c d) eqn:E; [|discriminate].
      intros H%IH. apply takes_cons; [by eapply lit_match_alnum | done].
    + by apply rep_takes.
Qed.

Lemma length_substring (j : nat) (s : string) :
  (j ≤ String.length s)%nat → String.length (String.substring 0 j s) = j.
Proof.
  revert j. induction s as [|c s IH]; intros [|j] H; cbn in *; try done; try lia.
  rewrite IH; lia.
Qed.

Lemma prefix_substring (j : nat) (s : string) :
  String.prefix (String.substring 0 j s) s = true.
Proof.
  revert j. induction s as [|c s IH]; intros [|j]; cbn; try done.
  destruct (ascii_dec c c); [apply IH | done].
Qed.

Lemma contains_prefix (x s : string) :
  String.prefix x s = true → Py.contains x s = true.
Proof. intros H. destruct s; cbn [Py.contains]; by rewrite H. Qed.

Lemma contains_cons (x : string) (c : ascii) (s : string) :
  Py.contains x s = true → Py.contains x (String c s) = true.
Proof. intros H. cbn [Py.contains]. rewrite H. apply orb_true_r. Qed.

Lemma match_in_cons (least : nat) (c : ascii) (s x : string) :
  match_in least s x → match_in least (String c s) x.
Proof. intros (? & ? & ?). split_and!; [done..|]. by apply contains_cons. Qed.

Lemma takes_match_in (least : nat) (s : string) (m : nat) :
  takes least s 0 m → match_in least s (String.substring 0 m s).
Proof.
  intros (j & -> & Hj & Hlen & Hall). cbn [Nat.add]. split_and!.
  - by rewrite length_substring.
  - done.
  - apply contains_prefix, prefix_substring.
Qed.

Lemma findall_from_match_in (p : Re.pattern) (prev : option ascii) (s : string)
    (skip : nat) :
  lits_alpha p = true →
  Forall (match_in (min_len p) s) (Re.findall_from p prev s skip).
Proof.
  intros Hp. revert prev skip.
  induction s as [|c s IH]; intros prev skip; cbn [Re.findall_from].
  - destruct skip; [|constructor].
    destruct (Re.match_here p prev "" 0) as [m|] eqn:E; [|constructor].
    apply (match_here_takes p Hp) in E. repeat constructor.
    destruct E as (j & -> & Hj & Hlen & _). cbn in *. lia.
  - assert (Hrest : ∀ prev' skip',
              Forall (match_in (min_len p) (String c s))
                (Re.findall_from p prev' s skip')).
    { intros prev' skip'. eapply Forall_impl; [apply IH|].
      intros x. apply match_in_cons. }
    destruct skip; [|apply Hrest].
    destruct (Re.match_here p prev (String c s) 0) as [[|m]|] eqn:E; [| |apply Hrest].
    + constructor; [|apply Hrest].
      apply (match_here_takes p Hp) in E.
      apply takes_match_in in E. exact E.
    + constructor; [|apply Hrest].
      apply (match_here_takes p Hp) in E. by apply takes_match_in in E.
Qed.

Lemma length_upper (s : string) : String.length (Py.upper s) = String.length s.
Proof. induction s; cbn; congruence. Qed.

Lemma all_chars_upper (s : string) :
  all_chars is_alnum s = true → all_chars is_upper_alnum (Py.upper s) = true.
Proof.
  induction s as [|c s IH]; [done|]. cbn.
  intros [Hc Hs]%andb_true_iff. by rewrite upper_char_alnum, IH.
Qed.

Lemma prefix_upper (x s : string) :
  String.prefix x s = true → String.prefix (Py.upper x) (Py.upper s) = true.
Proof.
  revert s. induction x as [|a x IH]; intros [|b s]; cbn; try done.
  destruct (ascii_dec a b) as [->|]; [|discriminate].
  intros H. destruct (ascii_dec _ _); [by apply IH | done].
Qed.

Lemma contains_upper (x s : string) :
  Py.contains x s = true → Py.contains (Py.upper x) (Py.upper s) = true.
Proof.
  induction s as [|c s IH]; cbn [Py.contains Py.upper].
  - rewrite !orb_false_r. apply (prefix_upper x "").
  - intros [H|H]%orb_true_iff.
    + apply (prefix_upper x (String c s)) in H. cbn [Py.upper] in H. by rewrite H.
    + rewrite IH by done. apply orb_true_r.
Qed.

Lemma extract_candidates_shape (text : string) :
  Forall (λ c, (12 ≤ String.length c)%nat ∧
               all_chars is_upper_alnum c = true ∧
               Py.contains c (Py.upper text) = true)
    (extract_all_awb_candidates text).
Proof.
  apply Forall_forall. intros c.
  rewrite extract_all_awb_candidates_first_seen, collect_candidates_concat.
  intros [Hc%list_elem_of_In _]%first_seen_elem.
  apply in_concat in Hc as (ms & Hms & Hc).
  apply in_map_iff in Hms as (p & <- & Hp).
  apply in_map_iff in Hc as (m & <- & Hm).
  assert (Hpat : Forall (λ p, lits_alpha p = true ∧ (12 ≤ min_len p)%nat) patterns).
  { unfold patterns. repeat constructor; vm_compute; by repeat constructor. }
  apply list_elem_of_In in Hp, Hm.
  destruct (proj1 (Forall_forall _ _) Hpat p Hp) as [Halpha Hmin].
  pose proof (proj1 (Forall_forall _ _)
                (findall_from_match_in p None text 0 Halpha) m Hm)
    as (Hlen & Hall & Hin).
  split_and!.
  - rewrite length_upper. lia.
  - by apply all_chars_upper.
  - by apply contains_upper.
Qed.

(** X12. Every extracted candidate has at least 12 characters, all of
    them upper-case letters or digits, and occurs in the upper-cased text
    of the page: extraction yields no empty or invented candidate and none
    with a blank or punctuation in it. *)
Theorem candidates_are_parts_of_the_text (text : string) :
  Forall (λ c, (12 ≤ String.length c)%nat ∧
               all_chars is_upper_alnum c = true ∧
               Py.contains c (Py.upper text) = true)
    (extract_all_awb_candidates text).
Proof. apply extract_candidates_shape. Qed.

(** ** Column labels *)

Lemma rename_keeps (alt target_col x : string) (cols : list string) :
  x ∈ cols → x ≠ alt → x ∈ rename alt target_col cols.
Proof.
  intros Hx Hne. unfold rename. apply list_elem_of_In, in_map_iff.
  exists x. split; [by rewrite decide_False | by apply list_elem_of_In].
Qed.

Lemma rename_target (alt target_col : string) (cols : list string) :
  alt ∈ cols → target_col ∈ rename alt target_col cols.
Proof.
  intros Hx. unfold rename. apply list_elem_of_In, in_map_iff.
  exists alt. split; [by rewrite decide_True | by apply list_elem_of_In].
Qed.

Lemma resolve_column_keeps (cols : list string) (target_col x : string)
    (alternatives : list string) :
  x ∈ cols → x ∉ alternatives →
  x ∈ resolve_column cols (target_col, alternatives).
Proof.
  intros Hx Hnot. cbn. destruct (decide (target_col ∈ cols)); [done|].
  destruct (List.find _ alternatives) as [alt|] eqn:E; [|done].
  apply find_some in E as [Hin%list_elem_of_In _].
  apply rename_keeps; [done|]. by intros ->.
Qed.

Lemma resolve_column_target (cols : list string) (target_col alias : string)
    (alternatives : list string) :
  alias ∈ alternatives → alias ∈ cols →
  target_col ∈ resolve_column cols (target_col, alternatives).
Proof.
  intros Halias Hcols. cbn. destruct (decide (target_col ∈ cols)); [done|].
  destruct (List.find _ alternatives) as [alt|] eqn:E.
  - apply find_some in E as [_ Hin%bool_decide_eq_true_1]. by apply rename_target.
  - apply list_elem_of_In in Halias. apply (find_none _ _ E) in Halias.
    by apply bool_decide_eq_false_1 in Halias.
Qed.

Lemma normalize_columns_present (target_col alias : string) (aliases cols : list string) :
  (target_col, aliases) ∈ col_mapping → alias ∈ aliases → alias ∈ cols →
  target_col ∈ normalize_columns cols.
Proof.
  intros Hentry Halias Hcols. unfold normalize_columns, col_mapping in *. cbn [foldl].
  repeat (apply elem_of_cons in Hentry as [[= -> ->]|Hentry]);
    [| | | by apply elem_of_nil in Hentry].
  - apply resolve_column_keeps; [|by_eval].
    apply resolve_column_keeps; [|by_eval].
    by eapply resolve_column_target.
  - apply resolve_column_keeps; [|by_eval].
    eapply resolve_column_target; [done|].
    apply resolve_column_keeps; [done|].
    repeat (apply elem_of_cons in Halias as [->|Halias]; [by_eval|]).
    by apply elem_of_nil in Halias.
  - eapply resolve_column_target; [done|].
    apply resolve_column_keeps;
      [|repeat (apply elem_of_cons in Halias as [->|Halias]; [by_eval|]);
        by apply elem_of_nil in Halias].
    apply resolve_column_keeps; [done|].
    repeat (apply elem_of_cons in Halias as [->|Halias]; [by_eval|]).
    by apply elem_of_nil in Halias.
Qed.

(** X13. After the aliases are resolved, a required column is there
    exactly when the spreadsheet has it under one of its aliases; so the
    request passes the column check exactly when each of the three
    required columns is present under some alias. *)
Theorem required_column_present_iff (cols : list string) :
  Forall (λ entry : string * list string,
            entry.1 ∈ normalize_columns cols ↔
            ∃ alias, alias ∈ entry.2 ∧ alias ∈ cols) col_mapping ∧
  (missing_columns (normalize_columns cols) = [] ↔
   Forall (λ entry : string * list string,
             ∃ alias, alias ∈ entry.2 ∧ alias ∈ cols) col_mapping).
Proof.
  assert (Hiff : ∀ target_col aliases, (target_col, aliases) ∈ col_mapping →
            target_col ∈ normalize_columns cols ↔
            ∃ alias, alias ∈ aliases ∧ alias ∈ cols).
  { intros target_col aliases Hentry. split.
    - intros Hin. destruct (decide (Exists (λ alias, alias ∈ cols) aliases)) as [H|H].
      + apply Exists_exists in H as (alias & ? & ?). eauto.
      + exfalso. apply (normalize_columns_absent _ _ cols Hentry); [|done].
        intros alias Halias Hcols. apply H, Exists_exists. eauto.
    - intros (alias & Halias & Hcols). by eapply normalize_columns_present. }
  assert (Hall : Forall (λ entry : string * list string,
                   entry.1 ∈ normalize_columns cols ↔
                   ∃ alias, alias ∈ entry.2 ∧ alias ∈ cols) col_mapping).
  { apply Forall_forall. intros [target_col aliases] Hentry. by apply Hiff. }
  split; [exact Hall|]. split.
  - intros Hmiss. apply Forall_forall. intros [target_col aliases] Hentry.
    apply (Hiff _ _ Hentry), missing_columns_nil; [done|].
    unfold col_mapping in Hentry.
    repeat (apply elem_of_cons in Hentry as [[= -> ->]|Hentry]);
      [by_eval.. | by apply elem_of_nil in Hentry].
  - intros H.
    assert (Hreq : Forall (λ entry : string * list string,
                     entry.1 ∈ normalize_columns cols) col_mapping).
    { apply Forall_forall. intros [target_col aliases] Hentry.
      apply (Hiff _ _ Hentry). apply (proj1 (Forall_forall _ _) H _ Hentry). }
    unfold col_mapping in Hreq.
    pose proof (Forall_inv Hreq) as H1.
    pose proof (Forall_inv (Forall_inv_tail Hreq)) as H2.
    pose proof (Forall_inv (Forall_inv_tail (Forall_inv_tail Hreq))) as H3.
    cbn [fst] in H1, H2, H3.
    unfold missing_columns, required_cols. cbn [List.filter].
    rewrite !bool_decide_eq_false_2 by (intros Hn; by apply Hn). done.
Qed.

Lemma rename_lookup (alt target_col : string) (cols : list string) (i : nat) (c : string) :
  cols !! i = Some c → c ≠ alt → rename alt target_col cols !! i = Some c.
Proof.
  intros Hc Hne. unfold rename.
  change (map ?f cols) with (f <$> cols). rewrite list_lookup_fmap, Hc. cbn.
  by rewrite decide_False.
Qed.

Lemma resolve_column_lookup (cols : list string) (entry : string * list string)
    (i : nat) (c : string) :
  cols !! i = Some c → c ∉ entry.2 → resolve_column cols entry !! i = Some c.
Proof.
  destruct entry as [target_col alternatives]. intros Hc Hnot. cbn.
  destruct (decide (target_col ∈ cols)); [done|].
  destruct (List.find _ alternatives) as [alt|] eqn:E; [|done].
  apply find_some in E as [Hin%list_elem_of_In _].
  apply rename_lookup; [done|]. by intros ->.
Qed.

Lemma resolve_column_length (cols : list string) (entry : string * list string) :
  length (resolve_column cols entry) = length cols.
Proof.
  destruct entry as [target_col alternatives]. cbn.
  destruct (decide _); [done|]. destruct (List.find _ _); [|done].
  apply length_map.
Qed.

(** X14. Resolving the aliases renames labels in place: the number of
    columns stays, and a column whose label is none of the known aliases
    keeps its label at its position, so the cells of a row stay under
    their columns. *)
Theorem other_columns_keep_their_place (cols : list string) :
  length (normalize_columns cols) = length cols ∧
  ∀ i c, cols !! i = Some c →
    Forall (λ entry : string * list string, c ∉ entry.2) col_mapping →
    normalize_columns cols !! i = Some c.
Proof.
  unfold normalize_columns.
  assert (H : ∀ (mapping : list (string * list string)) (l : list string),
            length (foldl resolve_column l mapping) = length l ∧
            ∀ i c, l !! i = Some c →
              Forall (λ entry : string * list string, c ∉ entry.2) mapping →
              foldl resolve_column l mapping !! i = Some c).
  { induction mapping as [|entry mapping IH]; intros l; [done|].
    cbn [foldl]. destruct (IH (resolve_column l entry)) as [IH1 IH2]. split.
    - by rewrite IH1, resolve_column_length.
    - intros i c Hc [Hentry Hrest]%Forall_cons.
      apply IH2; [|done]. by apply resolve_column_lookup. }
  apply H.
Qed.

(** ** Equal SKUs *)

Lemma leb_refl (s : string) : String.leb s s = true.
Proof. by destruct (String.leb_total s s). Qed.

Lemma filter_insert_by_msku (sku : string) (x : item) (l : list item) :
  List.filter (λ it, bool_decide (msku it = sku)) (insert_by_msku x l)
  = List.filter (λ it, bool_decide (msku it = sku)) (x :: l).
Proof.
  induction l as [|y l IH]; [done|].
  cbn [insert_by_msku]. destruct (String.leb (msku x) (msku y)) eqn:E; [done|].
  cbn [List.filter] in *. rewrite IH.
  destruct (bool_decide (msku x = sku)) eqn:Ex; [|done].
  destruct (bool_decide (msku y = sku)) eqn:Ey; [|done].
  apply bool_decide_eq_true_1 in Ex, Ey.
  rewrite Ex, Ey, leb_refl in E. discriminate.
Qed.

Lemma filter_sort_by_msku (sku : string) (l : list item) :
  List.filter (λ it, bool_decide (msku it = sku)) (sort_by_msku l)
  = List.filter (λ it, bool_decide (msku it = sku)) l.
Proof.
  induction l as [|x l IH]; [done|].
  cbn [sort_by_msku foldr]. rewrite filter_insert_by_msku.
  cbn [List.filter]. fold (sort_by_msku l). by rewrite IH.
Qed.

(** X15. Sorting by SKU keeps rows with the same SKU in spreadsheet
    order and merges nothing: under every key, the items with a given SKU
    are those of the rows with that tracking number and SKU, one per row,
    in row order. *)
Theorem equal_skus_keep_row_order
    (cols : list string) (rows : list (list cell))
    (idx : gmap string (list item)) (known : gset string)
    (k : string) (l : list item)
    (Hidx : build_index cols rows = Ok (idx, known))
    (Hl : idx !! k = Some l) :
  (∀ sku, List.filter (λ it, bool_decide (msku it = sku)) l
          = List.filter (λ it, bool_decide (msku it = sku)) (entries_for cols k rows)) ∧
  length l = length (entries_for cols k rows).
Proof.
  destruct (build_index_lookup _ _ _ _ _ _ Hidx Hl) as [-> _]. split.
  - intros sku. apply filter_sort_by_msku.
  - by rewrite sort_by_msku_perm.
Qed.

Lemma equal_skus_keep_row_order_witness :
  let cols := ["AWB/No. Tracking"; "MSKU"; "Jumlah"] in
  let rows := [ [CStr "JT1234567890123"; CStr "SKU-B"; CInt 1];
                [CStr "JT1234567890123"; CStr "SKU-A"; CInt 5];
                [CStr "JT1234567890123"; CStr "SKU-B"; CInt 2] ] in
  let l := [ {| msku := "SKU-A"; jumlah := 5 |}; {| msku := "SKU-B"; jumlah := 1 |};
             {| msku := "SKU-B"; jumlah := 2 |} ] in
  length l = length (entries_for cols "JT1234567890123" rows).
Proof.
  intros cols rows l.
  apply (equal_skus_keep_row_order cols rows {[ "JT1234567890123" := l ]}
           {[ "JT1234567890123" ]} "JT1234567890123" l).
  - reflexivity.
  - apply lookup_singleton_eq.
Defined.

(** ** Which candidate decides *)

(** X16. When the matcher returns a known number, it is decided by the
    first candidate that has the substring relation with some known
    number: the result is a known number related to that candidate, and
    that candidate itself when it is a known number. No candidate after it
    is looked at, and no known number unrelated to it is returned. *)
Theorem find_matching_awb_decided_by_first_related
    (candidates known_awbs : list string) (r : string)
    (Hfound : find_matching_awb candidates known_awbs = Some r) :
  ∃ pre c post,
    candidates = pre ++ c :: post ∧
    Forall (unrelated known_awbs) pre ∧
    r ∈ known_awbs ∧
    Py.contains c r || Py.contains r c = true ∧
    (c ∈ known_awbs → r = c).
Proof.
  induction candidates as [|c rest IH]; cbn [find_matching_awb] in Hfound;
    [discriminate|].
  destruct (decide (c ∈ known_awbs)) as [Hin|Hnot].
  - injection Hfound as <-. exists [], c, rest.
    split_and!; [done | constructor | done | by rewrite contains_refl | done].
  - destruct (first_related c known_awbs) as [k|] eqn:E.
    + injection Hfound as <-. exists [], c, rest.
      split_and!; [done | constructor | by eapply first_related_in | | done].
      unfold first_related in E. by apply find_some in E as [_ E].
    + destruct (IH Hfound) as (pre & c' & post & -> & Hpre & Hr & Hrel & Hc).
      exists (c :: pre), c', post.
      split_and!; [done | | done..].
      constructor; [by apply first_related_none | done].
Qed.

Lemma find_matching_awb_decided_by_first_related_witness :
  ∃ pre c post,
    ["LEX0000000000"; "JT123456789012"; "SPXID123456789012"] = pre ++ c :: post ∧
    Forall (unrelated ["JT1234567890123"; "SPXID123456789012"]) pre ∧
    Py.contains c "JT1234567890123" || Py.contains "JT1234567890123" c = true.
Proof.
  destruct (find_matching_awb_decided_by_first_related
              ["LEX0000000000"; "JT123456789012"; "SPXID123456789012"]
              ["JT1234567890123"; "SPXID123456789012"] "JT1234567890123" eq_refl)
    as (pre & c & post & H1 & H2 & _ & H3 & _).
  exists pre, c, post. repeat split; assumption.
Defined.

(** ** Pages with little text *)

Lemma prefix_length (x s : string) :
  String.prefix x s = true → (String.length x ≤ String.length s)%nat.
Proof.
  revert s. induction x as [|a x IH]; intros [|b s]; cbn; try done; try lia.
  destruct (ascii_dec a b); [|discriminate]. intros H%IH. lia.
Qed.

Lemma contains_length (x s : string) :
  Py.contains x s = true → (String.length x ≤ String.length s)%nat.
Proof.
  induction s as [|c s IH]; cbn [Py.contains].
  - rewrite orb_false_r. apply prefix_length.
  - intros [H%prefix_length|H%IH]%orb_true_iff; cbn in *; lia.
Qed.

(** X17. A page with fewer than 12 characters of text, an image-only
    page for one, has no candidate and so no match, whatever the manifest
    holds: it is copied as it is. *)
Theorem short_text_is_never_matched
    (awb_to_items : gmap string (list item)) (known_awbs : list string)
    (doc_id num : nat) (page : pdf_page)
    (Hshort : (String.length (page_text page) < 12)%nat) :
  extract_all_awb_candidates (page_text page) = [] ∧
  awb (scan_page known_awbs doc_id num page) = None ∧
  render_page awb_to_items (scan_page known_awbs doc_id num page)
  = Ok [Copied doc_id num].
Proof.
  assert (Hnone : extract_all_awb_candidates (page_text page) = []).
  { pose proof (extract_candidates_shape (page_text page)) as H.
    destruct (extract_all_awb_candidates (page_text page)) as [|c l]; [done|].
    apply Forall_cons in H as [(Hlen & _ & Hin%contains_length) _].
    rewrite length_upper in Hin. lia. }
  assert (Hawb : awb (scan_page known_awbs doc_id num page) = None).
  { cbn [awb scan_page]. by rewrite Hnone. }
  split_and!; [done | done |].
  rewrite render_page_copied; [reflexivity | by rewrite Hawb].
Qed.

Lemma short_text_is_never_matched_witness :
  awb (scan_page ["SPXID123456789012"] 0 0
         {| page_text := "SPXID123"; page_blocks := [];
            rect_width := 595; rect_height := 842 |}) = None.
Proof.
  apply (short_text_is_never_matched ∅ ["SPXID123456789012"] 0 0
           {| page_text := "SPXID123"; page_blocks := [];
              rect_width := 595; rect_height := 842 |}).
  cbn. lia.
Defined.

(** ** The order of the output *)

Lemma pages_of_group (awb_to_items : gmap string (list item)) (info : page_info)
    (pages : list out_page) :
  render_page awb_to_items info = Ok pages →
  page_group (doc info, page_num info) pages.
Proof.
  unfold page_group. cbn [fst snd].
  intros [[_ ->]|(a & r & _ & _ & Hr & ->)]%render_page_cases; [by left|]. right.
  apply calculate_available_rows_min in Hr.
  destruct (paginate_first (default [] (awb_to_items !! a)) r) as (first & chunks & -> & _);
    [done|].
  rewrite imap_cons. cbn [render_chunk]. eexists _, _, _, _, _. split; [reflexivity|].
  generalize 0%nat. induction chunks as [|chunk chunks IH]; intros k; [constructor|].
  rewrite imap_cons. constructor; [done|].
  specialize (IH (S k)). erewrite imap_ext; [exact IH|]. done.
Qed.

Lemma imap_ids {A} (g : nat → A → page_info) (h : nat → nat * nat) (l : list A) :
  (∀ n x, (doc (g n x), page_num (g n x)) = h n) →
  map (λ info, (doc info, page_num info)) (imap g l) = imap (λ n _, h n) l.
Proof.
  revert g h. induction l as [|x l IH]; intros g h H; [done|].
  rewrite !imap_cons. cbn [map]. rewrite H. f_equal.
  apply (IH (g ∘ S) (h ∘ S)). intros n y. apply H.
Qed.

Lemma scan_pages_ids (known_awbs : list string) (pdf_files : list (list pdf_page)) :
  map (λ info, (doc info, page_num info)) (scan_pages known_awbs pdf_files)
  = page_ids pdf_files.
Proof.
  unfold scan_pages, page_ids.
  assert (H : ∀ (G : nat → nat → pdf_page → page_info) (H : nat → nat → nat * nat)
              (pdfs : list (list pdf_page)),
            (∀ d n p, (doc (G d n p), page_num (G d n p)) = H d n) →
            map (λ info, (doc info, page_num info)) (concat (imap (λ d, imap (G d)) pdfs))
            = concat (imap (λ d pages, imap (λ n _, H d n) pages) pdfs)).
  { intros G H pdfs. revert G H.
    induction pdfs as [|pages pdfs IH]; intros G H HG; [done|].
    rewrite !imap_cons. cbn [concat]. rewrite map_app. f_equal.
    - by apply imap_ids.
    - apply (IH (G ∘ S) (H ∘ S)). intros d n p. apply HG. }
  by apply (H (scan_page known_awbs) (λ d n, (d, n))).
Qed.

(** X18. A document that is returned keeps the order of the uploads: it
    is made of one group of pages for every page of every upload, in upload
    and page order, and a group is either the copy of that page or an
    overlay on that page followed by continuation pages only, so that the
    continuation pages of a label come right after it. *)
Theorem output_keeps_scan_order
    (set_iter : gset string → list string) (lib : library)
    (df : DataFrame) (pdf_files : list (list pdf_page)) (master_doc : list out_page)
    (Hrun : process_labels set_iter lib (Parsed df) (map Parsed pdf_files)
            = Ok master_doc) :
  ∃ groups : list (list out_page),
    master_doc = concat groups ∧
    Forall2 page_group (page_ids pdf_files) groups.
Proof.
  apply process_labels_ok in Hrun
    as (df' & docs & idx & known & _ & _ & _ & Hopen & _ & Hcomp & _).
  rewrite open_all_parsed in Hopen. injection Hopen as <-.
  apply compose_pages in Hcomp as [Hadded ->].
  exists (map (pages_of idx) (scan_pages (set_iter known) pdf_files)).
  split; [apply flat_map_concat_map|].
  rewrite <- (scan_pages_ids (set_iter known)).
  induction Hadded as [|info l (pages & Hr & _) _ IH]; [constructor|].
  cbn [map]. constructor; [|exact IH].
  rewrite (render_page_ok _ _ _ Hr). by apply (pages_of_group idx).
Qed.

Lemma output_keeps_scan_order_witness :
  ∃ groups : list (list out_page),
    [ Overlay 0 0 (0%Q, 120%Q, 595%Q, 842%Q)
        [["MSKU"; "Qty"]; ["SKU-A"; "2"]; ["SKU-B"; "1"]] 7%Q 658%Q;
      Copied 0 1 ] = concat groups ∧
    Forall2 page_group [(0, 0); (0, 1)]%nat groups.
Proof.
  apply (output_keeps_scan_order elements no_faults example_df
           [[example_label; example_plain]]).
  vm_compute. reflexivity.
Defined.
